(** * Comically: the comic archive pipeline and the reading session

    A shallow embedding of the TypeScript sources
      - [src/services/comicService.ts]   (extraction, natural sort, prefetch),
      - [src/services/storageService.ts] (stored series and progress),
      - [src/components/Library.tsx]     (loadLibrary, downloadAndOpenComic),
      - [src/components/ComicReader.tsx] (navigation, zoom and pan, keys),
      - [src/App.tsx]                    (the screens),
    followed by the properties of these functions.

    Conventions of the embedding.
      - A JavaScript string is a [string]; its code units are the 8-bit
        characters of [ascii]: the strings of the embedding are the strings
        of Latin-1 code units (U+0000 to U+00FF). On these, [toLowerCase]
        maps one code unit to one; a name with a code unit outside of this
        range (such as U+0130, which lower-casing makes longer) is not a
        value of the embedding.
      - A JavaScript number holding an index, a count or a timestamp is a [Z];
        the zoom factor and the pan offsets are exact rationals [Q]. The
        numbers that [parseInt] and the subtraction of [naturalSort] produce
        are doubles: [Number.t], with the rounding to 53 significant bits,
        the infinities and NaN.
      - The host functions the code calls but does not define
        ([String.prototype.localeCompare], [JSZip.loadAsync], the Drive
        download, image decoding) are section variables.
      - Promises are run to completion in program order: a promise is its
        settled outcome.
      - A plain object used as a dictionary is a [gmap string _] for its own
        properties, read and written through [Object.prototype].
      - A function that a render creates closes over the state of that
        render: such a function takes the state it has seen as an
        argument. *)

From Stdlib Require Import ZArith QArith Qminmax Lia Lqa Ascii String List Permutation Sorted.
From Stdlib Require Import DecimalString DecimalNat FinFun.
From stdpp Require Import base option list strings gmap.

Local Open Scope string_scope.
Local Open Scope list_scope.
Local Open Scope Z_scope.

(* ================================================================= *)
(** ** JavaScript numbers *)

Module Number.

(** A Number whose value is an integer: a finite double, an infinity, or
    NaN. *)
Inductive t : Type :=
| Finite (z : Z)
| Infinity
| NegInfinity
| NaN.

(** The Number value for an integer: the nearest double, a tie going to the
    even significand; from 2^1024 on, an infinity. *)
Definition ofZ (n : Z) : t :=
  let a := Z.abs n in
  let m :=
    if a <? 2 ^ 53 then a
    else
      let ulp := 2 ^ (Z.log2 a - 52) in
      let q := a / ulp in
      let r := a mod ulp in
      if (ulp <? 2 * r) || ((2 * r =? ulp) && Z.odd q) then (q + 1) * ulp else q * ulp in
  if 2 ^ 1024 <=? m then (if n <? 0 then NegInfinity else Infinity)
  else Finite (Z.sgn n * m).

(** [a - b] *)
Definition sub (a b : t) : t :=
  match a, b with
  | NaN, _ | _, NaN => NaN
  | Finite x, Finite y => ofZ (x - y)
  | Infinity, Infinity | NegInfinity, NegInfinity => NaN
  | Infinity, _ | _, NegInfinity => Infinity
  | NegInfinity, _ | _, Infinity => NegInfinity
  end.

(** [v !== 0] is false *)
Definition isZero (v : t) : bool :=
  match v with
  | Finite 0 => true
  | _ => false
  end.

(** What [Array.prototype.sort] makes of the result of its comparator: NaN
    counts as +0, and only the sign is looked at. *)
Definition sortCompare (v : t) : Z :=
  match v with
  | Finite z => z
  | Infinity => 1
  | NegInfinity => -1
  | NaN => 0
  end.

Definition negative (v : t) : Prop := sortCompare v < 0.
Definition positive (v : t) : Prop := 0 < sortCompare v.

End Number.

(* ================================================================= *)
(** ** JavaScript string primitives *)

Module JsString.

(** [\d] without the unicode flag: the ASCII digits. *)
Definition isDigit (c : ascii) : bool :=
  let n := nat_of_ascii c in (48 <=? n)%nat && (n <=? 57)%nat.

Definition digitValue (c : ascii) : Z := Z.of_nat (nat_of_ascii c) - 48.

Fixpoint allb (p : ascii -> bool) (s : string) : bool :=
  match s with
  | EmptyString => true
  | String c s' => p c && allb p s'
  end.

(** [/^\d+$/.test(s)] *)
Definition test_digits (s : string) : bool :=
  match s with
  | EmptyString => false
  | String _ _ => allb isDigit s
  end.

(** A maximal run of [\D]; the empty string stands for a missing part. *)
Definition nondigit_run (s : string) : bool := allb (fun c => negb (isDigit c)) s.

(** The integer that a run of digits denotes in radix 10 (the [mathInt] of
    the definition of [parseInt]). *)
Fixpoint mathInt_from (acc : Z) (s : string) : Z :=
  match s with
  | EmptyString => acc
  | String c s' => mathInt_from (10 * acc + digitValue c) s'
  end.

Definition mathInt (s : string) : Z := mathInt_from 0 s.

(** [parseInt(s, 10)] on a digit run: the Number value for [mathInt]. *)
Definition parseInt (s : string) : Number.t := Number.ofZ (mathInt s).

(** [s.match(/(\d+)|(\D+)/g) || []]: the maximal runs of digits and of
    non-digits of [s], from left to right. *)
Fixpoint match_runs (s : string) : list string :=
  match s with
  | EmptyString => []
  | String c s' =>
      match match_runs s' with
      | String d p :: ps =>
          if Bool.eqb (isDigit c) (isDigit d)
          then String c (String d p) :: ps
          else String c EmptyString :: String d p :: ps
      | _ => [String c EmptyString]
      end
  end.

(** The longest prefix of [s] whose characters satisfy [p], and the rest. *)
Fixpoint span (p : ascii -> bool) (s : string) : string * string :=
  match s with
  | EmptyString => (EmptyString, EmptyString)
  | String c s' =>
      if p c then let '(r, t) := span p s' in (String c r, t)
      else (EmptyString, s)
  end.

(** [s.toLowerCase()] on Latin-1 code units: A-Z and the accented capitals
    U+00C0..U+00DE except the multiplication sign U+00D7. *)
Definition lowerChar (c : ascii) : ascii :=
  let n := nat_of_ascii c in
  if ((65 <=? n) && (n <=? 90))%nat then ascii_of_nat (n + 32)
  else if ((192 <=? n) && (n <=? 222) && negb (n =? 215))%nat then ascii_of_nat (n + 32)
  else c.

Fixpoint toLowerCase (s : string) : string :=
  match s with
  | EmptyString => EmptyString
  | String c s' => String (lowerChar c) (toLowerCase s')
  end.

Definition dot : ascii := "."%char.

(** [s.lastIndexOf(".")]: the index of the last dot, or -1. *)
Fixpoint lastIndexOf_dot (s : string) : Z :=
  match s with
  | EmptyString => -1
  | String c s' =>
      let r := lastIndexOf_dot s' in
      if 0 <=? r then r + 1
      else if Ascii.eqb c dot then 0 else -1
  end.

Fixpoint drop (n : nat) (s : string) : string :=
  match n, s with
  | O, _ => s
  | S n', String _ s' => drop n' s'
  | S _, EmptyString => EmptyString
  end.

Fixpoint take (n : nat) (s : string) : string :=
  match n, s with
  | O, _ => EmptyString
  | S n', String c s' => String c (take n' s')
  | S _, EmptyString => EmptyString
  end.

(** [s.substring(start)]: a negative start counts as 0, one past the end
    as the length. *)
Definition substring_from (start : Z) (s : string) : string :=
  drop (Z.to_nat start) s.

(** [`${n}`] for a non-negative integer. *)
Definition ofNat (n : nat) : string := NilEmpty.string_of_uint (Nat.to_uint n).

(** Binary order on code units: the collation used for concrete runs. *)
Fixpoint codeUnitCompare (s t : string) : Z :=
  match s, t with
  | EmptyString, EmptyString => 0
  | EmptyString, String _ _ => -1
  | String _ _, EmptyString => 1
  | String c s', String d t' =>
      let x := Z.of_nat (nat_of_ascii c) in
      let y := Z.of_nat (nat_of_ascii d) in
      if x <? y then -1 else if y <? x then 1 else codeUnitCompare s' t'
  end.

End JsString.

Import JsString.

(* ================================================================= *)
(** ** comicService.ts: naturalSort *)

Section NaturalSort.

(** [String.prototype.localeCompare] of the host. *)
Variable localeCompare : string -> string -> Z.

(** The body of the loop of [naturalSort] at one index. *)
Definition comparePart (aPart bPart : string) : Number.t :=
  if test_digits aPart && test_digits bPart
  then Number.sub (parseInt aPart) (parseInt bPart)
  else Number.Finite (localeCompare aPart bPart).

(** [for (let i = ...; i < Math.max(aParts.length, bParts.length); i++)],
    with [n] the number of iterations left. *)
Fixpoint naturalSort_loop (aParts bParts : list string) (i n : nat) : Number.t :=
  match n with
  | O => Number.Finite 0
  | S n' =>
      let aPart := nth i aParts EmptyString in
      let bPart := nth i bParts EmptyString in
      let diff := comparePart aPart bPart in
      if Number.isZero diff then naturalSort_loop aParts bParts (S i) n' else diff
  end.

Definition naturalSort (a b : string) : Number.t :=
  let aParts := match_runs a in
  let bParts := match_runs b in
  naturalSort_loop aParts bParts 0 (Nat.max (length aParts) (length bParts)).

End NaturalSort.

(* ================================================================= *)
(** ** Arrays, promises and the host *)

Module JsArray.

Section Sort.
Context {A : Type} (compareFn : A -> A -> Z).

(** [Array.prototype.sort(compareFn)] is a stable sort: [x] goes in front
    of the first element it does not have to follow. [compareFn] gives the
    number the sort works with ([Number.sortCompare] for a comparator that
    returns a double). The order is the one every stable sort gives when
    [compareFn] is consistent on the elements; when it is not, the
    standard leaves the order to the implementation. *)
Fixpoint sort_insert (x : A) (l : list A) : list A :=
  match l with
  | [] => [x]
  | y :: l' => if compareFn x y <=? 0 then x :: y :: l' else y :: sort_insert x l'
  end.

Fixpoint sort (l : list A) : list A :=
  match l with
  | [] => []
  | x :: l' => sort_insert x (sort l')
  end.
End Sort.

(** The clamping of a relative index of [Array.prototype.slice]: a
    negative index counts from the end. *)
Definition relativeIndex (len k : Z) : Z :=
  if k <? 0 then Z.max (len + k) 0 else Z.min k len.

(** [l.slice(start, end)] *)
Definition slice {A : Type} (l : list A) (start end_ : Z) : list A :=
  let len := Z.of_nat (length l) in
  let k := relativeIndex len start in
  let final := relativeIndex len end_ in
  firstn (Z.to_nat (Z.max (final - k) 0)) (skipn (Z.to_nat k) l).

End JsArray.

(** A settled promise. *)
Inductive Settled (A : Type) : Type :=
| Fulfilled (value : A)
| Rejected (reason : string).
Arguments Fulfilled {A} value.
Arguments Rejected {A} reason.

(** [await p] followed by the rest of an async function: a rejection of [p]
    rejects the function. *)
Definition await {A B : Type} (p : Settled A) (k : A -> Settled B) : Settled B :=
  match p with
  | Fulfilled a => k a
  | Rejected e => Rejected e
  end.

(** [Promise.allSettled] fulfils with the outcomes, whatever they are. *)
Definition Promise_allSettled {A : Type} (ps : list (Settled A)) : Settled (list (Settled A)) :=
  Fulfilled ps.

Definition Blob : Type := list Byte.byte.
Definition ArrayBuffer : Type := list Byte.byte.

Inductive LogEntry : Type :=
| console_warn (message reason : string)
| console_error (message reason : string).

(** The part of the browser the services act on: the console, the registry of
    object URLs ([URL.createObjectURL]) and the image loads started
    ([img.src = url]). *)
Record Host : Type := mkHost {
  console : list LogEntry;
  objectURLs : list Blob;
  imageLoads : list string
}.

Definition emptyHost : Host := mkHost [] [] [].

Definition log (e : LogEntry) (h : Host) : Host :=
  mkHost (console h ++ [e]) (objectURLs h) (imageLoads h).

(** [URL.createObjectURL(blob)]: a fresh handle for the blob. *)
Definition createObjectURL (b : Blob) (h : Host) : string * Host :=
  ("blob:" +:+ ofNat (length (objectURLs h)),
   mkHost (console h) (objectURLs h ++ [b]) (imageLoads h)).

(* ================================================================= *)
(** ** types.ts *)

Record Page : Type := mkPage {
  page_id : string;
  page_blob : Blob;
  page_url : string;
  page_index : Z
}.

(** [currentPage] is declared a number, but the object that
    [downloadAndOpenComic] builds can hold [undefined] there: [None], as
    for the optional [lastRead]. *)
Record Comic : Type := mkComic {
  comic_id : string;
  comic_name : string;
  fileId : string;
  seriesId : string;
  pages : list Page;
  currentPage : option Z;
  totalPages : Z;
  lastRead : option Z
}.

Record ComicSeries : Type := mkSeries {
  series_id : string;
  series_name : string;
  folderId : string;
  comics : list Comic;
  coverImage : option string
}.

Inductive FitMode : Type := fit_width | fit_height | fit_page.
Inductive PageLayout : Type := single | double | continuous.
Inductive ReadingDirection : Type := ltr | rtl.

Record ReadingSettings : Type := mkSettings {
  fitMode : FitMode;
  pageLayout : PageLayout;
  readingDirection : ReadingDirection;
  backgroundColor : string;
  showProgress : bool
}.

(* ================================================================= *)
(** ** JSZip *)

(** An entry of [zipFile.files]: the [dir] flag and the outcome of
    [file.async("blob")]. *)
Record ZipObject : Type := mkZipObject {
  dir : bool;
  async_blob : Settled Blob
}.

(** [zipFile.files], in the order of [Object.keys]. *)
Definition ZipFiles : Type := list (string * ZipObject).

(** [zipFile.files[fileName]] *)
Fixpoint files_get (files : ZipFiles) (fileName : string) : option ZipObject :=
  match files with
  | [] => None
  | (k, f) :: files' => if String.eqb k fileName then Some f else files_get files' fileName
  end.

(* ================================================================= *)
(** ** comicService.ts *)

Definition imageExtensions : list string :=
  [".jpg"; ".jpeg"; ".png"; ".gif"; ".bmp"; ".webp"].

Definition isImageFile (fileName : string) : bool :=
  let extension := substring_from (lastIndexOf_dot fileName) (toLowerCase fileName) in
  existsb (String.eqb extension) imageExtensions.

Definition warn_extract (fileName reason : string) : LogEntry :=
  console_warn ("Failed to extract page " +:+ fileName +:+ ":") reason.

Section ComicService.

Variable localeCompare : string -> string -> Z.
(** [new JSZip().loadAsync(arrayBuffer)] *)
Variable loadAsync : ArrayBuffer -> Settled ZipFiles.

(** The names kept and sorted at the head of [extractPagesFromCBR]. *)
Definition imageFiles (files : ZipFiles) : list string :=
  JsArray.sort (fun a b => Number.sortCompare (naturalSort localeCompare a b))
    (List.filter
       (fun fileName =>
          match files_get files fileName with
          | Some file => negb (dir file) && isImageFile fileName
          | None => false
          end)
       (map fst files)).

(** The [for] loop of [extractPagesFromCBR] from index [i] on, [rest] being
    [imageFiles.slice(i)]. *)
Fixpoint extract_loop (files : ZipFiles) (comicId : string)
    (rest : list string) (i : nat) (acc : list Page) (h : Host) : list Page * Host :=
  match rest with
  | [] => (acc, h)
  | fileName :: rest' =>
      match files_get files fileName with
      | Some (mkZipObject _ (Fulfilled blob)) =>
          let '(url, h') := createObjectURL blob h in
          let page := mkPage (comicId +:+ "-page-" +:+ ofNat i) blob url (Z.of_nat i) in
          extract_loop files comicId rest' (S i) (acc ++ [page]) h'
      | Some (mkZipObject _ (Rejected reason)) =>
          extract_loop files comicId rest' (S i) acc (log (warn_extract fileName reason) h)
      | None =>
          extract_loop files comicId rest' (S i) acc
            (log (warn_extract fileName "TypeError") h)
      end
  end.

Definition extractPagesFromCBR (arrayBuffer : ArrayBuffer) (comicId : string)
    (h : Host) : Settled (list Page) * Host :=
  match loadAsync arrayBuffer with
  | Fulfilled zipFile =>
      let '(pages, h') := extract_loop zipFile comicId (imageFiles zipFile) 0 [] h in
      (Fulfilled pages, h')
  | Rejected reason =>
      (Rejected "Failed to extract pages from comic file",
       log (console_error "Failed to extract pages from CBR:" reason) h)
  end.

End ComicService.

Section Preload.

(** Whether the browser fires [onload] (true) or [onerror] for a URL. *)
Variable decodes : string -> bool.

Definition preloadImage (url : string) (h : Host) : Settled string * Host :=
  let h' := mkHost (console h) (objectURLs h) (imageLoads h ++ [url]) in
  (if decodes url then Fulfilled url else Rejected "error", h').

(** [pagesToPreload.map((page) => this.preloadImage(page.url))] *)
Fixpoint preload_map (ps : list Page) (h : Host) : list (Settled string) * Host :=
  match ps with
  | [] => ([], h)
  | page :: ps' =>
      let '(r, h1) := preloadImage (page_url page) h in
      let '(rs, h2) := preload_map ps' h1 in
      (r :: rs, h2)
  end.

(** [startIndex] and [count] are optional: [None] is an omitted argument,
    which takes the default 0, respectively 3. *)
Definition preloadPages (pages : list Page) (startIndex count : option Z)
    (h : Host) : Settled unit * Host :=
  let startIndex := default 0 startIndex in
  let count := default 3 count in
  let pagesToPreload := JsArray.slice pages startIndex (startIndex + count) in
  let '(promises, h') := preload_map pagesToPreload h in
  (await (Promise_allSettled promises) (fun _ => Fulfilled tt), h').

End Preload.

(* ================================================================= *)
(** ** storageService.ts *)

(** A progress record [{ currentPage, lastRead }]; [lastRead] is the
    millisecond time value of the [Date]. *)
Record Progress : Type := mkProgress {
  progress_currentPage : Z;
  progress_lastRead : Z
}.

(** The localforage instance, one field per key of [StorageService.KEYS];
    [None] is a key that was never set ([getItem] gives [null]). *)
Record Store : Type := mkStore {
  SERIES : option (list ComicSeries);
  READING_SETTINGS : option ReadingSettings;
  ACCESS_TOKEN : option string;
  SELECTED_FOLDER : option string;
  COMIC_PROGRESS : option (gmap string Progress)
}.

Definition emptyStore : Store := mkStore None None None None None.

Definition saveSeries (series : list ComicSeries) (st : Store) : Store :=
  mkStore (Some series) (READING_SETTINGS st) (ACCESS_TOKEN st) (SELECTED_FOLDER st)
    (COMIC_PROGRESS st).

Definition getSeries (st : Store) : list ComicSeries := default [] (SERIES st).

(** [arr.findIndex(p)], with [None] for -1. *)
Fixpoint findIndex {A : Type} (p : A -> bool) (l : list A) : option nat :=
  match l with
  | [] => None
  | x :: l' => if p x then Some O else S <$> findIndex p l'
  end.

Definition saveComic (comic : Comic) (st : Store) : Store :=
  let series := getSeries st in
  match findIndex (fun s => String.eqb (series_id s) (seriesId comic)) series with
  | Some seriesIndex =>
      match series !! seriesIndex with
      | Some s =>
          let comics' :=
            match findIndex (fun c => String.eqb (comic_id c) (comic_id comic)) (comics s) with
            | Some comicIndex => <[comicIndex := comic]> (comics s)
            | None => comics s ++ [comic]
            end in
          let s' := mkSeries (series_id s) (series_name s) (folderId s) comics' (coverImage s) in
          saveSeries (<[seriesIndex := s']> series) st
      | None => st
      end
  | None => st
  end.

Module JsObject.

(** The properties that every plain object inherits from
    [Object.prototype]. The value of each is a function, or for "__proto__"
    the prototype itself: none is a progress record, and all count as
    true. *)
Definition Object_prototype : list string :=
  ["constructor"; "__defineGetter__"; "__defineSetter__"; "hasOwnProperty";
   "__lookupGetter__"; "__lookupSetter__"; "isPrototypeOf"; "propertyIsEnumerable";
   "toString"; "valueOf"; "__proto__"; "toLocaleString"].

(** What [o[key] || null] evaluates to, for an object [o] whose own
    properties are the records [own]. *)
Inductive Value : Type :=
| Own (progress : Progress)
| Inherited (key : string)
| Null.

Definition get (own : gmap string Progress) (key : string) : Value :=
  match own !! key with
  | Some progress => Own progress
  | None => if existsb (String.eqb key) Object_prototype then Inherited key else Null
  end.

(** [o[key] = value]: an own property of that name is overwritten;
    otherwise the key "__proto__" reaches the setter of [Object.prototype],
    which changes the prototype of [o] and gives it no property; any other
    key becomes an own property. *)
Definition set (own : gmap string Progress) (key : string) (value : Progress)
    : gmap string Progress :=
  match own !! key with
  | Some _ => <[key := value]> own
  | None => if String.eqb key "__proto__" then own else <[key := value]> own
  end.

End JsObject.

(** [localforage.setItem] stores the own properties of [allProgress]. *)
Definition saveComicProgress (comicId : string) (progress : Progress) (st : Store) : Store :=
  let allProgress := default ∅ (COMIC_PROGRESS st) in
  let allProgress := JsObject.set allProgress comicId progress in
  mkStore (SERIES st) (READING_SETTINGS st) (ACCESS_TOKEN st) (SELECTED_FOLDER st)
    (Some allProgress).

Definition getComicProgress (comicId : string) (st : Store) : JsObject.Value :=
  let allProgress := default ∅ (COMIC_PROGRESS st) in
  JsObject.get allProgress comicId.

(* ================================================================= *)
(** ** Library.tsx: downloadAndOpenComic *)

Record Library : Type := mkLibrary {
  downloadingComics : gset string;
  error : option string;
  store : Store;
  host : Host
}.

Section Library.

Variable localeCompare : string -> string -> Z.
Variable loadAsync : ArrayBuffer -> Settled ZipFiles.
(** [driveService.downloadFile(fileId)] *)
Variable downloadFile : string -> Settled ArrayBuffer.

(** The [try] block: the comic handed to [onOpenComic], or the exception
    that reaches the [catch]. *)
Definition open_try (comic : Comic) (st : Store) (h : Host) : Settled Comic * Store * Host :=
  match downloadFile (fileId comic) with
  | Rejected e => (Rejected e, st, h)
  | Fulfilled arrayBuffer =>
      match extractPagesFromCBR localeCompare loadAsync arrayBuffer (comic_id comic) h with
      | (Rejected e, h') => (Rejected e, st, h')
      | (Fulfilled extracted, h') =>
          let updatedComic :=
            mkComic (comic_id comic) (comic_name comic) (fileId comic) (seriesId comic)
              extracted (Some 0) (Z.of_nat (length extracted)) (lastRead comic) in
          let updatedComic :=
            match getComicProgress (comic_id comic) st with
            | JsObject.Own progress =>
                mkComic (comic_id updatedComic) (comic_name updatedComic)
                  (fileId updatedComic) (seriesId updatedComic) (pages updatedComic)
                  (Some (progress_currentPage progress)) (totalPages updatedComic)
                  (Some (progress_lastRead progress))
            | JsObject.Inherited _ =>
                (* [progress] is a member of [Object.prototype]: it counts as
                   true and has neither field *)
                mkComic (comic_id updatedComic) (comic_name updatedComic)
                  (fileId updatedComic) (seriesId updatedComic) (pages updatedComic)
                  None (totalPages updatedComic) None
            | JsObject.Null => updatedComic
            end in
          (Fulfilled updatedComic, saveComic updatedComic st, h')
      end
  end.

(** The result is the argument of [onOpenComic], when it is called. *)
Definition downloadAndOpenComic (comic : Comic) (lib : Library) : option Comic * Library :=
  if decide (comic_id comic ∈ downloadingComics lib) then (None, lib)
  else
    let downloading := downloadingComics lib ∪ {[comic_id comic]} in
    match open_try comic (store lib) (host lib) with
    | (Fulfilled updatedComic, st, h) =>
        (Some updatedComic,
         mkLibrary (downloading ∖ {[comic_id comic]}) (error lib) st h)
    | (Rejected e, st, h) =>
        (None,
         mkLibrary (downloading ∖ {[comic_id comic]})
           (Some ("Failed to open " +:+ comic_name comic +:+ ". Please try again."))
           st (log (console_error "Failed to download comic:" e) h))
    end.

End Library.

(* ================================================================= *)
(** ** ComicReader.tsx: the reading session *)

Record Reader : Type := mkReader {
  currentPageIndex : Z;
  zoom : Q;
  position : Q * Q
}.

(** [useState(comic.currentPage)], [useState(1)], [useState({ x: 0, y: 0 })].
    The reader is modelled for a comic whose [currentPage] is a number. *)
Definition initReader (comic : Comic) : option Reader :=
  match currentPage comic with
  | Some k => Some (mkReader k 1%Q (0%Q, 0%Q))
  | None => None
  end.

Section ComicReader.

Variable comic : Comic.
Variable readingSettings : ReadingSettings.

Definition isContinuousMode : bool :=
  match pageLayout readingSettings with
  | continuous => true
  | _ => false
  end.

Definition resetView (r : Reader) : Reader :=
  mkReader (currentPageIndex r) 1%Q (0%Q, 0%Q).

Definition setCurrentPageIndex (i : Z) (r : Reader) : Reader :=
  mkReader i (zoom r) (position r).

(** In continuous mode the handler only scrolls the next image into view. *)
Definition nextPage (r : Reader) : Reader :=
  if isContinuousMode then r
  else
    match readingDirection readingSettings with
    | rtl =>
        if 0 <? currentPageIndex r
        then resetView (setCurrentPageIndex (currentPageIndex r - 1) r)
        else r
    | ltr =>
        if currentPageIndex r <? totalPages comic - 1
        then resetView (setCurrentPageIndex (currentPageIndex r + 1) r)
        else r
    end.

Definition previousPage (r : Reader) : Reader :=
  if isContinuousMode then r
  else
    match readingDirection readingSettings with
    | rtl =>
        if currentPageIndex r <? totalPages comic - 1
        then resetView (setCurrentPageIndex (currentPageIndex r + 1) r)
        else r
    | ltr =>
        if 0 <? currentPageIndex r
        then resetView (setCurrentPageIndex (currentPageIndex r - 1) r)
        else r
    end.

(** [zoomIn] and [zoomOut] are created by each render and read the [zoom]
    of that render, [seen]; what they set is set in the current state [r].
    The buttons call the functions of the current render, for which [seen]
    is [zoom r]; the keydown listener calls those of the render that
    registered it. *)
Definition zoomIn (seen : Q) (r : Reader) : Reader :=
  if isContinuousMode then r
  else
    let newZoom := Qmin 5 (seen * (3 # 2)) in
    mkReader (currentPageIndex r) newZoom (position r).

Definition zoomOut (seen : Q) (r : Reader) : Reader :=
  if isContinuousMode then r
  else
    let newZoom := Qmax (1 # 2) (seen / (3 # 2)) in
    if Qle_bool newZoom 1
    then mkReader (currentPageIndex r) newZoom (0%Q, 0%Q)
    else mkReader (currentPageIndex r) newZoom (position r).

(** [onPinch: ({ offset: [scale] })] *)
Definition onPinch (scale : Q) (r : Reader) : Reader :=
  if isContinuousMode then r
  else
    let newZoom := Qmax (1 # 2) (Qmin 5 scale) in
    if Qle_bool newZoom 1
    then mkReader (currentPageIndex r) newZoom (0%Q, 0%Q)
    else mkReader (currentPageIndex r) newZoom (position r).

(** [onWheel: ({ delta: [, dy], ctrlKey })] *)
Definition onWheel (dy : Q) (ctrlKey : bool) (r : Reader) : Reader :=
  if isContinuousMode then r
  else if ctrlKey then
    let newZoom := Qmax (1 # 2) (Qmin 5 (zoom r - dy * (1 # 1000))) in
    if Qle_bool newZoom 1
    then mkReader (currentPageIndex r) newZoom (0%Q, 0%Q)
    else mkReader (currentPageIndex r) newZoom (position r)
  else r.

(** [onDrag: ({ offset: [x, y], pinching })] *)
Definition onDrag (x y : Q) (pinching : bool) (r : Reader) : Reader :=
  if pinching || Qle_bool (zoom r) 1 || isContinuousMode then r
  else mkReader (currentPageIndex r) (zoom r) (x, y).

End ComicReader.

(* ================================================================= *)
(** ** Sample inputs *)

(** The run of [n] times the digit [c]. *)
Fixpoint digit_run (c : ascii) (n : nat) : string :=
  match n with
  | O => EmptyString
  | S n' => String c (digit_run c n')
  end.

(** The code units U+00B2 (superscript two) and U+00AD (soft hyphen). *)
Definition superscript_two : string := String "178"%char EmptyString.
Definition soft_hyphen : string := String "173"%char EmptyString.

(** A [loadAsync] that reads every buffer as the given archive. *)
Definition loadAsync_as (files : ZipFiles) : ArrayBuffer -> Settled ZipFiles :=
  fun _ => Fulfilled files.

Definition downloadFile_empty : string -> Settled ArrayBuffer :=
  fun _ => Fulfilled [].

(** The archive 003.png, 001.jpg, cover.txt, 002.webp, every entry readable. *)
Definition archive_mixed : ZipFiles :=
  [("003.png", mkZipObject false (Fulfilled [Byte.x03]));
   ("001.jpg", mkZipObject false (Fulfilled [Byte.x01]));
   ("cover.txt", mkZipObject false (Fulfilled [Byte.x00]));
   ("002.webp", mkZipObject false (Fulfilled [Byte.x02]))].

(** Three pages whose names [naturalSort] orders in a circle when
    [localeCompare] puts the superscript two after "10" and before "9". *)
Definition archive_cycle : ZipFiles :=
  [("9.jpg", mkZipObject false (Fulfilled [Byte.x09]));
   ("10.jpg", mkZipObject false (Fulfilled [Byte.x10]));
   (superscript_two +:+ "0.jpg", mkZipObject false (Fulfilled [Byte.x20]))].

(** Three pages, the second of which cannot be read. *)
Definition archive_corrupt : ZipFiles :=
  [("001.jpg", mkZipObject false (Fulfilled [Byte.x01]));
   ("002.jpg", mkZipObject false (Rejected "Corrupted zip"));
   ("003.jpg", mkZipObject false (Fulfilled [Byte.x03]))].

(** Ten pages with the handles blob:0 .. blob:9. *)
Definition ten_pages : list Page :=
  map (fun i => mkPage ("comic-page-" +:+ ofNat i) [] ("blob:" +:+ ofNat i) (Z.of_nat i))
    (seq 0 10).

Definition ten_page_comic : Comic :=
  mkComic "comic" "Comic" "file" "series" ten_pages (Some 0) 10 None.

(** The default settings of the app, with a layout and a direction. *)
Definition settings_with (layout : PageLayout) (direction : ReadingDirection) : ReadingSettings :=
  mkSettings fit_width layout direction "#000000" true.

(** A library whose store holds the progress [{ currentPage: 7 }] for the
    comic "comic", saved when its archive had more pages. *)
Definition library_with_progress : Library :=
  mkLibrary ∅ None (saveComicProgress "comic" (mkProgress 7 1000) emptyStore) emptyHost.

Definition listed_comic : Comic :=
  mkComic "comic" "Comic" "file" "series" [] (Some 0) 0 None.

(* ================================================================= *)
(** ** Vocabulary of the statements *)

(** A run of [match_runs]: digits, or non-digits. *)
Definition is_run (p : string) : Prop :=
  test_digits p = true \/ (p <> EmptyString /\ nondigit_run p = true).

(** A part the loop of [naturalSort] can meet: a run, or the empty string of
    a missing part. *)
Definition is_part (p : string) : Prop :=
  test_digits p = true \/ nondigit_run p = true.

(** Two runs that [naturalSort] cannot tell apart: the same run, or two
    digit runs with the same value. *)
Definition same_run (p q : string) : Prop :=
  p = q \/ (test_digits p = true /\ test_digits q = true /\ parseInt p = parseInt q).

(** The parts that the loop of [naturalSort] meets on the name [a] are in
    [P]: its runs, and the empty string that stands for a missing run. *)
Definition parts_in (P : string -> Prop) (a : string) : Prop :=
  forall i, P (nth i (match_runs a) EmptyString).

(** [localeCompare] and [parseInt] on a set [P] of parts, as they are on
    the runs of ordinary file names: [localeCompare] is a strict total order
    on [P] that puts no run of non-digits between two runs of digits, and
    the digit runs of [P] are finite numbers. *)
Record OrderedParts (localeCompare : string -> string -> Z) (P : string -> Prop) : Prop := {
  op_refl : forall s, P s -> localeCompare s s = 0;
  op_eq : forall s t, P s -> P t -> localeCompare s t = 0 -> s = t;
  op_anti : forall s t, P s -> P t -> (localeCompare s t < 0 <-> 0 < localeCompare t s);
  op_trans : forall s t u, P s -> P t -> P u ->
    localeCompare s t < 0 -> localeCompare t u < 0 -> localeCompare s u < 0;
  op_convex : forall d1 n d2, P d1 -> P n -> P d2 ->
    test_digits d1 = true -> nondigit_run n = true -> test_digits d2 = true ->
    localeCompare d1 n < 0 -> localeCompare n d2 < 0 -> False;
  op_finite : forall d, P d -> test_digits d = true -> parseInt d <> Number.Infinity
}.

(** The loop of [naturalSort] passes over a position: the comparison of the
    two parts is 0. *)
Definition ties (localeCompare : string -> string -> Z) (p q : string) : Prop :=
  comparePart localeCompare p q = Number.Finite 0.

(** The parts of at most 15 code units: their digit runs are exact. *)
Definition short_part (x : string) : Prop := (String.length x <= 15)%nat.

(** The number that [Array.prototype.sort] works with when it compares two
    names with [naturalSort]. *)
Definition sortOrder (localeCompare : string -> string -> Z) (a b : string) : Z :=
  Number.sortCompare (naturalSort localeCompare a b).

(** [naturalSort] is a total preorder on the names [l]: of two names one
    does not come after the other, and not coming after is transitive. This
    is what makes the result of [Array.prototype.sort] an ordered list. *)
Definition total_preorder_on (localeCompare : string -> string -> Z) (l : list string) : Prop :=
  (forall a b, In a l -> In b l ->
     0 < sortOrder localeCompare a b -> sortOrder localeCompare b a <= 0) /\
  (forall a b c, In a l -> In b l -> In c l ->
     sortOrder localeCompare a b <= 0 -> sortOrder localeCompare b c <= 0 ->
     sortOrder localeCompare a c <= 0).


(** The name ends in one of the image extensions, in any case. *)
Definition has_image_extension (fileName : string) : Prop :=
  exists stem ext,
    fileName = stem +:+ ext /\ In (toLowerCase ext) imageExtensions.

(** [file.async("blob")] fulfils for the entry of that name. *)
Definition materializes (files : ZipFiles) (fileName : string) : bool :=
  match files_get files fileName with
  | Some (mkZipObject _ (Fulfilled _)) => true
  | _ => false
  end.

Definition entry_blob (files : ZipFiles) (fileName : string) : option Blob :=
  match files_get files fileName with
  | Some (mkZipObject _ (Fulfilled b)) => Some b
  | _ => None
  end.

(** The warnings of the entries that do not materialize. *)
Definition warnings (files : ZipFiles) (names : list string) : list LogEntry :=
  flat_map
    (fun fileName =>
       match files_get files fileName with
       | Some (mkZipObject _ (Fulfilled _)) => []
       | Some (mkZipObject _ (Rejected reason)) => [warn_extract fileName reason]
       | None => [warn_extract fileName "TypeError"]
       end)
    names.

(** What one run of the loop adds to the pages and to the host. *)
Definition loop_adds (files : ZipFiles) (comicId : string) (rest : list string)
    (i : nat) (h : Host) (new : list Page) (h' : Host) : Prop :=
  map page_index new =
    map Z.of_nat
      (List.filter (fun k => materializes files (nth (k - i) rest EmptyString))
         (seq i (length rest))) /\
  Forall (fun p => exists k,
            page_index p = Z.of_nat k /\
            page_id p = comicId +:+ "-page-" +:+ ofNat k /\
            entry_blob files (nth (k - i) rest EmptyString) = Some (page_blob p))
    new /\
  console h' = console h ++ warnings files rest /\
  objectURLs h' = objectURLs h ++ map page_blob new /\
  imageLoads h' = imageLoads h.

(** The invariant of a populated [Comic] in the data model. *)
Definition comic_invariant (c : Comic) : Prop :=
  totalPages c = Z.of_nat (length (pages c)) /\
  exists k, currentPage c = Some k /\ 0 <= k < totalPages c.

(** The window [[cursor, cursor + windowSize)] cut to the bounds of the list:
    the elements at the positions cursor, cursor + 1, ... that exist. *)
Definition window {A : Type} (l : list A) (cursor windowSize : nat) : list A :=
  flat_map (fun k => match nth_error l k with Some x => [x] | None => [] end)
    (seq cursor windowSize).

(* ================================================================= *)
(** ** More string primitives *)

(** [s.startsWith(prefix)] *)
Fixpoint startsWith (s prefix : string) : bool :=
  match prefix, s with
  | EmptyString, _ => true
  | String c prefix', String d s' => Ascii.eqb c d && startsWith s' prefix'
  | String _ _, EmptyString => false
  end.

(** [s.endsWith(suffix)] *)
Definition endsWith (s suffix : string) : bool :=
  (String.length suffix <=? String.length s)%nat &&
  String.eqb (drop (String.length s - String.length suffix) s) suffix.

(** [s.includes(sub)] *)
Fixpoint includes (s sub : string) : bool :=
  startsWith s sub ||
  match s with
  | EmptyString => false
  | String _ s' => includes s' sub
  end.

(* ================================================================= *)
(** ** comicService.ts: handles and progress *)

(** [cleanupPageUrls]: the calls of [URL.revokeObjectURL] it makes, in
    order. *)
Definition cleanupPageUrls (pages : list Page) : list string :=
  flat_map
    (fun page => if startsWith (page_url page) "blob:" then [page_url page] else [])
    pages.

Module ComicService.

(** [comicService.getComicProgress(comic)]: the percentage read; [None] is
    NaN, which the division gives for a [currentPage] that is [undefined]. *)
Definition getComicProgress (comic : Comic) : option Q :=
  if totalPages comic =? 0 then Some 0%Q
  else
    match currentPage comic with
    | Some k => Some (inject_Z k / inject_Z (totalPages comic) * 100)%Q
    | None => None
    end.

(** [comicService.updateComicProgress(comic, pageIndex)], [now] being the
    time value of [new Date()]. *)
Definition updateComicProgress (comic : Comic) (pageIndex : Z) (now : Z) : Comic :=
  mkComic (comic_id comic) (comic_name comic) (fileId comic) (seriesId comic)
    (pages comic) (Some pageIndex) (totalPages comic) (Some now).

End ComicService.

(* ================================================================= *)
(** ** storageService.ts: comics in the stored series *)

(** The [for] loop of [getComic] over the stored series. *)
Fixpoint getComic_in (series : list ComicSeries) (comicId : string) : option Comic :=
  match series with
  | [] => None
  | s :: series' =>
      match List.find (fun c => String.eqb (comic_id c) comicId) (comics s) with
      | Some comic => Some comic
      | None => getComic_in series' comicId
      end
  end.

Definition getComic (comicId : string) (st : Store) : option Comic :=
  getComic_in (getSeries st) comicId.

Section RemoveOldComics.

(** The date arithmetic of the host: the time value of the date [daysOld]
    days before the date of time value [now]
    ([cutoffDate.setDate(cutoffDate.getDate() - daysOld)]). *)
Variable daysBefore : Z -> Z -> Z.

(** [removeOldComics(daysOld = 30)], [now] being the time value of
    [new Date()]. *)
Definition removeOldComics (daysOld : option Z) (now : Z) (st : Store) : Store :=
  let daysOld := default 30 daysOld in
  let cutoffDate := daysBefore now daysOld in
  let series := getSeries st in
  let updatedSeries :=
    map (fun s =>
           mkSeries (series_id s) (series_name s) (folderId s)
             (List.filter
                (fun comic =>
                   match lastRead comic with
                   | None => true
                   | Some t => cutoffDate <? t
                   end)
                (comics s))
             (coverImage s))
      series in
  saveSeries updatedSeries st.

End RemoveOldComics.

(* ================================================================= *)
(** ** ComicReader.tsx: progress *)

(** The effect that saves the progress when the page changes, [now] being
    the time value of [new Date()]. *)
Definition saveProgress (comic : Comic) (now : Z) (r : Reader) (st : Store) : Store :=
  saveComicProgress (comic_id comic) (mkProgress (currentPageIndex r) now) st.

(** [const progress = ((currentPageIndex + 1) / comic.totalPages) * 100] *)
Definition readerProgress (comic : Comic) (r : Reader) : Q :=
  (inject_Z (currentPageIndex r + 1) / inject_Z (totalPages comic) * 100)%Q.

(* ================================================================= *)
(** ** Library.tsx: the search filter *)

Definition filteredSeries (series : list ComicSeries) (searchQuery : string)
    : list ComicSeries :=
  List.filter
    (fun s =>
       includes (toLowerCase (series_name s)) (toLowerCase searchQuery) ||
       existsb
         (fun c => includes (toLowerCase (comic_name c)) (toLowerCase searchQuery))
         (comics s))
    series.

(* ================================================================= *)
(** ** Vocabulary of the further statements *)

(** The cursor points at a page of the comic. *)
Definition cursor_in_range (comic : Comic) (r : Reader) : Prop :=
  0 <= currentPageIndex r < totalPages comic.

(** The settings with another reading direction. *)
Definition with_direction (s : ReadingSettings) (d : ReadingDirection) : ReadingSettings :=
  mkSettings (fitMode s) (pageLayout s) d (backgroundColor s) (showProgress s).

(** A comic that [removeOldComics] keeps. *)
Definition recently_read (cutoffDate : Z) (comic : Comic) : Prop :=
  match lastRead comic with
  | None => True
  | Some t => cutoffDate < t
  end.

(** Consecutive runs are of different kinds. *)
Fixpoint alternating (parts : list string) : Prop :=
  match parts with
  | p :: ((q :: _) as rest) => test_digits p <> test_digits q /\ alternating rest
  | _ => True
  end.

Fixpoint concat_runs (parts : list string) : string :=
  match parts with
  | [] => EmptyString
  | p :: rest => p +:+ concat_runs rest
  end.

(** The comics of a series after [saveComic]: the comic replaces the first
    one with its id, or comes last. *)
Definition upsert (comic : Comic) (l : list Comic) : list Comic :=
  match findIndex (fun c => String.eqb (comic_id c) (comic_id comic)) l with
  | Some comicIndex => <[comicIndex := comic]> l
  | None => l ++ [comic]
  end.

(* ================================================================= *)
(** ** ComicReader.tsx: the scroll observer of continuous mode *)

(** The [for] loop of [handleScroll] from index [i] on: the first mounted
    image whose box contains the centre of the viewport. An image is given
    by the top and the height of its bounding rectangle, [None] being a
    ref that is not mounted. *)
Fixpoint centeredImage (imageRefs : list (option (Q * Q))) (scrollTop centerY : Q)
    (i : nat) : option nat :=
  match imageRefs with
  | [] => None
  | None :: rest => centeredImage rest scrollTop centerY (S i)
  | Some (top, height) :: rest =>
      let imgTop := (top + scrollTop)%Q in
      let imgBottom := (imgTop + height)%Q in
      if Qle_bool imgTop centerY && Qle_bool centerY imgBottom then Some i
      else centeredImage rest scrollTop centerY (S i)
  end.

(** [handleScroll]; the listener is installed in continuous mode only. *)
Definition handleScroll (s : ReadingSettings) (imageRefs : list (option (Q * Q)))
    (scrollTop containerHeight : Q) (r : Reader) : Reader :=
  if isContinuousMode s then
    let centerY := (scrollTop + containerHeight / 2)%Q in
    match centeredImage imageRefs scrollTop centerY 0 with
    | Some i =>
        if Z.of_nat i =? currentPageIndex r then r
        else setCurrentPageIndex (Z.of_nat i) r
    | None => r
    end
  else r.

(* ================================================================= *)
(** ** ComicReader.tsx: the session *)

(** The zoom-setting operations of the reader, run by the handlers of the
    current render: the zoom buttons, a pinch, a ctrl+wheel. *)
Inductive ZoomOp : Type :=
| OpZoomIn
| OpZoomOut
| OpPinch (scale : Q)
| OpCtrlWheel (dy : Q).

Definition applyZoom (s : ReadingSettings) (op : ZoomOp) (r : Reader) : Reader :=
  match op with
  | OpZoomIn => zoomIn s (zoom r) r
  | OpZoomOut => zoomOut s (zoom r) r
  | OpPinch scale => onPinch s scale r
  | OpCtrlWheel dy => onWheel s dy true r
  end.

(** The component between two events: the state of the reader, the
    [readingSettings] prop, the fullscreen flag of the component and the one
    of the document, and the [zoom] that the registered keydown listener
    has seen. *)
Record Session : Type := mkSession {
  reader : Reader;
  settings : ReadingSettings;
  isFullscreen : bool;
  fullscreenElement : bool;
  keydownZoom : Q
}.

Definition with_reader (r : Reader) (x : Session) : Session :=
  mkSession r (settings x) (isFullscreen x) (fullscreenElement x) (keydownZoom x).

(** The component as it is mounted; the keydown effect has run once. *)
Definition initSession (comic : Comic) (s : ReadingSettings) : option Session :=
  match initReader comic with
  | Some r => Some (mkSession r s false false (zoom r))
  | None => None
  end.

Definition toggleFullscreen (x : Session) : Session :=
  if negb (fullscreenElement x)
  then mkSession (reader x) (settings x) true true (keydownZoom x)
  else mkSession (reader x) (settings x) false false (keydownZoom x).

(** What happens to the component. The keys + and = run the [zoomIn], the
    key - the [zoomOut], of the render that registered the keydown
    listener; the arrow keys run [previousPage] and [nextPage], which that
    listener always has from the current render, since they are among the
    dependencies of its effect. *)
Inductive ReaderEvent : Type :=
| EvZoom (op : ZoomOp)
| EvWheel (dy : Q) (ctrlKey : bool)
| EvDrag (x y : Q) (pinching : bool)
| EvNextPage
| EvPreviousPage
| EvResetView
| EvScroll (imageRefs : list (option (Q * Q))) (scrollTop containerHeight : Q)
| EvKeyZoomIn
| EvKeyZoomOut
| EvToggleFullscreen
| EvFullscreenElement (present : bool)
| EvSettings (s : ReadingSettings).

(** The state after the handler of an event. *)
Definition react (comic : Comic) (e : ReaderEvent) (x : Session) : Session :=
  let s := settings x in
  let r := reader x in
  match e with
  | EvZoom op => with_reader (applyZoom s op r) x
  | EvWheel dy ctrlKey => with_reader (onWheel s dy ctrlKey r) x
  | EvDrag dx dy pinching => with_reader (onDrag s dx dy pinching r) x
  | EvNextPage => with_reader (nextPage comic s r) x
  | EvPreviousPage => with_reader (previousPage comic s r) x
  | EvResetView => with_reader (resetView r) x
  | EvScroll imageRefs scrollTop containerHeight =>
      with_reader (handleScroll s imageRefs scrollTop containerHeight r) x
  | EvKeyZoomIn => with_reader (zoomIn s (keydownZoom x) r) x
  | EvKeyZoomOut => with_reader (zoomOut s (keydownZoom x) r) x
  | EvToggleFullscreen => toggleFullscreen x
  | EvFullscreenElement present =>
      mkSession r s (isFullscreen x) present (keydownZoom x)
  | EvSettings s' => mkSession r s' (isFullscreen x) (fullscreenElement x) (keydownZoom x)
  end.

(** The keydown effect has the dependencies [currentPageIndex],
    [isFullscreen], [onBack], [previousPage], [nextPage]: it registers the
    listener of the new render when the cursor or the fullscreen flag has
    changed, and when the parent has rendered again (new settings, hence a
    new [onBack]). A change of [zoom] or [position] alone does not. *)
Definition keydown_effect_runs (e : ReaderEvent) (x x' : Session) : bool :=
  negb (currentPageIndex (reader x') =? currentPageIndex (reader x)) ||
  negb (Bool.eqb (isFullscreen x') (isFullscreen x)) ||
  match e with EvSettings _ => true | _ => false end.

(** An event, the render that follows it, and the effects of that render. *)
Definition step (comic : Comic) (e : ReaderEvent) (x : Session) : Session :=
  let x' := react comic e x in
  if keydown_effect_runs e x x'
  then mkSession (reader x') (settings x') (isFullscreen x') (fullscreenElement x')
         (zoom (reader x'))
  else x'.

Fixpoint run (comic : Comic) (events : list ReaderEvent) (x : Session) : Session :=
  match events with
  | [] => x
  | e :: events' => run comic events' (step comic e x)
  end.

Definition zoom_in_range (z : Q) : Prop := ((1 # 2) <= z /\ z <= 5)%Q.

(** There is no pan offset unless the page is magnified. *)
Definition centered_unless_magnified (r : Reader) : Prop :=
  (zoom r <= 1)%Q -> position r = (0%Q, 0%Q).

Definition is_key_zoomIn (e : ReaderEvent) : bool :=
  match e with EvKeyZoomIn => true | _ => false end.

(** A sample store: one series, holding the listed comic. *)
Definition library_store : Store :=
  saveSeries [mkSeries "series" "Series" "series" [listed_comic] None] emptyStore.

(** The text of [a] contains the query, whatever the case of either. *)
Definition contains_ci (a query : string) : Prop :=
  exists pre post, toLowerCase a = pre +:+ toLowerCase query +:+ post.

(* ================================================================= *)
(** ** googleDriveService.ts and Library.tsx: loading the library *)

(** The fields of a [GoogleDriveFile] that the library reads. *)
Record GoogleDriveFile : Type := mkFile {
  file_id : string;
  file_name : string;
  mimeType : string
}.

Definition folderMimeType : string := "application/vnd.google-apps.folder".

Definition isFolder (file : GoogleDriveFile) : bool :=
  String.eqb (mimeType file) folderMimeType.

(** The state of the [Library] component that [loadLibrary] sets, around the
    store and the console. *)
Record LibraryView : Type := mkView {
  lib_series : list ComicSeries;
  loading : bool;
  library : Library
}.

(** [name.replace(/\.(cbr|cbz)$/i, "")] *)
Definition stripComicExtension (name : string) : string :=
  let n := String.length name in
  let ext := toLowerCase (drop (n - 4) name) in
  if (4 <=? n)%nat && (String.eqb ext ".cbr" || String.eqb ext ".cbz")
  then take (n - 4) name
  else name.

(** The filter for CBR/CBZ files. *)
Definition isComicFile (file : GoogleDriveFile) : bool :=
  endsWith (toLowerCase (file_name file)) ".cbr" ||
  endsWith (toLowerCase (file_name file)) ".cbz".

(** The [Comic] made for a file of a series folder. *)
Definition listedComic (folder file : GoogleDriveFile) : Comic :=
  mkComic (file_id file) (stripComicExtension (file_name file)) (file_id file)
    (file_id folder) [] (Some 0) 0 None.

Definition loadLibrary_error : string :=
  "Failed to load library. Please check your permissions and try again.".

Section LoadLibrary.

(** [driveService.getAllFilesInFolder(folderId)], all pages of the listing. *)
Variable getAllFilesInFolder : string -> Settled (list GoogleDriveFile).
Variable localeCompare : string -> string -> Z.
(** [a.localeCompare(b, undefined, { numeric: true })] *)
Variable localeCompareNumeric : string -> string -> Z.

Definition getFolderStructure (folderId : string)
    : Settled (list GoogleDriveFile * list GoogleDriveFile) :=
  await (getAllFilesInFolder folderId) (fun allFiles =>
    Fulfilled (List.filter isFolder allFiles,
               List.filter (fun file => negb (isFolder file)) allFiles)).

(** The [for] loop of [loadLibrary] over the series folders. *)
Fixpoint loadLibrary_loop (seriesFolders : list GoogleDriveFile)
    (newSeries : list ComicSeries) (h : Host) : list ComicSeries * Host :=
  match seriesFolders with
  | [] => (newSeries, h)
  | folder :: rest =>
      match getFolderStructure (file_id folder) with
      | Fulfilled (_, comicFiles) =>
          let cbrFiles := List.filter isComicFile comicFiles in
          if (0 <? length cbrFiles)%nat then
            let comics :=
              JsArray.sort
                (fun a b => localeCompareNumeric (comic_name a) (comic_name b))
                (map (listedComic folder) cbrFiles) in
            loadLibrary_loop rest
              (newSeries ++
               [mkSeries (file_id folder) (file_name folder) (file_id folder) comics None])
              h
          else loadLibrary_loop rest newSeries h
      | Rejected err =>
          loadLibrary_loop rest newSeries
            (log (console_warn ("Failed to load series " +:+ file_name folder +:+ ":") err) h)
      end
  end.

Definition loadLibrary (selectedFolder : string) (v : LibraryView) : LibraryView :=
  let lib := library v in
  let cachedSeries := getSeries (store lib) in
  let shown := if (0 <? length cachedSeries)%nat then cachedSeries else lib_series v in
  match getFolderStructure selectedFolder with
  | Fulfilled (seriesFolders, _) =>
      let '(newSeries, h) := loadLibrary_loop seriesFolders [] (host lib) in
      let newSeries :=
        JsArray.sort (fun a b => localeCompare (series_name a) (series_name b)) newSeries in
      mkView newSeries false
        (mkLibrary (downloadingComics lib) None (saveSeries newSeries (store lib)) h)
  | Rejected err =>
      mkView shown false
        (mkLibrary (downloadingComics lib) (Some loadLibrary_error) (store lib)
           (log (console_error "Failed to load library:" err) (host lib)))
  end.

End LoadLibrary.

(** A comic as the library lists it, before it is opened: made for a
    CBR/CBZ file of the folder of its series, without pages. *)
Definition listed_from (folder : GoogleDriveFile) (files : list GoogleDriveFile)
    (c : Comic) : Prop :=
  pages c = [] /\ currentPage c = Some 0 /\ totalPages c = 0 /\ lastRead c = None /\
  seriesId c = file_id folder /\ fileId c = comic_id c /\
  exists file ext,
    In file files /\ isFolder file = false /\
    comic_id c = file_id file /\
    file_name file = comic_name c +:+ ext /\
    In (toLowerCase ext) [".cbr"; ".cbz"].

(** A series as [loadLibrary] builds it from a folder of the root listing. *)
Definition series_from (getAllFilesInFolder : string -> Settled (list GoogleDriveFile))
    (root : list GoogleDriveFile) (s : ComicSeries) : Prop :=
  comics s <> [] /\
  exists folder files,
    In folder root /\ isFolder folder = true /\
    getAllFilesInFolder (file_id folder) = Fulfilled files /\
    series_id s = file_id folder /\ series_name s = file_name folder /\
    folderId s = file_id folder /\
    Forall (listed_from folder files) (comics s).

(** A drive with one series folder holding two comics and a text file. *)
Definition sample_drive (folderId : string) : Settled (list GoogleDriveFile) :=
  if String.eqb folderId "root" then
    Fulfilled [mkFile "f1" "Saga" folderMimeType; mkFile "x" "notes.txt" "text/plain"]
  else if String.eqb folderId "f1" then
    Fulfilled [mkFile "c2" "Saga 10.CBZ" "application/zip";
               mkFile "c1" "Saga 2.cbr" "application/x-rar";
               mkFile "t" "readme.txt" "text/plain"]
  else Rejected "Not Found".

(* ================================================================= *)
(** ** App.tsx: the screens *)

Inductive AppState : Type :=
| st_login | st_folder_picker | st_library | st_reader | st_settings.

(** The state of the [App] component. *)
Record App : Type := mkApp {
  currentState : AppState;
  accessToken : option string;
  selectedFolder : option string;
  folderName : string;
  currentComic : option Comic;
  readingSettings : ReadingSettings
}.

Definition defaultReadingSettings : ReadingSettings :=
  mkSettings fit_width single ltr "#000000" true.

Definition initApp : App :=
  mkApp st_login None None EmptyString None defaultReadingSettings.

(** [if (x)] for a string or [null]: the empty string counts as absent. *)
Definition truthy (x : option string) : bool :=
  match x with
  | Some (String _ _) => true
  | _ => false
  end.

(** The end of [loadSavedData], after its three reads of the store have
    given [savedToken], [savedFolder] and [savedSettings]. *)
Definition loadSavedData (savedToken savedFolder : option string)
    (savedSettings : ReadingSettings) (a : App) : App :=
  let a :=
    if truthy savedToken then
      if truthy savedFolder
      then mkApp st_library savedToken savedFolder (folderName a) (currentComic a)
             (readingSettings a)
      else mkApp st_folder_picker savedToken (selectedFolder a) (folderName a)
             (currentComic a) (readingSettings a)
    else a in
  mkApp (currentState a) (accessToken a) (selectedFolder a) (folderName a)
    (currentComic a) savedSettings.

(** [handleLoginSuccess] up to its [await], and after it. *)
Definition handleLoginSuccess_start (token : string) (a : App) : App :=
  mkApp (currentState a) (Some token) (selectedFolder a) (folderName a) (currentComic a)
    (readingSettings a).

Definition handleLoginSuccess_end (a : App) : App :=
  mkApp st_folder_picker (accessToken a) (selectedFolder a) (folderName a) (currentComic a)
    (readingSettings a).

(** [handleFolderSelected] up to its [await], and after it. *)
Definition handleFolderSelected_start (folderId name : string) (a : App) : App :=
  mkApp (currentState a) (accessToken a) (Some folderId) name (currentComic a)
    (readingSettings a).

Definition handleFolderSelected_end (a : App) : App :=
  mkApp st_library (accessToken a) (selectedFolder a) (folderName a) (currentComic a)
    (readingSettings a).

Definition handleOpenComic (comic : Comic) (a : App) : App :=
  mkApp st_reader (accessToken a) (selectedFolder a) (folderName a) (Some comic)
    (readingSettings a).

Definition handleCloseComic (a : App) : App :=
  mkApp st_library (accessToken a) (selectedFolder a) (folderName a) None
    (readingSettings a).

(** [handleSettingsChange] up to its [await]; nothing follows it. *)
Definition handleSettingsChange (newSettings : ReadingSettings) (a : App) : App :=
  mkApp (currentState a) (accessToken a) (selectedFolder a) (folderName a)
    (currentComic a) newSettings.

(** [handleLogout] after its [await]; nothing precedes it. *)
Definition handleLogout_end (a : App) : App :=
  mkApp st_login None None EmptyString None (readingSettings a).

Definition handleOpenSettings (a : App) : App :=
  mkApp st_settings (accessToken a) (selectedFolder a) (folderName a) (currentComic a)
    (readingSettings a).

Definition handleBackFromSettings (a : App) : App :=
  mkApp (match currentComic a with Some _ => st_reader | None => st_library end)
    (accessToken a) (selectedFolder a) (folderName a) (currentComic a)
    (readingSettings a).

(** What changes the state of the app. The handlers are asynchronous: the
    parts of a handler that an [await] separates are events of their own,
    between which any other event can take place; the state updates of one
    part take effect together, in one render (React 18 batches them, also
    after an [await]). The values that [loadSavedData] has read come with
    its event. The store is not part of this state: what the handlers and
    the settings screen ([clearCache]) write to it changes no state of the
    component. *)
Inductive AppEvent : Type :=
| AppLoadedSavedData (savedToken savedFolder : option string) (savedSettings : ReadingSettings)
| AppLoginSuccess_start (token : string)
| AppLoginSuccess_end
| AppFolderSelected_start (folderId name : string)
| AppFolderSelected_end
| AppOpenComic (comic : Comic)
| AppCloseComic
| AppSettingsChange (newSettings : ReadingSettings)
| AppLogout_end
| AppOpenSettings
| AppBackFromSettings.

Definition app_step (e : AppEvent) (a : App) : App :=
  match e with
  | AppLoadedSavedData savedToken savedFolder savedSettings =>
      loadSavedData savedToken savedFolder savedSettings a
  | AppLoginSuccess_start token => handleLoginSuccess_start token a
  | AppLoginSuccess_end => handleLoginSuccess_end a
  | AppFolderSelected_start folderId name => handleFolderSelected_start folderId name a
  | AppFolderSelected_end => handleFolderSelected_end a
  | AppOpenComic comic => handleOpenComic comic a
  | AppCloseComic => handleCloseComic a
  | AppSettingsChange newSettings => handleSettingsChange newSettings a
  | AppLogout_end => handleLogout_end a
  | AppOpenSettings => handleOpenSettings a
  | AppBackFromSettings => handleBackFromSettings a
  end.

Fixpoint app_run (events : list AppEvent) (a : App) : App :=
  match events with
  | [] => a
  | e :: events' => app_run events' (app_step e a)
  end.

(* ================================================================= *)
(* ================================================================= *)
(** * Properties *)

(** ** Numbers *)

Section NumberFacts.

Lemma ofZ_small n : Z.abs n < 2 ^ 53 -> Number.ofZ n = Number.Finite n.
Proof.
  intros H. unfold Number.ofZ.
  destruct (Z.ltb_spec (Z.abs n) (2 ^ 53)) as [_ | Hge]; [|lia].
  destruct (Z.leb_spec (2 ^ 1024) (Z.abs n)) as [Hbig | _]; [lia|].
  f_equal. lia.
Qed.

(** The double nearest to an integer has the sign of the integer, and it is
    never NaN. *)
Lemma ofZ_sign n :
  (Number.sortCompare (Number.ofZ n) < 0 <-> n < 0) /\
  (Number.sortCompare (Number.ofZ n) = 0 <-> n = 0) /\
  (Number.ofZ n = Number.Finite 0 <-> n = 0) /\
  Number.ofZ n <> Number.NaN.
Proof.
  destruct (Z_lt_le_dec (Z.abs n) (2 ^ 53)) as [Hsmall | Hbig].
  - rewrite (ofZ_small n Hsmall). cbn [Number.sortCompare].
    repeat split; try lia; try congruence; try discriminate.
  - unfold Number.ofZ.
    destruct (Z.ltb_spec (Z.abs n) (2 ^ 53)) as [Hlt | _]; [lia|].
    set (a := Z.abs n) in *.
    set (ulp := 2 ^ (Z.log2 a - 52)).
    assert (Ha : 0 < a) by lia.
    assert (He : 53 <= Z.log2 a) by (apply Z.log2_le_pow2; lia).
    assert (Hulp : 0 < ulp) by (apply Z.pow_pos_nonneg; lia).
    assert (Hle : ulp <= a).
    { transitivity (2 ^ Z.log2 a); [apply Z.pow_le_mono_r; lia|].
      apply Z.log2_spec. exact Ha. }
    assert (Hq : 1 <= a / ulp) by (apply Z.div_le_lower_bound; lia).
    set (m := if (ulp <? 2 * (a mod ulp)) || ((2 * (a mod ulp) =? ulp) && Z.odd (a / ulp))
              then (a / ulp + 1) * ulp else a / ulp * ulp).
    assert (Hm : 0 < m) by (unfold m; destruct (_ || _); nia).
    destruct (Z.leb_spec (2 ^ 1024) m) as [_ | _].
    + destruct (Z.ltb_spec n 0); cbn [Number.sortCompare];
        repeat split; try lia; try discriminate.
    + cbn [Number.sortCompare].
      assert (Hs : Z.sgn n * m < 0 <-> n < 0) by nia.
      assert (Hz : Z.sgn n * m = 0 <-> n = 0) by nia.
      repeat split; try tauto; try discriminate.
      all: intros E; first [injection E as E; tauto | lia].
Qed.

Lemma isZero_spec v : Number.isZero v = true <-> v = Number.Finite 0.
Proof.
  destruct v as [[| |] | | |]; simpl; split; congruence.
Qed.

Lemma sortCompare_zero v :
  v <> Number.NaN -> (Number.sortCompare v = 0 <-> v = Number.Finite 0).
Proof.
  destruct v as [z | | |]; simpl; intros H; split; try congruence; try lia.
Qed.

End NumberFacts.
(** ** Strings *)

Section StringFacts.

Lemma isDigit_range c :
  isDigit c = true <-> (48 <= nat_of_ascii c <= 57)%nat.
Proof.
  unfold isDigit. rewrite andb_true_iff, !Nat.leb_le. tauto.
Qed.

Lemma test_digits_cons s :
  test_digits s = true -> exists c s', s = String c s' /\ isDigit c = true.
Proof.
  destruct s as [|c s']; simpl; [discriminate|].
  intros H. apply andb_true_iff in H as [H _]. eauto.
Qed.

Lemma digits_not_nondigit s :
  test_digits s = true -> nondigit_run s = true -> False.
Proof.
  intros H1 H2. destruct (test_digits_cons _ H1) as (c & s' & -> & Hc).
  unfold nondigit_run in H2. simpl in H2. rewrite Hc in H2. discriminate.
Qed.

Lemma digitValue_range c : isDigit c = true -> 0 <= digitValue c <= 9.
Proof. intros H. apply isDigit_range in H. unfold digitValue. lia. Qed.

(** The digits read so far count for 10 to the number of digits left. *)
Lemma mathInt_from_acc s : forall acc,
  mathInt_from acc s = acc * 10 ^ Z.of_nat (String.length s) + mathInt_from 0 s.
Proof.
  induction s as [|c s IH]; intros acc; cbn [mathInt_from String.length].
  - simpl. lia.
  - rewrite (IH (10 * acc + digitValue c)), (IH (10 * 0 + digitValue c)).
    rewrite Nat2Z.inj_succ, Z.pow_succ_r by lia. ring.
Qed.

Lemma mathInt_bounds s :
  allb isDigit s = true -> 0 <= mathInt s < 10 ^ Z.of_nat (String.length s).
Proof.
  unfold mathInt. induction s as [|c s IH]; cbn [allb mathInt_from String.length].
  - intros _. simpl. lia.
  - intros H. apply andb_true_iff in H as [Hc Hs].
    specialize (IH Hs). apply digitValue_range in Hc.
    rewrite mathInt_from_acc, Nat2Z.inj_succ, Z.pow_succ_r by lia.
    assert (0 < 10 ^ Z.of_nat (String.length s)) by (apply Z.pow_pos_nonneg; lia).
    nia.
Qed.

Lemma test_digits_allb s : test_digits s = true -> allb isDigit s = true.
Proof. destruct s; [discriminate | trivial]. Qed.

(** A digit run is a finite number or [Infinity]; with at most 15 digits it
    is the integer it denotes. *)
Lemma parseInt_cases s :
  test_digits s = true ->
  parseInt s = Number.Infinity \/ exists z, parseInt s = Number.Finite z.
Proof.
  intros H. apply test_digits_allb, mathInt_bounds in H.
  unfold parseInt, Number.ofZ.
  destruct (2 ^ 1024 <=? _); [|eauto].
  destruct (Z.ltb_spec (mathInt s) 0); [lia | now left].
Qed.

Lemma parseInt_exact s :
  test_digits s = true -> (String.length s <= 15)%nat ->
  parseInt s = Number.Finite (mathInt s).
Proof.
  intros H Hlen. apply test_digits_allb, mathInt_bounds in H.
  apply ofZ_small.
  assert (10 ^ Z.of_nat (String.length s) <= 10 ^ 15)
    by (apply Z.pow_le_mono_r; lia).
  lia.
Qed.

Lemma nat_of_ascii_inj c d : nat_of_ascii c = nat_of_ascii d -> c = d.
Proof.
  intros H. rewrite <- (ascii_nat_embedding c), <- (ascii_nat_embedding d).
  now rewrite H.
Qed.

Lemma codeUnitCompare_refl s : codeUnitCompare s s = 0.
Proof.
  induction s as [|c s IH]; simpl; [reflexivity|].
  rewrite Z.ltb_irrefl. exact IH.
Qed.

Lemma codeUnitCompare_eq s : forall t, codeUnitCompare s t = 0 -> s = t.
Proof.
  induction s as [|c s IH]; intros [|d t]; simpl; try discriminate; [reflexivity|].
  destruct (Z.ltb_spec (Z.of_nat (nat_of_ascii c)) (Z.of_nat (nat_of_ascii d))); [discriminate|].
  destruct (Z.ltb_spec (Z.of_nat (nat_of_ascii d)) (Z.of_nat (nat_of_ascii c))); [discriminate|].
  intros H1. f_equal; [apply nat_of_ascii_inj; lia | now apply IH].
Qed.

Lemma codeUnitCompare_anti s : forall t, codeUnitCompare s t < 0 <-> 0 < codeUnitCompare t s.
Proof.
  induction s as [|c s IH]; intros [|d t]; simpl; try lia.
  destruct (Z.ltb_spec (Z.of_nat (nat_of_ascii c)) (Z.of_nat (nat_of_ascii d)));
    destruct (Z.ltb_spec (Z.of_nat (nat_of_ascii d)) (Z.of_nat (nat_of_ascii c)));
    try lia.
  apply IH.
Qed.

Lemma codeUnitCompare_trans s :
  forall t u, codeUnitCompare s t < 0 -> codeUnitCompare t u < 0 -> codeUnitCompare s u < 0.
Proof.
  induction s as [|c s IH]; intros [|d t] [|e u]; simpl; try lia.
  destruct (Z.ltb_spec (Z.of_nat (nat_of_ascii c)) (Z.of_nat (nat_of_ascii d)));
    destruct (Z.ltb_spec (Z.of_nat (nat_of_ascii d)) (Z.of_nat (nat_of_ascii c)));
    destruct (Z.ltb_spec (Z.of_nat (nat_of_ascii d)) (Z.of_nat (nat_of_ascii e)));
    destruct (Z.ltb_spec (Z.of_nat (nat_of_ascii e)) (Z.of_nat (nat_of_ascii d)));
    destruct (Z.ltb_spec (Z.of_nat (nat_of_ascii c)) (Z.of_nat (nat_of_ascii e)));
    destruct (Z.ltb_spec (Z.of_nat (nat_of_ascii e)) (Z.of_nat (nat_of_ascii c)));
    try lia.
  apply IH.
Qed.

Lemma codeUnitCompare_convex d1 n d2 :
  test_digits d1 = true -> nondigit_run n = true -> test_digits d2 = true ->
  codeUnitCompare d1 n < 0 -> codeUnitCompare n d2 < 0 -> False.
Proof.
  intros H1 Hn H2.
  destruct (test_digits_cons _ H1) as (c1 & s1 & -> & Hc1).
  destruct (test_digits_cons _ H2) as (c2 & s2 & -> & Hc2).
  apply isDigit_range in Hc1, Hc2.
  destruct n as [|c n]; simpl; [lia|].
  unfold nondigit_run in Hn. simpl in Hn. apply andb_true_iff in Hn as [Hc _].
  apply negb_true_iff in Hc.
  assert (Hr : ~ (48 <= nat_of_ascii c <= 57)%nat).
  { intros Hr. apply isDigit_range in Hr. congruence. }
  destruct (Z.ltb_spec (Z.of_nat (nat_of_ascii c1)) (Z.of_nat (nat_of_ascii c)));
    destruct (Z.ltb_spec (Z.of_nat (nat_of_ascii c)) (Z.of_nat (nat_of_ascii c1)));
    destruct (Z.ltb_spec (Z.of_nat (nat_of_ascii c)) (Z.of_nat (nat_of_ascii c2)));
    destruct (Z.ltb_spec (Z.of_nat (nat_of_ascii c2)) (Z.of_nat (nat_of_ascii c)));
    try lia.
Qed.

(** The binary order on code units orders every set of parts whose digit
    runs are finite numbers. *)
Lemma codeUnit_ordered (P : string -> Prop) :
  (forall d, P d -> test_digits d = true -> parseInt d <> Number.Infinity) ->
  OrderedParts codeUnitCompare P.
Proof.
  intros Hfinite. constructor.
  - intros s _. apply codeUnitCompare_refl.
  - intros s t _ _. apply codeUnitCompare_eq.
  - intros s t _ _. apply codeUnitCompare_anti.
  - intros s t u _ _ _. apply codeUnitCompare_trans.
  - intros d1 n d2 _ _ _. apply codeUnitCompare_convex.
  - exact Hfinite.
Qed.

End StringFacts.

(** ** The runs of a name *)

Section Runs.

Lemma allb_cons_digit c d p :
  isDigit c = isDigit d -> is_run (String d p) -> is_run (String c (String d p)).
Proof.
  intros Hcd [H | [_ H]].
  - left. simpl in *. apply andb_true_iff in H as [Hd Hp].
    rewrite Hcd, Hd. exact Hp.
  - right. split; [discriminate|]. unfold nondigit_run in *. simpl in *.
    apply andb_true_iff in H as [Hd Hp]. rewrite Hcd, Hd. exact Hp.
Qed.

Lemma is_run_single c : is_run (String c EmptyString).
Proof.
  destruct (isDigit c) eqn:Hc.
  - left. simpl. now rewrite Hc.
  - right. split; [discriminate|]. unfold nondigit_run. simpl. now rewrite Hc.
Qed.

Lemma match_runs_parts s : Forall is_run (match_runs s).
Proof.
  induction s as [|c s IH]; simpl; [constructor|].
  destruct (match_runs s) as [|[|d p] ps].
  - constructor; [apply is_run_single | constructor].
  - constructor; [apply is_run_single | constructor].
  - inversion IH as [|? ? Hd Hps]; subst.
    destruct (Bool.eqb (isDigit c) (isDigit d)) eqn:E.
    + apply Bool.eqb_prop in E. constructor; [|exact Hps].
      now apply allb_cons_digit.
    + constructor; [apply is_run_single|]. now constructor.
Qed.

Lemma span_ext p q s : (forall c, p c = q c) -> span p s = span q s.
Proof.
  intros H. induction s as [|c s IH]; simpl; [reflexivity|].
  rewrite H, IH. reflexivity.
Qed.

(** [match_runs] is the greedy scan of the regular expression: the first
    match is the longest run of characters of the class of the first one,
    and the scan resumes after it. *)
Lemma match_runs_span c s :
  match_runs (String c s) =
    let '(r, t) := span (fun x => Bool.eqb (isDigit x) (isDigit c)) (String c s) in
    r :: match_runs t.
Proof.
  revert c. induction s as [|d s IH]; intros c.
  - simpl. rewrite Bool.eqb_reflx. reflexivity.
  - change (match_runs (String c (String d s)))
      with (match match_runs (String d s) with
            | String d' p :: ps =>
                if Bool.eqb (isDigit c) (isDigit d')
                then String c (String d' p) :: ps
                else String c EmptyString :: String d' p :: ps
            | _ => [String c EmptyString]
            end).
    rewrite (IH d).
    cbn [span]. rewrite !Bool.eqb_reflx.
    destruct (span (fun x => Bool.eqb (isDigit x) (isDigit d)) s) as [r t] eqn:Hs.
    destruct (Bool.eqb (isDigit c) (isDigit d)) eqn:E.
    + apply Bool.eqb_prop in E.
      assert (Hdc : Bool.eqb (isDigit d) (isDigit c) = true)
        by (rewrite E; apply Bool.eqb_reflx).
      rewrite Hdc.
      rewrite (span_ext (fun x => Bool.eqb (isDigit x) (isDigit c))
                        (fun x => Bool.eqb (isDigit x) (isDigit d))), Hs
        by (intros x; now rewrite E).
      reflexivity.
    + assert (Hdc : Bool.eqb (isDigit d) (isDigit c) = false).
      { destruct (isDigit d), (isDigit c); simpl in *; congruence. }
      rewrite Hdc.
      f_equal. symmetry. rewrite (IH d). cbn [span]. rewrite Bool.eqb_reflx, Hs.
      reflexivity.
Qed.

Lemma nth_runs_part s i : is_part (nth i (match_runs s) EmptyString).
Proof.
  destruct (Nat.lt_ge_cases i (length (match_runs s))) as [Hi | Hi].
  - pose proof (match_runs_parts s) as H.
    rewrite Forall_forall in H.
    destruct (H (nth i (match_runs s) EmptyString)) as [Hd | [_ Hn]].
    + apply list_elem_of_In. now apply nth_In.
    + now left.
    + now right.
  - rewrite nth_overflow by exact Hi. now right.
Qed.

Lemma nth_runs_nonempty s i :
  (i < length (match_runs s))%nat -> nth i (match_runs s) EmptyString <> EmptyString.
Proof.
  intros Hi. pose proof (match_runs_parts s) as H.
  rewrite Forall_forall in H.
  destruct (H (nth i (match_runs s) EmptyString)) as [Hd | [Hne _]].
  - apply list_elem_of_In. now apply nth_In.
  - intros E. rewrite E in Hd. discriminate.
  - exact Hne.
Qed.

End Runs.

(** ** The comparison of two parts *)

Section PartOrder.

Variable localeCompare : string -> string -> Z.

Local Abbreviation cp := (comparePart localeCompare).
Local Abbreviation cz x y := (Number.sortCompare (comparePart localeCompare x y)).
Local Abbreviation num x := (Number.sortCompare (parseInt x)).

Lemma cp_digits x y :
  test_digits x = true -> test_digits y = true ->
  cp x y = Number.sub (parseInt x) (parseInt y).
Proof. intros Hx Hy. unfold comparePart. now rewrite Hx, Hy. Qed.

Lemma cp_other x y :
  test_digits x && test_digits y = false -> cp x y = Number.Finite (localeCompare x y).
Proof. intros H. unfold comparePart. now rewrite H. Qed.

Lemma cz_other_l x y : test_digits x = false -> cz x y = localeCompare x y.
Proof. intros H. rewrite cp_other by (now rewrite H). reflexivity. Qed.

Lemma cz_other_r x y : test_digits y = false -> cz x y = localeCompare x y.
Proof. intros H. rewrite cp_other by (rewrite H; apply andb_false_r). reflexivity. Qed.

Variable P : string -> Prop.
Hypothesis HP : OrderedParts localeCompare P.

Lemma parseInt_finite x :
  P x -> test_digits x = true -> parseInt x = Number.Finite (num x).
Proof.
  intros Px Dx. destruct (parseInt_cases x Dx) as [E | [z E]].
  - exfalso. exact (op_finite _ _ HP x Px Dx E).
  - rewrite E. reflexivity.
Qed.

(** Two digit runs compare as their values do. *)
Lemma cz_digits x y :
  P x -> P y -> test_digits x = true -> test_digits y = true ->
  (cz x y < 0 <-> num x < num y) /\
  (cz x y = 0 <-> num x = num y) /\
  (cp x y = Number.Finite 0 <-> num x = num y) /\
  (parseInt x = parseInt y <-> num x = num y) /\
  cp x y <> Number.NaN.
Proof.
  intros Px Py Dx Dy.
  rewrite (cp_digits x y Dx Dy).
  rewrite (parseInt_finite x Px Dx), (parseInt_finite y Py Dy).
  cbn [Number.sub Number.sortCompare].
  destruct (ofZ_sign (num x - num y)) as (H1 & H2 & H3 & H4).
  repeat split; try lia; try assumption.
  - intros E. apply H3 in E. lia.
  - intros E. apply H3. lia.
  - intros E. now injection E.
  - intros E. now rewrite E.
Qed.

Lemma cp_not_nan x y : P x -> P y -> cp x y <> Number.NaN.
Proof.
  intros Px Py. destruct (test_digits x) eqn:Dx, (test_digits y) eqn:Dy;
    try (rewrite cp_other by (rewrite Dx, Dy; reflexivity); discriminate).
  now destruct (cz_digits x y Px Py Dx Dy) as (_ & _ & _ & _ & F5).
Qed.

Lemma cp_zero x y : P x -> P y -> (cp x y = Number.Finite 0 <-> cz x y = 0).
Proof.
  intros Px Py. symmetry. apply sortCompare_zero. now apply cp_not_nan.
Qed.

Lemma cp_refl x : P x -> cp x x = Number.Finite 0.
Proof.
  intros Px. destruct (test_digits x) eqn:Dx.
  - destruct (cz_digits x x Px Px Dx Dx) as (_ & _ & F3 & _). now apply F3.
  - rewrite cp_other by (now rewrite Dx). f_equal. now apply (op_refl _ _ HP).
Qed.

Lemma cz_anti x y : P x -> P y -> (cz x y < 0 <-> 0 < cz y x).
Proof.
  intros Px Py. destruct (test_digits x) eqn:Dx, (test_digits y) eqn:Dy.
  - pose proof (cz_digits x y Px Py Dx Dy). pose proof (cz_digits y x Py Px Dy Dx). lia.
  - rewrite (cz_other_r x y Dy), (cz_other_l y x Dy). now apply (op_anti _ _ HP).
  - rewrite (cz_other_l x y Dx), (cz_other_r y x Dx). now apply (op_anti _ _ HP).
  - rewrite (cz_other_l x y Dx), (cz_other_r y x Dx). now apply (op_anti _ _ HP).
Qed.

Lemma cz_sym0 x y : P x -> P y -> cz x y = 0 -> cz y x = 0.
Proof.
  intros Px Py H. pose proof (cz_anti x y Px Py) as H1.
  pose proof (cz_anti y x Py Px) as H2. lia.
Qed.

Lemma lc_total x y :
  P x -> P y -> localeCompare x y < 0 \/ x = y \/ localeCompare y x < 0.
Proof.
  intros Px Py.
  destruct (Z.lt_trichotomy (localeCompare x y) 0) as [H | [H | H]].
  - now left.
  - right; left. now apply (op_eq _ _ HP).
  - right; right. apply (op_anti _ _ HP); [assumption | assumption | lia].
Qed.

Lemma part_cases x :
  is_part x ->
  test_digits x = true \/ (test_digits x = false /\ nondigit_run x = true).
Proof.
  intros [H | H]; [now left|].
  destruct (test_digits x) eqn:E; [now left | now right].
Qed.

(** A run of non-digits is on the same side of every digit run. *)
Lemma digits_same_side_l d1 d2 n :
  P d1 -> P d2 -> P n ->
  test_digits d1 = true -> test_digits d2 = true -> nondigit_run n = true ->
  localeCompare d1 n < 0 -> localeCompare d2 n < 0.
Proof.
  intros P1 P2 Pn H1 H2 Hn Hlt.
  destruct (lc_total d2 n P2 Pn) as [H | [H | H]]; [exact H | |].
  - subst. exfalso. eapply digits_not_nondigit; eauto.
  - exfalso. exact (op_convex _ _ HP d1 n d2 P1 Pn P2 H1 Hn H2 Hlt H).
Qed.

Lemma digits_same_side_r d1 d2 n :
  P d1 -> P d2 -> P n ->
  test_digits d1 = true -> test_digits d2 = true -> nondigit_run n = true ->
  localeCompare n d1 < 0 -> localeCompare n d2 < 0.
Proof.
  intros P1 P2 Pn H1 H2 Hn Hlt.
  destruct (lc_total n d2 Pn P2) as [H | [H | H]]; [exact H | |].
  - subst. exfalso. eapply digits_not_nondigit; eauto.
  - exfalso. exact (op_convex _ _ HP d2 n d1 P2 Pn P1 H2 Hn H1 H Hlt).
Qed.

Lemma cz_tie x y : P x -> P y -> (cz x y = 0 <-> same_run x y).
Proof.
  intros Px Py. split.
  - intros H. destruct (test_digits x) eqn:Dx, (test_digits y) eqn:Dy.
    + right. repeat split; try assumption.
      destruct (cz_digits x y Px Py Dx Dy) as (_ & F2 & _ & F4 & _). tauto.
    + left. rewrite (cz_other_r x y Dy) in H. now apply (op_eq _ _ HP).
    + left. rewrite (cz_other_l x y Dx) in H. now apply (op_eq _ _ HP).
    + left. rewrite (cz_other_l x y Dx) in H. now apply (op_eq _ _ HP).
  - intros [-> | (Dx & Dy & E)].
    + apply cp_zero; [assumption | assumption | now apply cp_refl].
    + destruct (cz_digits x y Px Py Dx Dy) as (_ & F2 & _ & F4 & _). tauto.
Qed.

Ltac part_split :=
  repeat match goal with
    | H : is_part ?x |- _ => apply part_cases in H as [H | [H ?]]
    end.

(** The comparisons of [x], [y] and [z], two by two, as comparisons of
    values or of [localeCompare]. *)
Ltac cz_norm x y z Px Py Pz Hx Hy Hz :=
  try pose proof (cz_digits x y Px Py Hx Hy);
  try pose proof (cz_digits y z Py Pz Hy Hz);
  try pose proof (cz_digits x z Px Pz Hx Hz);
  try rewrite (cz_other_l x y Hx) in *; try rewrite (cz_other_r x y Hy) in *;
  try rewrite (cz_other_l y z Hy) in *; try rewrite (cz_other_r y z Hz) in *;
  try rewrite (cz_other_l x z Hx) in *; try rewrite (cz_other_r x z Hz) in *.

Lemma cz_trans x y z :
  P x -> P y -> P z -> is_part x -> is_part y -> is_part z ->
  cz x y < 0 -> cz y z < 0 -> cz x z < 0.
Proof.
  intros Px Py Pz Hx Hy Hz Hxy Hyz. part_split; cz_norm x y z Px Py Pz Hx Hy Hz;
    first
      [ lia
      | eapply (op_trans _ _ HP); [| | | eassumption | eassumption]; assumption
      | match goal with
        | H : localeCompare ?d1 ?n < 0 |- localeCompare ?d2 ?n < 0 =>
            apply (digits_same_side_l d1 d2 n); assumption
        | H : localeCompare ?n ?d1 < 0 |- localeCompare ?n ?d2 < 0 =>
            apply (digits_same_side_r d1 d2 n); assumption
        | H1 : localeCompare ?a ?b < 0, H2 : localeCompare ?b ?c < 0 |- _ =>
            exfalso; apply (op_convex _ _ HP a b c); assumption
        end ].
Qed.

Lemma cz_tie_lt x y z :
  P x -> P y -> P z -> is_part z ->
  cz x y = 0 -> cz y z < 0 -> cz x z < 0.
Proof.
  intros Px Py Pz Hz Hxy Hyz.
  apply (cz_tie x y Px Py) in Hxy as [-> | (Dx & Dy & E)]; [exact Hyz|].
  destruct (cz_digits x y Px Py Dx Dy) as (_ & _ & _ & F4 & _). apply F4 in E.
  apply part_cases in Hz as [Dz | [Dz Nz]].
  - pose proof (cz_digits y z Py Pz Dy Dz). pose proof (cz_digits x z Px Pz Dx Dz). lia.
  - rewrite (cz_other_r y z Dz) in Hyz. rewrite (cz_other_r x z Dz).
    eapply (digits_same_side_l y x z); eassumption.
Qed.

Lemma cz_lt_tie x y z :
  P x -> P y -> P z -> is_part x ->
  cz x y < 0 -> cz y z = 0 -> cz x z < 0.
Proof.
  intros Px Py Pz Hx Hxy Hyz.
  apply (cz_tie y z Py Pz) in Hyz as [<- | (Dy & Dz & E)]; [exact Hxy|].
  destruct (cz_digits y z Py Pz Dy Dz) as (_ & _ & _ & F4 & _). apply F4 in E.
  apply part_cases in Hx as [Dx | [Dx Nx]].
  - pose proof (cz_digits x y Px Py Dx Dy). pose proof (cz_digits x z Px Pz Dx Dz). lia.
  - rewrite (cz_other_l x y Dx) in Hxy. rewrite (cz_other_l x z Dx).
    eapply (digits_same_side_r y z x); eassumption.
Qed.

Lemma cz_tie_tie x y z :
  P x -> P y -> P z -> cz x y = 0 -> cz y z = 0 -> cz x z = 0.
Proof.
  intros Px Py Pz Hxy Hyz.
  apply (cz_tie x y Px Py) in Hxy. apply (cz_tie y z Py Pz) in Hyz.
  apply (cz_tie x z Px Pz).
  destruct Hxy as [-> | (Dx & Dy & E1)]; [exact Hyz|].
  destruct Hyz as [<- | (_ & Dz & E2)]; [right; auto|].
  right. repeat split; auto. congruence.
Qed.

End PartOrder.
(** ** The loop of naturalSort *)

Section LoopFacts.

Variable localeCompare : string -> string -> Z.

Local Abbreviation cp := (comparePart localeCompare).
Local Abbreviation cz x y := (Number.sortCompare (comparePart localeCompare x y)).
Local Abbreviation loop := (naturalSort_loop localeCompare).
Local Abbreviation lz A B i n := (Number.sortCompare (naturalSort_loop localeCompare A B i n)).
Local Abbreviation part A j := (nth j A EmptyString).

Lemma loop_zero A B n : forall i,
  loop A B i n = Number.Finite 0 <->
  (forall j, (i <= j < i + n)%nat -> cp (part A j) (part B j) = Number.Finite 0).
Proof.
  induction n as [|n IH]; intros i; simpl.
  - split; [intros _ j Hj; lia | reflexivity].
  - destruct (Number.isZero (cp (part A i) (part B i))) eqn:E.
    + apply isZero_spec in E. rewrite IH. split.
      * intros H j Hj. destruct (Nat.eq_dec j i) as [-> | Hne]; [exact E|].
        apply H. lia.
      * intros H j Hj. apply H. lia.
    + split.
      * intros H. apply isZero_spec in H. congruence.
      * intros H. exfalso. assert (E' : cp (part A i) (part B i) = Number.Finite 0)
          by (apply H; lia).
        apply isZero_spec in E'. congruence.
Qed.

(** The first index at which the comparison of the parts is not 0 decides. *)
Lemma loop_first A B n k : forall i,
  (i <= k < i + n)%nat ->
  (forall j, (i <= j < k)%nat -> cp (part A j) (part B j) = Number.Finite 0) ->
  cp (part A k) (part B k) <> Number.Finite 0 ->
  loop A B i n = cp (part A k) (part B k).
Proof.
  induction n as [|n IH]; intros i Hk Hties Hne; [lia|].
  simpl. destruct (Nat.eq_dec i k) as [-> | Hik].
  - destruct (Number.isZero (cp (part A k) (part B k))) eqn:E; [|reflexivity].
    apply isZero_spec in E. contradiction.
  - rewrite (Hties i) by lia. simpl.
    apply IH; [lia | | exact Hne].
    intros j Hj. apply Hties. lia.
Qed.

Variable P : string -> Prop.
Hypothesis HP : OrderedParts localeCompare P.

Lemma lz_step A B i n :
  P (part A i) -> P (part B i) ->
  lz A B i (S n) =
    if cz (part A i) (part B i) =? 0 then lz A B (S i) n else cz (part A i) (part B i).
Proof.
  intros PA PB. cbn [naturalSort_loop].
  pose proof (cp_zero _ _ HP _ _ PA PB) as Hz.
  destruct (Number.isZero (cp (part A i) (part B i))) eqn:E.
  - apply isZero_spec in E. rewrite (proj1 Hz E). reflexivity.
  - destruct (Z.eqb_spec (cz (part A i) (part B i)) 0) as [E0 | _]; [|reflexivity].
    apply Hz, isZero_spec in E0. congruence.
Qed.

Lemma loop_not_nan A B n :
  (forall j, P (part A j)) -> (forall j, P (part B j)) ->
  forall i, loop A B i n <> Number.NaN.
Proof.
  intros PA PB. induction n as [|n IH]; intros i; simpl; [discriminate|].
  destruct (Number.isZero _); [apply IH|].
  apply (cp_not_nan _ _ HP); auto.
Qed.

Lemma cp_missing j A B :
  P EmptyString ->
  (length A <= j)%nat -> (length B <= j)%nat -> cp (part A j) (part B j) = Number.Finite 0.
Proof.
  intros PE HA HB. rewrite !nth_overflow by assumption. now apply (cp_refl _ _ HP).
Qed.

(** Running the loop further than both arrays changes nothing. *)
Lemma loop_extend A B n m : forall i,
  P EmptyString ->
  (Nat.max (length A) (length B) <= i + n)%nat ->
  loop A B i (n + m) = loop A B i n.
Proof.
  induction n as [|n IH]; intros i PE Hlen.
  - simpl. apply loop_zero. intros j Hj. apply cp_missing; [assumption | lia | lia].
  - simpl. destruct (Number.isZero (cp (part A i) (part B i))); [|reflexivity].
    apply IH; [assumption | lia].
Qed.

Lemma parts_in_empty a : parts_in P a -> P EmptyString.
Proof.
  intros Ha. specialize (Ha (length (match_runs a))).
  now rewrite nth_overflow in Ha by lia.
Qed.

Lemma naturalSort_at a b N :
  parts_in P a ->
  (Nat.max (length (match_runs a)) (length (match_runs b)) <= N)%nat ->
  naturalSort localeCompare a b = loop (match_runs a) (match_runs b) 0 N.
Proof.
  intros Pa HN. unfold naturalSort.
  set (M := Nat.max _ _) in *.
  replace N with (M + (N - M))%nat by lia.
  symmetry. apply loop_extend; [exact (parts_in_empty a Pa) | lia].
Qed.

Lemma loop_anti A B n :
  (forall j, P (part A j)) -> (forall j, P (part B j)) ->
  forall i, lz A B i n < 0 <-> 0 < lz B A i n.
Proof.
  intros PA PB. induction n as [|n IH]; intros i; [simpl; lia|].
  rewrite !lz_step by auto.
  pose proof (cz_anti _ _ HP (part A i) (part B i) (PA i) (PB i)) as H1.
  pose proof (cz_anti _ _ HP (part B i) (part A i) (PB i) (PA i)) as H2.
  destruct (Z.eqb_spec (cz (part A i) (part B i)) 0) as [E | E];
    destruct (Z.eqb_spec (cz (part B i) (part A i)) 0) as [E' | E']; try lia.
  apply IH.
Qed.

Lemma loop_trans A B C n :
  (forall j, P (part A j)) -> (forall j, P (part B j)) -> (forall j, P (part C j)) ->
  (forall j, is_part (part A j)) ->
  (forall j, is_part (part B j)) ->
  (forall j, is_part (part C j)) ->
  forall i,
    lz A B i n <= 0 -> lz B C i n <= 0 ->
    lz A C i n <= 0 /\ (lz A B i n < 0 \/ lz B C i n < 0 -> lz A C i n < 0).
Proof.
  intros PA PB PC IA IB IC. induction n as [|n IH]; intros i; [simpl; lia|].
  rewrite !lz_step by auto.
  specialize (PA i). specialize (PB i). specialize (PC i).
  specialize (IA i). specialize (IB i). specialize (IC i).
  destruct (Z.eqb_spec (cz (part A i) (part B i)) 0) as [Eab | Eab];
    destruct (Z.eqb_spec (cz (part B i) (part C i)) 0) as [Ebc | Ebc];
    intros Hab Hbc.
  - rewrite (cz_tie_tie _ _ HP _ _ _ PA PB PC Eab Ebc). simpl. now apply IH.
  - assert (H : cz (part A i) (part C i) < 0)
      by (apply (cz_tie_lt _ _ HP _ (part B i)); auto; lia).
    destruct (Z.eqb_spec (cz (part A i) (part C i)) 0); lia.
  - assert (H : cz (part A i) (part C i) < 0)
      by (apply (cz_lt_tie _ _ HP _ (part B i)); auto; lia).
    destruct (Z.eqb_spec (cz (part A i) (part C i)) 0); lia.
  - assert (H : cz (part A i) (part C i) < 0)
      by (apply (cz_trans _ _ HP _ (part B i)); auto; lia).
    destruct (Z.eqb_spec (cz (part A i) (part C i)) 0); lia.
Qed.

Lemma naturalSort_refl a : parts_in P a -> naturalSort localeCompare a a = Number.Finite 0.
Proof.
  intros Pa. unfold naturalSort. apply loop_zero. intros j _. apply (cp_refl _ _ HP), Pa.
Qed.

Lemma naturalSort_not_nan a b :
  parts_in P a -> parts_in P b -> naturalSort localeCompare a b <> Number.NaN.
Proof. intros Pa Pb. unfold naturalSort. now apply loop_not_nan. Qed.

Lemma naturalSort_zero a b :
  parts_in P a -> parts_in P b ->
  (sortOrder localeCompare a b = 0 <-> naturalSort localeCompare a b = Number.Finite 0).
Proof.
  intros Pa Pb. apply sortCompare_zero. now apply naturalSort_not_nan.
Qed.

Lemma naturalSort_anti a b :
  parts_in P a -> parts_in P b ->
  (sortOrder localeCompare a b < 0 <-> 0 < sortOrder localeCompare b a).
Proof.
  intros Pa Pb. unfold sortOrder, naturalSort.
  rewrite (Nat.max_comm (length (match_runs b))).
  now apply loop_anti.
Qed.

Lemma naturalSort_trans_both a b c :
  parts_in P a -> parts_in P b -> parts_in P c ->
  sortOrder localeCompare a b <= 0 -> sortOrder localeCompare b c <= 0 ->
  sortOrder localeCompare a c <= 0 /\
  (sortOrder localeCompare a b < 0 \/ sortOrder localeCompare b c < 0 ->
   sortOrder localeCompare a c < 0).
Proof.
  intros Pa Pb Pc. unfold sortOrder.
  set (N := Nat.max (length (match_runs a))
              (Nat.max (length (match_runs b)) (length (match_runs c)))).
  rewrite (naturalSort_at a b N), (naturalSort_at b c N), (naturalSort_at a c N)
    by (try assumption; unfold N; lia).
  apply loop_trans; try assumption; intros j; apply nth_runs_part.
Qed.

Lemma Forall2_of_nth {A : Type} (R : A -> A -> Prop) (d : A) (l1 : list A) :
  forall l2, length l1 = length l2 ->
  (forall j, (j < length l1)%nat -> R (nth j l1 d) (nth j l2 d)) ->
  Forall2 R l1 l2.
Proof.
  induction l1 as [|x l1 IH]; intros [|y l2] Hlen H; simpl in *; try discriminate.
  - constructor.
  - constructor.
    + apply (H O). lia.
    + apply IH; [lia|]. intros j Hj. apply (H (S j)). lia.
Qed.

Lemma nth_of_Forall2 {A : Type} (R : A -> A -> Prop) (d : A) (l1 l2 : list A) :
  Forall2 R l1 l2 ->
  forall j, (j < length l1)%nat -> R (nth j l1 d) (nth j l2 d).
Proof.
  induction 1 as [|x y l1 l2 Hxy _ IH]; intros j Hj; simpl in *; [lia|].
  destruct j as [|j]; [exact Hxy|]. apply IH. lia.
Qed.

Lemma tie_lengths a b :
  parts_in P a -> parts_in P b ->
  naturalSort localeCompare a b = Number.Finite 0 ->
  (length (match_runs a) <= length (match_runs b))%nat.
Proof.
  intros Pa Pb H. unfold naturalSort in H.
  destruct (Nat.le_gt_cases (length (match_runs a)) (length (match_runs b))) as [|Hlt];
    [assumption|exfalso].
  assert (E : cp (part (match_runs a) (length (match_runs b)))
                (part (match_runs b) (length (match_runs b))) = Number.Finite 0)
    by (apply (proj1 (loop_zero _ _ _ _) H); lia).
  assert (Hs : same_run (part (match_runs a) (length (match_runs b)))
                 (part (match_runs b) (length (match_runs b)))).
  { apply (cz_tie _ _ HP); [apply Pa | apply Pb |].
    apply (cp_zero _ _ HP); [apply Pa | apply Pb | exact E]. }
  rewrite (nth_overflow (match_runs b)) in Hs by lia.
  destruct Hs as [Hs | (_ & Hs & _)]; [|discriminate].
  now apply (nth_runs_nonempty a (length (match_runs b))).
Qed.

Lemma naturalSort_tie a b :
  parts_in P a -> parts_in P b ->
  (naturalSort localeCompare a b = Number.Finite 0 <->
   Forall2 same_run (match_runs a) (match_runs b)).
Proof.
  intros Pa Pb. split.
  - intros H.
    assert (H' : naturalSort localeCompare b a = Number.Finite 0).
    { apply naturalSort_zero; try assumption.
      apply naturalSort_zero in H; try assumption.
      pose proof (naturalSort_anti a b Pa Pb). pose proof (naturalSort_anti b a Pb Pa). lia. }
    pose proof (tie_lengths a b Pa Pb H). pose proof (tie_lengths b a Pb Pa H').
    apply (Forall2_of_nth _ EmptyString); [lia|].
    intros j Hj. apply (cz_tie _ _ HP); [apply Pa | apply Pb |].
    apply (cp_zero _ _ HP); [apply Pa | apply Pb |].
    unfold naturalSort in H. apply (proj1 (loop_zero _ _ _ _) H). lia.
  - intros H. unfold naturalSort. apply loop_zero. intros j Hj.
    pose proof (Forall2_length _ _ _ H) as Hlen.
    apply (cp_zero _ _ HP); [apply Pa | apply Pb |].
    apply (cz_tie _ _ HP); [apply Pa | apply Pb |].
    apply nth_of_Forall2; [exact H | lia].
Qed.

End LoopFacts.
(** ** naturalSort as an order *)

(** Leading zeros do not count: whatever [localeCompare] is, two digit runs
    of the same value tie. *)
Lemma naturalSort_leading_zero localeCompare :
  naturalSort localeCompare "01" "1" = Number.Finite 0 /\
  naturalSort localeCompare "1" "01" = Number.Finite 0.
Proof. split; vm_compute; reflexivity. Qed.



Lemma short_parts_ordered : OrderedParts codeUnitCompare short_part.
Proof.
  apply codeUnit_ordered. intros d Hd Dd.
  rewrite (parseInt_exact d Dd Hd). discriminate.
Qed.

Lemma parts_in_short a :
  (String.length a <= 15)%nat -> Forall short_part (match_runs a) -> parts_in short_part a.
Proof.
  intros _ Hall i.
  destruct (Nat.lt_ge_cases i (length (match_runs a))) as [Hi | Hi].
  - rewrite Forall_forall in Hall. apply Hall. apply list_elem_of_In. now apply nth_In.
  - rewrite nth_overflow by exact Hi. unfold short_part. simpl. lia.
Qed.

(** The parts of a given short name are short. *)
Ltac short_parts :=
  apply parts_in_short; [simpl; lia|];
  match goal with
  | |- Forall _ (match_runs ?a) =>
      let l := eval vm_compute in (match_runs a) in change (match_runs a) with l
  end;
  repeat (apply List.Forall_cons; [unfold short_part; simpl; lia|]); apply List.Forall_nil.


(** C9, as stated, fails in two places. Digit runs are compared as doubles,
    not as unsigned integers: 9007199254740993 and 9007199254740992, which
    differ, tie. And a name whose runs are a strict prefix of the runs of
    another does not sort first when [localeCompare] ties the empty string
    with the first extra run, as a collation that ignores the soft hyphen
    does: "1" and "1" followed by a soft hyphen tie. *)
Lemma naturalSort_runs_not_integers :
  (forall localeCompare,
     naturalSort localeCompare "9007199254740993" "9007199254740992" = Number.Finite 0) /\
  test_digits "9007199254740993" = true /\ test_digits "9007199254740992" = true /\
  mathInt "9007199254740993" <> mathInt "9007199254740992" /\
  match_runs ("1" +:+ soft_hyphen) = match_runs "1" ++ [soft_hyphen] /\
  (forall localeCompare,
     localeCompare EmptyString soft_hyphen = 0 ->
     naturalSort localeCompare "1" ("1" +:+ soft_hyphen) = Number.Finite 0).
Proof.
  split; [|split; [|split; [|split; [|split]]]]; try reflexivity.
  - vm_compute. discriminate.
  - intros lc Hshy. unfold naturalSort.
    change (match_runs "1") with ["1"].
    change (match_runs ("1" +:+ soft_hyphen)) with ["1"; soft_hyphen].
    cbn [length Nat.max naturalSort_loop nth].
    change (comparePart lc "1" "1") with (Number.Finite 0). cbn [Number.isZero].
    change (comparePart lc EmptyString soft_hyphen)
      with (Number.Finite (lc EmptyString soft_hyphen)).
    now rewrite Hshy.
Qed.

(** C9, amended: [naturalSort] compares the runs of the two names position
    by position, and the first comparison that is not 0 decides. Two digit
    runs compare by their values as numbers, which for runs of at most 15
    digits are the integers they denote; any other pair of parts compares
    by [localeCompare]. Hence, for a [localeCompare] that ties "page" with
    itself and puts it before "pagea.jpg",
    "page2.jpg" < "page10.jpg" < "page11.jpg" and "page2.jpg" < "pagea.jpg".
    A name whose runs are a strict prefix of the runs of another sorts
    first when every one of its runs ties with itself and [localeCompare]
    puts the empty string before the first extra run. *)
Theorem naturalSort_by_runs localeCompare :
  (forall a b i,
     (i < Nat.max (length (match_runs a)) (length (match_runs b)))%nat ->
     (forall j, (j < i)%nat ->
        ties localeCompare (nth j (match_runs a) EmptyString)
          (nth j (match_runs b) EmptyString)) ->
     ~ ties localeCompare (nth i (match_runs a) EmptyString)
         (nth i (match_runs b) EmptyString) ->
     naturalSort localeCompare a b =
       comparePart localeCompare (nth i (match_runs a) EmptyString)
         (nth i (match_runs b) EmptyString)) /\
  (forall x y,
     test_digits x = true -> test_digits y = true ->
     comparePart localeCompare x y = Number.sub (parseInt x) (parseInt y) /\
     ((String.length x <= 15)%nat -> (String.length y <= 15)%nat ->
      comparePart localeCompare x y = Number.Finite (mathInt x - mathInt y))) /\
  (forall x y,
     test_digits x && test_digits y = false ->
     comparePart localeCompare x y = Number.Finite (localeCompare x y)) /\
  (localeCompare "page" "page" = 0 -> localeCompare "page" "pagea.jpg" < 0 ->
   sortOrder localeCompare "page2.jpg" "page10.jpg" < 0 /\
   sortOrder localeCompare "page10.jpg" "page11.jpg" < 0 /\
   sortOrder localeCompare "page2.jpg" "pagea.jpg" < 0) /\
  (forall a b r q,
     match_runs b = match_runs a ++ r :: q ->
     (forall x, In x (match_runs a) -> ties localeCompare x x) ->
     localeCompare EmptyString r < 0 ->
     sortOrder localeCompare a b < 0).
Proof.
  assert (Hfirst : forall a b i,
    (i < Nat.max (length (match_runs a)) (length (match_runs b)))%nat ->
    (forall j, (j < i)%nat ->
       ties localeCompare (nth j (match_runs a) EmptyString)
         (nth j (match_runs b) EmptyString)) ->
    ~ ties localeCompare (nth i (match_runs a) EmptyString)
        (nth i (match_runs b) EmptyString) ->
    naturalSort localeCompare a b =
      comparePart localeCompare (nth i (match_runs a) EmptyString)
        (nth i (match_runs b) EmptyString)).
  { intros a b i Hi Hties Hne. unfold naturalSort. apply loop_first.
    - lia.
    - intros j Hj. apply Hties. lia.
    - exact Hne. }
  split; [exact Hfirst|]. split; [|split; [|split]].
  - intros x y Dx Dy. split; [now apply cp_digits|].
    intros Lx Ly. rewrite cp_digits by assumption.
    rewrite (parseInt_exact x Dx Lx), (parseInt_exact y Dy Ly). cbn [Number.sub].
    apply ofZ_small.
    pose proof (mathInt_bounds x (test_digits_allb x Dx)).
    pose proof (mathInt_bounds y (test_digits_allb y Dy)).
    assert (10 ^ Z.of_nat (String.length x) <= 10 ^ 15) by (apply Z.pow_le_mono_r; lia).
    assert (10 ^ Z.of_nat (String.length y) <= 10 ^ 15) by (apply Z.pow_le_mono_r; lia).
    lia.
  - intros x y H. now apply cp_other.
  - intros Hrefl Hpre.
    assert (Hpage : ties localeCompare "page" "page").
    { unfold ties. rewrite cp_other by reflexivity. now rewrite Hrefl. }
    assert (Hone : forall a b,
      nth 0 (match_runs a) EmptyString = "page" ->
      nth 0 (match_runs b) EmptyString = "page" ->
      forall j, (j < 1)%nat ->
        ties localeCompare (nth j (match_runs a) EmptyString)
          (nth j (match_runs b) EmptyString)).
    { intros a b Ea Eb j Hj. replace j with O by lia. now rewrite Ea, Eb. }
    unfold sortOrder. repeat split.
    + rewrite (Hfirst "page2.jpg" "page10.jpg" 1%nat);
        [vm_compute; reflexivity | vm_compute; lia | now apply Hone
        | vm_compute; discriminate].
    + rewrite (Hfirst "page10.jpg" "page11.jpg" 1%nat);
        [vm_compute; reflexivity | vm_compute; lia | now apply Hone
        | vm_compute; discriminate].
    + rewrite (Hfirst "page2.jpg" "pagea.jpg" 0%nat).
      * change (localeCompare "page" "pagea.jpg" < 0). exact Hpre.
      * vm_compute. lia.
      * intros j Hj. lia.
      * unfold ties. change (Number.Finite (localeCompare "page" "pagea.jpg") <> Number.Finite 0).
        intros E. injection E as E. lia.
  - intros a b r q Hb Hself Hlt. unfold sortOrder.
    assert (Hcmp : comparePart localeCompare
                     (nth (length (match_runs a)) (match_runs a) EmptyString)
                     (nth (length (match_runs a)) (match_runs b) EmptyString)
                   = Number.Finite (localeCompare EmptyString r)).
    { rewrite nth_overflow by lia. rewrite Hb, app_nth2 by lia.
      rewrite Nat.sub_diag. simpl nth. now rewrite cp_other by reflexivity. }
    rewrite (Hfirst a b (length (match_runs a))).
    + rewrite Hcmp. exact Hlt.
    + rewrite Hb, length_app. simpl. lia.
    + intros j Hj. rewrite Hb, app_nth1 by lia. apply Hself. now apply nth_In.
    + unfold ties. rewrite Hcmp. intros E. injection E as E. lia.
Qed.

Lemma naturalSort_by_runs_witness :
  codeUnitCompare "page" "page" = 0 /\ codeUnitCompare "page" "pagea.jpg" < 0 /\
  sortOrder codeUnitCompare "page2.jpg" "page10.jpg" < 0 /\
  sortOrder codeUnitCompare "page10.jpg" "page11.jpg" < 0 /\
  sortOrder codeUnitCompare "page2.jpg" "pagea.jpg" < 0.
Proof.
  split; [reflexivity|]. split; [reflexivity|].
  apply (naturalSort_by_runs codeUnitCompare); reflexivity.
Defined.

(** ** Array.prototype.sort *)

Section SortFacts.

Context {A : Type} (compareFn : A -> A -> Z).

Local Abbreviation le x y := (compareFn x y <= 0).

Lemma sort_insert_perm x l : Permutation (JsArray.sort_insert compareFn x l) (x :: l).
Proof.
  induction l as [|y l IH]; simpl; [reflexivity|].
  destruct (compareFn x y <=? 0); [reflexivity|].
  rewrite IH. apply perm_swap.
Qed.

Lemma sort_perm l : Permutation (JsArray.sort compareFn l) l.
Proof.
  induction l as [|x l IH]; simpl; [reflexivity|].
  rewrite sort_insert_perm. now constructor.
Qed.

Lemma sort_insert_sorted x l :
  (forall y, In y l -> 0 < compareFn x y -> compareFn y x <= 0) ->
  (forall y z, In y l -> In z l -> le x y -> le y z -> le x z) ->
  StronglySorted (fun a b => le a b) l ->
  StronglySorted (fun a b => le a b) (JsArray.sort_insert compareFn x l).
Proof.
  intros total trans. induction 1 as [|y l Hs IH Hy]; simpl.
  - constructor; constructor.
  - destruct (Z.leb_spec (compareFn x y) 0) as [Hxy | Hxy].
    + constructor; [now constructor|].
      constructor; [exact Hxy|].
      apply Forall_forall. intros z Hz. apply list_elem_of_In in Hz.
      apply (trans y z); [now left | now right | exact Hxy |].
      rewrite Forall_forall in Hy. apply Hy. now apply list_elem_of_In.
    + constructor.
      * apply IH.
        -- intros z Hz. apply total. now right.
        -- intros z w Hz Hw. apply trans; now right.
      * apply Forall_forall. intros z Hz.
        apply list_elem_of_In in Hz.
        apply (Permutation_in _ (sort_insert_perm x l)) in Hz as [<- | Hz].
        -- apply total; [now left | lia].
        -- rewrite Forall_forall in Hy. apply Hy. now apply list_elem_of_In.
Qed.

(** The sort gives an ordered list when the comparator is a total preorder
    on the elements. *)
Lemma sort_sorted l :
  (forall x y, In x l -> In y l -> 0 < compareFn x y -> compareFn y x <= 0) ->
  (forall x y z, In x l -> In y l -> In z l -> le x y -> le y z -> le x z) ->
  StronglySorted (fun a b => le a b) (JsArray.sort compareFn l).
Proof.
  induction l as [|x l IH]; intros total trans; simpl; [constructor|].
  assert (Hin : forall y, In y (JsArray.sort compareFn l) -> In y l)
    by (intros y; apply Permutation_in, sort_perm).
  apply sort_insert_sorted.
  - intros y Hy. apply total; [now left | right; now apply Hin].
  - intros y z Hy Hz. apply trans; [now left | right; now apply Hin | right; now apply Hin].
  - apply IH.
    + intros y z Hy Hz. apply total; now right.
    + intros y z w Hy Hz Hw. apply trans; now right.
Qed.

End SortFacts.

(** ** isImageFile *)

Section ImageFile.

Lemma append_nil t : EmptyString +:+ t = t.
Proof. reflexivity. Qed.

Lemma append_cons c s t : String c s +:+ t = String c (s +:+ t).
Proof. reflexivity. Qed.

Lemma take_drop n : forall s, s = take n s +:+ drop n s.
Proof.
  induction n as [|n IH]; intros [|c s]; simpl; try reflexivity.
  change (String c s = String c (take n s +:+ drop n s)).
  f_equal. apply IH.
Qed.

Lemma toLowerCase_drop n : forall s, toLowerCase (drop n s) = drop n (toLowerCase s).
Proof.
  induction n as [|n IH]; intros [|c s]; simpl; try reflexivity. apply IH.
Qed.

Lemma toLowerCase_app s t : toLowerCase (s +:+ t) = toLowerCase s +:+ toLowerCase t.
Proof.
  induction s as [|c s IH]; [reflexivity|].
  rewrite append_cons. simpl. now rewrite IH.
Qed.

Lemma toLowerCase_length s : String.length (toLowerCase s) = String.length s.
Proof. induction s as [|c s IH]; simpl; [reflexivity | now rewrite IH]. Qed.

Lemma drop_app_length s t : drop (String.length s) (s +:+ t) = t.
Proof. induction s as [|c s IH]; [reflexivity | exact IH]. Qed.

Lemma lowerChar_dot c : Ascii.eqb (lowerChar c) dot = Ascii.eqb c dot.
Proof.
  destruct c as [[] [] [] [] [] [] [] []]; vm_compute; reflexivity.
Qed.

Lemma lastIndexOf_dot_lower s : lastIndexOf_dot (toLowerCase s) = lastIndexOf_dot s.
Proof.
  induction s as [|c s IH]; simpl; [reflexivity|].
  now rewrite IH, lowerChar_dot.
Qed.

Lemma lastIndexOf_dot_ge s : -1 <= lastIndexOf_dot s.
Proof.
  induction s as [|c s IH]; simpl; [lia|].
  destruct (Z.leb_spec 0 (lastIndexOf_dot s)); [lia|].
  destruct (Ascii.eqb c dot); lia.
Qed.

Lemma lastIndexOf_dot_app s t :
  0 <= lastIndexOf_dot t ->
  lastIndexOf_dot (s +:+ t) = Z.of_nat (String.length s) + lastIndexOf_dot t.
Proof.
  intros Ht. induction s as [|c s IH].
  - rewrite append_nil. simpl. lia.
  - rewrite append_cons. cbn [lastIndexOf_dot String.length]. rewrite IH.
    destruct (Z.leb_spec 0 (Z.of_nat (String.length s) + lastIndexOf_dot t)); lia.
Qed.

Lemma In_imageExtensions_existsb e :
  existsb (String.eqb e) imageExtensions = true <-> In e imageExtensions.
Proof.
  rewrite existsb_exists. split.
  - intros (x & Hx & E). apply String.eqb_eq in E. now subst.
  - intros H. exists e. split; [exact H | apply String.eqb_refl].
Qed.

(** [isImageFile] holds exactly of the names that end in one of the six
    extensions, in any case. *)
Lemma isImageFile_spec fileName :
  isImageFile fileName = true <-> has_image_extension fileName.
Proof.
  unfold isImageFile, has_image_extension, substring_from.
  rewrite In_imageExtensions_existsb. split.
  - intros H.
    exists (take (Z.to_nat (lastIndexOf_dot fileName)) fileName),
           (drop (Z.to_nat (lastIndexOf_dot fileName)) fileName).
    split; [apply take_drop|]. now rewrite toLowerCase_drop.
  - intros (stem & ext & -> & Hext).
    assert (Hdot : lastIndexOf_dot ext = 0).
    { rewrite <- lastIndexOf_dot_lower.
      simpl in Hext.
      destruct Hext as [<- | [<- | [<- | [<- | [<- | [<- | []]]]]]]; reflexivity. }
    rewrite lastIndexOf_dot_app by lia.
    rewrite Hdot, Z.add_0_r, Nat2Z.id, toLowerCase_app.
    rewrite <- (toLowerCase_length stem), drop_app_length. exact Hext.
Qed.

End ImageFile.

(** ** The extraction loop *)

Section ExtractFacts.

Lemma files_get_In files k f :
  NoDup (map fst files) -> (files_get files k = Some f <-> In (k, f) files).
Proof.
  induction files as [|[k' f'] files IH]; simpl; intros Hnd.
  - split; [discriminate | tauto].
  - apply NoDup_cons in Hnd as [Hk' Hnd].
    destruct (String.eqb_spec k' k) as [-> | Hne].
    + split.
      * intros [= ->]. now left.
      * intros [[= ->] | Hin]; [reflexivity|].
        exfalso. apply Hk'. apply list_elem_of_In.
        change k with (fst (k, f)). now apply in_map.
    + rewrite (IH Hnd). split; [tauto|].
      intros [[= -> ->] | Hin]; [congruence | exact Hin].
Qed.

Lemma files_get_key files k :
  In k (map fst files) -> exists f, files_get files k = Some f.
Proof.
  induction files as [|[k' f'] files IH]; simpl; [tauto|].
  intros [-> | Hin].
  - rewrite String.eqb_refl. eauto.
  - destruct (String.eqb k' k); eauto.
Qed.

Lemma shifted_filter files name rest i :
  List.filter (fun k => materializes files (nth (k - i) (name :: rest) EmptyString))
    (seq (S i) (length rest)) =
  List.filter (fun k => materializes files (nth (k - S i) rest EmptyString))
    (seq (S i) (length rest)).
Proof.
  apply List.filter_ext_in. intros k Hk. apply in_seq in Hk.
  replace (k - i)%nat with (S (k - S i)) by lia. reflexivity.
Qed.

Lemma filter_step files name rest i :
  List.filter (fun k => materializes files (nth (k - i) (name :: rest) EmptyString))
    (seq i (length (name :: rest))) =
  (if materializes files name then [i] else []) ++
  List.filter (fun k => materializes files (nth (k - S i) rest EmptyString))
    (seq (S i) (length rest)).
Proof.
  cbn [length seq List.filter]. rewrite Nat.sub_diag.
  change (nth 0 (name :: rest) EmptyString) with name.
  rewrite shifted_filter. now destruct (materializes files name).
Qed.

Lemma loop_adds_shift files comicId name rest i (new : list Page) :
  Forall (fun p => exists k,
            page_index p = Z.of_nat k /\
            page_id p = comicId +:+ "-page-" +:+ ofNat k /\
            entry_blob files (nth (k - S i) rest EmptyString) = Some (page_blob p))
    new ->
  map page_index new =
    map Z.of_nat
      (List.filter (fun k => materializes files (nth (k - S i) rest EmptyString))
         (seq (S i) (length rest))) ->
  Forall (fun p => exists k,
            page_index p = Z.of_nat k /\
            page_id p = comicId +:+ "-page-" +:+ ofNat k /\
            entry_blob files (nth (k - i) (name :: rest) EmptyString) = Some (page_blob p))
    new.
Proof.
  intros HF Hidx.
  assert (Hge : Forall (fun p => Z.of_nat (S i) <= page_index p) new).
  { apply Forall_forall. intros p Hp. apply list_elem_of_In in Hp.
    apply (in_map page_index) in Hp. rewrite Hidx in Hp.
    apply in_map_iff in Hp as (k & <- & Hk).
    apply List.filter_In in Hk as [Hk _]. apply in_seq in Hk. lia. }
  rewrite Forall_forall in *. intros p Hp.
  destruct (HF p Hp) as (k & Ek & Eid & Eb). specialize (Hge p Hp).
  exists k. repeat split; try assumption.
  replace (k - i)%nat with (S (k - S i)) by lia. exact Eb.
Qed.

Lemma extract_loop_spec files comicId rest : forall i acc h,
  exists new h',
    extract_loop files comicId rest i acc h = (acc ++ new, h') /\
    loop_adds files comicId rest i h new h'.
Proof.
  induction rest as [|name rest IH]; intros i acc h.
  - exists [], h. split; [simpl; now rewrite app_nil_r|].
    unfold loop_adds. simpl. rewrite !app_nil_r. repeat split; constructor.
  - cbn [extract_loop].
    destruct (files_get files name) as [[d [blob | reason]]|] eqn:E.
    + cbn [createObjectURL].
      match goal with
      | |- context [extract_loop _ _ _ _ (acc ++ [?p]) ?h1] =>
          destruct (IH (S i) (acc ++ [p]) h1) as (new & h' & Hrun & Hidx & HF & Hc & Hu & Hl);
          exists (p :: new), h'
      end.
      split; [rewrite Hrun, <- app_assoc; reflexivity|].
      unfold loop_adds. repeat split.
      * assert (Hm : materializes files name = true)
          by (unfold materializes; now rewrite E).
        rewrite filter_step, Hm. cbn [app map page_index]. now f_equal.
      * constructor.
        -- exists i. rewrite Nat.sub_diag. cbn [nth page_index page_id page_blob].
           unfold entry_blob. rewrite E. auto.
        -- now apply loop_adds_shift.
      * rewrite Hc. cbn [console warnings flat_map]. rewrite E. reflexivity.
      * rewrite Hu. cbn [objectURLs map page_blob]. now rewrite <- app_assoc.
      * rewrite Hl. reflexivity.
    + destruct (IH (S i) acc (log (warn_extract name reason) h))
        as (new & h' & Hrun & Hidx & HF & Hc & Hu & Hl).
      exists new, h'. split; [exact Hrun|].
      unfold loop_adds. repeat split.
      * assert (Hm : materializes files name = false)
          by (unfold materializes; now rewrite E).
        rewrite filter_step, Hm. exact Hidx.
      * now apply loop_adds_shift.
      * rewrite Hc. cbn [console log warnings flat_map]. rewrite E.
        now rewrite <- app_assoc.
      * exact Hu.
      * exact Hl.
    + destruct (IH (S i) acc (log (warn_extract name "TypeError") h))
        as (new & h' & Hrun & Hidx & HF & Hc & Hu & Hl).
      exists new, h'. split; [exact Hrun|].
      unfold loop_adds. repeat split.
      * assert (Hm : materializes files name = false)
          by (unfold materializes; now rewrite E).
        rewrite filter_step, Hm. exact Hidx.
      * now apply loop_adds_shift.
      * rewrite Hc. cbn [console log warnings flat_map]. rewrite E.
        now rewrite <- app_assoc.
      * exact Hu.
      * exact Hl.
Qed.

End ExtractFacts.

(** ** extractPagesFromCBR *)

Section ExtractTheorems.

Lemma filter_indices_length files rest : forall i,
  length (List.filter (fun k => materializes files (nth (k - i) rest EmptyString))
            (seq i (length rest))) =
  length (List.filter (materializes files) rest).
Proof.
  induction rest as [|name rest IH]; intros i; [reflexivity|].
  rewrite filter_step, length_app, IH. cbn [List.filter].
  now destruct (materializes files name).
Qed.

Lemma filter_indices_0 files names :
  List.filter (fun k => materializes files (nth (k - 0) names EmptyString))
    (seq 0 (length names)) =
  List.filter (fun k => materializes files (nth k names EmptyString))
    (seq 0 (length names)).
Proof.
  apply List.filter_ext. intros k. now rewrite Nat.sub_0_r.
Qed.

Lemma warnings_length files names :
  length (warnings files names) =
  length (List.filter (fun n => negb (materializes files n)) names).
Proof.
  induction names as [|name names IH]; [reflexivity|].
  cbn [warnings flat_map List.filter]. fold (warnings files names).
  rewrite length_app, IH. unfold materializes.
  destruct (files_get files name) as [[d [b | r]]|]; reflexivity.
Qed.

Lemma filter_all_true {A : Type} (f : A -> bool) l :
  (forall x, In x l -> f x = true) -> List.filter f l = l.
Proof.
  induction l as [|x l IH]; intros H; [reflexivity|].
  simpl. rewrite (H x) by now left. f_equal. apply IH. intros y Hy. apply H. now right.
Qed.

Variable localeCompare : string -> string -> Z.
Variable loadAsync : ArrayBuffer -> Settled ZipFiles.

Lemma extract_run arrayBuffer comicId h files :
  loadAsync arrayBuffer = Fulfilled files ->
  exists pages h',
    extractPagesFromCBR localeCompare loadAsync arrayBuffer comicId h = (Fulfilled pages, h') /\
    loop_adds files comicId (imageFiles localeCompare files) 0 h pages h'.
Proof.
  intros Hload. unfold extractPagesFromCBR. rewrite Hload.
  destruct (extract_loop_spec files comicId (imageFiles localeCompare files) 0 [] h)
    as (new & h' & Hrun & Hadds).
  rewrite Hrun. exists new, h'. split; [reflexivity | exact Hadds].
Qed.

Lemma imageFiles_perm files :
  Permutation (imageFiles localeCompare files)
    (List.filter
       (fun fileName =>
          match files_get files fileName with
          | Some file => negb (dir file) && isImageFile fileName
          | None => false
          end)
       (map fst files)).
Proof. apply sort_perm. Qed.

Lemma imageFiles_In files name :
  NoDup (map fst files) ->
  (In name (imageFiles localeCompare files) <->
   exists f, In (name, f) files /\ dir f = false /\ has_image_extension name).
Proof.
  intros Hnd. split.
  - intros Hin. apply (Permutation_in _ (imageFiles_perm files)) in Hin.
    apply List.filter_In in Hin as [Hkey Hkeep].
    destruct (files_get files name) as [f|] eqn:E; [|discriminate].
    apply andb_true_iff in Hkeep as [Hdir Himg].
    exists f. repeat split.
    + now apply files_get_In.
    + now apply negb_true_iff.
    + now apply isImageFile_spec.
  - intros (f & Hin & Hdir & Himg).
    apply (Permutation_in _ (Permutation_sym (imageFiles_perm files))).
    apply List.filter_In. split.
    + change name with (fst (name, f)). now apply in_map.
    + apply (files_get_In files name f Hnd) in Hin. rewrite Hin, Hdir.
      apply isImageFile_spec in Himg. now rewrite Himg.
Qed.

End ExtractTheorems.

Section OrderFacts.

Variable localeCompare : string -> string -> Z.

(** On names whose parts [localeCompare] orders, [naturalSort] is a total
    preorder. *)
Lemma total_preorder_of_parts P l :
  OrderedParts localeCompare P -> Forall (parts_in P) l ->
  total_preorder_on localeCompare l.
Proof.
  intros HP Hall. rewrite Forall_forall in Hall.
  assert (Hin : forall a, In a l -> parts_in P a)
    by (intros a Ha; apply Hall; now apply list_elem_of_In).
  split.
  - intros a b Ha Hb Hpos.
    pose proof (naturalSort_anti _ _ HP b a (Hin b Hb) (Hin a Ha)). lia.
  - intros a b c Ha Hb Hc Hab Hbc.
    now apply (naturalSort_trans_both _ _ HP a b c); auto.
Qed.

Lemma total_preorder_on_perm l l' :
  Permutation l l' -> total_preorder_on localeCompare l -> total_preorder_on localeCompare l'.
Proof.
  intros Hp [Htotal Htrans].
  assert (Hin : forall a, In a l' -> In a l)
    by (intros a; apply Permutation_in; now symmetry).
  split.
  - intros a b Ha Hb. apply Htotal; auto.
  - intros a b c Ha Hb Hc. apply Htrans; auto.
Qed.

End OrderFacts.




(** C5: when [loadAsync] accepts the buffer, [extractPagesFromCBR] returns
    pages whatever happens to the single entries: every entry that does not
    materialize adds one warning to the console and no page, the number of
    pages is the number of entries that materialize, and each page keeps as
    index, and in its id, the position of its entry in the whole sorted list
    of names, so that a skipped entry leaves a gap. *)
Theorem extractPagesFromCBR_skips localeCompare loadAsync arrayBuffer comicId h files :
  loadAsync arrayBuffer = Fulfilled files ->
  let names := imageFiles localeCompare files in
  exists pages h',
    extractPagesFromCBR localeCompare loadAsync arrayBuffer comicId h = (Fulfilled pages, h') /\
    console h' = console h ++ warnings files names /\
    length (warnings files names) =
      length (List.filter (fun n => negb (materializes files n)) names) /\
    length pages = length (List.filter (materializes files) names) /\
    map page_index pages =
      map Z.of_nat
        (List.filter (fun k => materializes files (nth k names EmptyString))
           (seq 0 (length names))) /\
    Forall (fun p => page_id p = comicId +:+ "-page-" +:+ ofNat (Z.to_nat (page_index p)))
      pages.
Proof.
  intros Hload names.
  destruct (extract_run localeCompare loadAsync arrayBuffer comicId h files Hload)
    as (pages & h' & Hrun & Hidx & HF & Hc & _).
  fold names in Hidx, HF, Hc.
  exists pages, h'. repeat split.
  - exact Hrun.
  - exact Hc.
  - apply warnings_length.
  - apply (f_equal (@length Z)) in Hidx.
    rewrite !length_map, filter_indices_length in Hidx. exact Hidx.
  - rewrite <- filter_indices_0. exact Hidx.
  - eapply Forall_impl; [exact HF|].
    intros p (k & Ek & Eid & _). now rewrite Ek, Nat2Z.id.
Qed.

Lemma extractPagesFromCBR_skips_witness :
  loadAsync_as archive_corrupt [] = Fulfilled archive_corrupt /\
  exists pages h',
    extractPagesFromCBR codeUnitCompare (loadAsync_as archive_corrupt) [] "comic" emptyHost
      = (Fulfilled pages, h') /\
    map page_index pages = [0; 2] /\
    console h' = [warn_extract "002.jpg" "Corrupted zip"].
Proof.
  split; [reflexivity|].
  destruct (extractPagesFromCBR_skips codeUnitCompare (loadAsync_as archive_corrupt) []
              "comic" emptyHost archive_corrupt eq_refl)
    as (pages & h' & Hrun & Hc & _ & _ & Hidx & _).
  exists pages, h'. split; [exact Hrun|]. split; [exact Hidx | exact Hc].
Defined.

(** The run of the three-page archive whose second page is corrupt. *)
Example extract_corrupt_run :
  fst (extractPagesFromCBR codeUnitCompare (loadAsync_as archive_corrupt) [] "comic" emptyHost)
  = Fulfilled [mkPage "comic-page-0" [Byte.x01] "blob:0" 0;
               mkPage "comic-page-2" [Byte.x03] "blob:1" 2].
Proof. vm_compute. reflexivity. Qed.

(** ** storageService: the progress map *)

Section ObjectFacts.

Lemma JsObject_get_set key value own :
  key <> "__proto__" -> JsObject.get (JsObject.set own key value) key = JsObject.Own value.
Proof.
  intros Hkey. unfold JsObject.get, JsObject.set.
  destruct (own !! key) eqn:E.
  - now rewrite lookup_insert_eq.
  - destruct (String.eqb_spec key "__proto__") as [-> | _]; [congruence|].
    now rewrite lookup_insert_eq.
Qed.

Lemma JsObject_get_set_ne key key' value own :
  key <> key' -> JsObject.get (JsObject.set own key value) key' = JsObject.get own key'.
Proof.
  intros Hne. unfold JsObject.get, JsObject.set.
  destruct (own !! key); [now rewrite lookup_insert_ne|].
  destruct (String.eqb key "__proto__"); [reflexivity|].
  now rewrite lookup_insert_ne.
Qed.

End ObjectFacts.

Lemma getComicProgress_saved comicId progress st :
  comicId <> "__proto__" ->
  getComicProgress comicId (saveComicProgress comicId progress st) = JsObject.Own progress.
Proof.
  intros Hid. unfold getComicProgress, saveComicProgress. simpl.
  now apply JsObject_get_set.
Qed.

(** C8: for the comic id "__proto__" the record is lost. The assignment
    [allProgress[comicId] = progress] reaches the setter of
    [Object.prototype] and gives the object no property, so the store holds
    an object without records; the read [allProgress[comicId]] then gives
    [Object.prototype], which is not the record that was saved and has
    neither [currentPage] nor [lastRead]. *)
Theorem saveComicProgress_proto_lost progress :
  COMIC_PROGRESS (saveComicProgress "__proto__" progress emptyStore) = Some ∅ /\
  getComicProgress "__proto__" (saveComicProgress "__proto__" progress emptyStore)
  = JsObject.Inherited "__proto__" /\
  getComicProgress "__proto__" (saveComicProgress "__proto__" progress emptyStore)
  <> JsObject.Own progress.
Proof. repeat split. discriminate. Qed.

(** The record [{ currentPage: 5, lastRead: T }] of the specification. *)
Example progress_saved_5 T :
  getComicProgress "comic" (saveComicProgress "comic" (mkProgress 5 T) emptyStore)
  = JsObject.Own (mkProgress 5 T).
Proof. apply getComicProgress_saved. discriminate. Qed.

(** C10: saving the progress of one comic leaves the progress of every other
    comic as it was. *)
Theorem saveComicProgress_frame c c' p st :
  c <> c' ->
  getComicProgress c' (saveComicProgress c p st) = getComicProgress c' st.
Proof.
  intros Hne. unfold getComicProgress, saveComicProgress. simpl.
  now apply JsObject_get_set_ne.
Qed.

Lemma saveComicProgress_frame_witness :
  "a" <> "b" /\
  getComicProgress "b"
    (saveComicProgress "a" (mkProgress 4 20)
       (saveComicProgress "b" (mkProgress 1 10) emptyStore))
  = JsObject.Own (mkProgress 1 10).
Proof.
  split; [discriminate|].
  rewrite (saveComicProgress_frame "a" "b"); [|discriminate].
  apply getComicProgress_saved. discriminate.
Defined.

(** The save touches no other key of the store. *)
Lemma saveComicProgress_other_keys c p st :
  SERIES (saveComicProgress c p st) = SERIES st /\
  READING_SETTINGS (saveComicProgress c p st) = READING_SETTINGS st /\
  ACCESS_TOKEN (saveComicProgress c p st) = ACCESS_TOKEN st /\
  SELECTED_FOLDER (saveComicProgress c p st) = SELECTED_FOLDER st.
Proof. repeat split. Qed.

(** ** ComicReader: navigation *)

(** C4: in single-page mode, from a cursor [k] with
    [0 < k < totalPages - 1], [nextPage] moves the cursor to [k + 1] when the
    reading direction is ltr and to [k - 1] when it is rtl; with ltr,
    [previousPage] at cursor 0 and [nextPage] at cursor [totalPages - 1]
    leave the reader as it is. *)
Theorem navigation_single_page comic s r :
  pageLayout s = single ->
  (0 < currentPageIndex r < totalPages comic - 1 ->
   (readingDirection s = ltr ->
    currentPageIndex (nextPage comic s r) = currentPageIndex r + 1) /\
   (readingDirection s = rtl ->
    currentPageIndex (nextPage comic s r) = currentPageIndex r - 1)) /\
  (readingDirection s = ltr -> currentPageIndex r = 0 -> previousPage comic s r = r) /\
  (readingDirection s = ltr -> currentPageIndex r = totalPages comic - 1 ->
   nextPage comic s r = r).
Proof.
  intros Hlayout. unfold nextPage, previousPage, isContinuousMode. rewrite Hlayout.
  repeat split.
  - intros Hd. rewrite Hd.
    destruct (Z.ltb_spec (currentPageIndex r) (totalPages comic - 1)); [reflexivity | lia].
  - intros Hd. rewrite Hd.
    destruct (Z.ltb_spec 0 (currentPageIndex r)); [reflexivity | lia].
  - intros Hd Hk. rewrite Hd.
    destruct (Z.ltb_spec 0 (currentPageIndex r)); [lia | reflexivity].
  - intros Hd Hk. rewrite Hd.
    destruct (Z.ltb_spec (currentPageIndex r) (totalPages comic - 1)); [lia | reflexivity].
Qed.

Lemma navigation_single_page_witness :
  pageLayout (settings_with single ltr) = single /\
  currentPageIndex
    (nextPage ten_page_comic (settings_with single ltr) (mkReader 4 1%Q (0%Q, 0%Q))) = 5 /\
  currentPageIndex
    (nextPage ten_page_comic (settings_with single rtl) (mkReader 4 1%Q (0%Q, 0%Q))) = 3.
Proof.
  split; [reflexivity|]. split.
  - apply (navigation_single_page ten_page_comic (settings_with single ltr)
             (mkReader 4 1%Q (0%Q, 0%Q)) eq_refl); [simpl; lia | reflexivity].
  - apply (navigation_single_page ten_page_comic (settings_with single rtl)
             (mkReader 4 1%Q (0%Q, 0%Q)) eq_refl); [simpl; lia | reflexivity].
Defined.

(** ** preloadPages *)

Section PreloadFacts.

Lemma skipn_S_tl {A : Type} (l : list A) : forall c, skipn (S c) l = tl (skipn c l).
Proof.
  induction l as [|x l IH]; intros [|c]; try reflexivity.
  change (skipn (S (S c)) (x :: l)) with (skipn (S c) l).
  change (skipn (S c) (x :: l)) with (skipn c l). apply IH.
Qed.

Lemma nth_error_skipn_hd {A : Type} (l : list A) : forall c,
  nth_error l c = hd_error (skipn c l).
Proof.
  induction l as [|x l IH]; intros [|c]; try reflexivity. simpl. apply IH.
Qed.

Lemma window_firstn_skipn {A : Type} (l : list A) n : forall c,
  window l c n = firstn n (skipn c l).
Proof.
  unfold window. induction n as [|n IH]; intros c; [reflexivity|].
  cbn [seq flat_map]. rewrite IH, nth_error_skipn_hd, skipn_S_tl.
  destruct (skipn c l) as [|x t]; simpl; [now destruct n | reflexivity].
Qed.

(** With a start and a length that are not negative, [slice] is the window. *)
Lemma slice_window {A : Type} (l : list A) (start count : Z) :
  0 <= start -> 0 <= count ->
  JsArray.slice l start (start + count) = window l (Z.to_nat start) (Z.to_nat count).
Proof.
  intros Hs Hc. rewrite window_firstn_skipn.
  unfold JsArray.slice, JsArray.relativeIndex.
  destruct (Z.ltb_spec start 0); [lia|].
  destruct (Z.ltb_spec (start + count) 0); [lia|].
  destruct (Z_lt_le_dec start (Z.of_nat (length l))) as [Hlt | Hge].
  - rewrite (Z.min_l start) by lia.
    destruct (Z_le_gt_dec (start + count) (Z.of_nat (length l))) as [Hle | Hgt].
    + rewrite Z.min_l by lia. f_equal. lia.
    + rewrite Z.min_r by lia.
      rewrite !firstn_all2; [reflexivity | |]; rewrite length_skipn; lia.
  - rewrite !Z.min_r by lia.
    rewrite !(skipn_all2 l); [now rewrite !firstn_nil | lia | lia].
Qed.

Variable decodes : string -> bool.

Lemma preload_map_loads ps : forall h,
  imageLoads (snd (preload_map decodes ps h)) = imageLoads h ++ map page_url ps /\
  console (snd (preload_map decodes ps h)) = console h /\
  objectURLs (snd (preload_map decodes ps h)) = objectURLs h.
Proof.
  induction ps as [|p ps IH]; intros h.
  - simpl. now rewrite app_nil_r.
  - cbn [preload_map preloadImage].
    destruct (preload_map decodes ps _) as [rs h2] eqn:E.
    match type of E with
    | preload_map _ _ ?h1 = _ => destruct (IH h1) as (Hl & Hc & Hu)
    end.
    rewrite E in Hl, Hc, Hu. cbn [snd imageLoads console objectURLs] in *.
    rewrite Hl, <- app_assoc. auto.
Qed.

End PreloadFacts.

(** A negative start counts from the end of the array: it is not cut to 0. *)
Example slice_negative_start :
  JsArray.slice ["p0"; "p1"] (-1) (-1 + 3) = ["p1"].
Proof. reflexivity. Qed.

(** C7: for every page list, every cursor and every window size that are
    not negative (the cursor 0 and the size 3 when they are omitted), and
    whatever the outcome of each decode, [preloadPages] starts the load of
    exactly the pages of the window [[cursor, cursor + size)] cut to the
    bounds of the list, in order, and fulfils: a rejected decode does not
    make it fail. *)
Theorem preloadPages_window decodes pages (startIndex count : option Z) h :
  0 <= default 0 startIndex -> 0 <= default 3 count ->
  exists h',
    preloadPages decodes pages startIndex count h = (Fulfilled tt, h') /\
    imageLoads h' =
      imageLoads h ++
      map page_url
        (window pages (Z.to_nat (default 0 startIndex)) (Z.to_nat (default 3 count))) /\
    console h' = console h /\
    objectURLs h' = objectURLs h.
Proof.
  intros Hs Hc. unfold preloadPages.
  rewrite (slice_window pages _ _ Hs Hc).
  destruct (preload_map decodes _ h) as [promises h'] eqn:E.
  exists h'. split; [reflexivity|].
  pose proof (preload_map_loads decodes
                (window pages (Z.to_nat (default 0 startIndex)) (Z.to_nat (default 3 count))) h)
    as H.
  rewrite E in H. exact H.
Qed.

Lemma preloadPages_window_witness :
  0 <= default 0 (Some 8) /\ 0 <= default 3 None /\
  exists h',
    preloadPages (fun _ => false) ten_pages (Some 8) None emptyHost = (Fulfilled tt, h') /\
    imageLoads h' = ["blob:8"; "blob:9"].
Proof.
  split; [simpl; lia|]. split; [simpl; lia|].
  destruct (preloadPages_window (fun _ => false) ten_pages (Some 8) None emptyHost)
    as (h' & Hrun & Hloads & _); [simpl; lia | simpl; lia |].
  exists h'. split; [exact Hrun | exact Hloads].
Defined.

(** ** Library: downloadAndOpenComic *)

Section LibraryFacts.

Variable localeCompare : string -> string -> Z.
Variable loadAsync : ArrayBuffer -> Settled ZipFiles.
Variable downloadFile : string -> Settled ArrayBuffer.

Lemma open_try_comic comic st h c st' h' :
  open_try localeCompare loadAsync downloadFile comic st h = (Fulfilled c, st', h') ->
  totalPages c = Z.of_nat (length (pages c)) /\
  currentPage c =
    match getComicProgress (comic_id comic) st with
    | JsObject.Own progress => Some (progress_currentPage progress)
    | JsObject.Inherited _ => None
    | JsObject.Null => Some 0
    end.
Proof.
  unfold open_try.
  destruct (downloadFile (fileId comic)) as [arrayBuffer | e]; [|discriminate].
  destruct (extractPagesFromCBR _ _ _ _ _) as [[extracted | e] h1]; [|discriminate].
  cbv zeta. simpl.
  destruct (getComicProgress (comic_id comic) st) as [progress | key |].
  all: intros H; injection H as H1 H2 H3.
  all: subst c; split; reflexivity.
Qed.

Lemma downloadAndOpenComic_opened comic lib c lib' :
  downloadAndOpenComic localeCompare loadAsync downloadFile comic lib = (Some c, lib') ->
  exists st' h',
    open_try localeCompare loadAsync downloadFile comic (store lib) (host lib)
    = (Fulfilled c, st', h').
Proof.
  unfold downloadAndOpenComic.
  destruct (decide (comic_id comic ∈ downloadingComics lib)); [discriminate|].
  destruct (open_try _ _ _ _ _ _) as [[[c' | e] st'] h']; [|discriminate].
  intros H. injection H as H1 H2. subst c'. eauto.
Qed.

End LibraryFacts.

(** A comic id that names no property of [Object.prototype] is read from
    [allProgress] as a saved record or as nothing. *)
Lemma getComicProgress_plain comicId st :
  ~ In comicId JsObject.Object_prototype ->
  forall key, getComicProgress comicId st <> JsObject.Inherited key.
Proof.
  intros Hid key. unfold getComicProgress, JsObject.get.
  destruct (_ !! comicId); [discriminate|].
  destruct (existsb (String.eqb comicId) JsObject.Object_prototype) eqn:E; [|discriminate].
  exfalso. apply Hid. apply existsb_exists in E as (k & Hk & Ek).
  apply String.eqb_eq in Ek. now subst.
Qed.

(** C3, as stated, fails: the archive now has three pages, the saved
    progress says [currentPage = 7]; the comic that is opened has
    [totalPages = 3] and [currentPage = 7], outside of [0, totalPages). *)
Lemma downloadAndOpenComic_stale_progress :
  exists c lib',
    downloadAndOpenComic codeUnitCompare (loadAsync_as archive_mixed) downloadFile_empty
      listed_comic library_with_progress = (Some c, lib') /\
    length (pages c) = 3%nat /\ totalPages c = 3 /\ currentPage c = Some 7 /\
    ~ comic_invariant c.
Proof.
  destruct (downloadAndOpenComic codeUnitCompare (loadAsync_as archive_mixed)
              downloadFile_empty listed_comic library_with_progress) as [[c|] lib'] eqn:E;
    vm_compute in E; [|discriminate].
  exists c, lib'. split; [reflexivity|].
  injection E as <- _. repeat split.
  unfold comic_invariant. simpl. intros [_ (k & Hk & Hr)]. injection Hk as <-. lia.
Qed.

(** C3, amended: the comic handed to the reader has [totalPages] equal to
    the length of its pages; when its id names no property of
    [Object.prototype], its [currentPage] is the saved one when a progress
    record is saved for the comic, as it is, and 0 otherwise; so
    [0 <= currentPage < totalPages] holds when there is a page and no saved
    record, or when the saved [currentPage] lies in [0, totalPages). *)
Theorem downloadAndOpenComic_comic localeCompare loadAsync downloadFile comic lib c lib' :
  ~ In (comic_id comic) JsObject.Object_prototype ->
  downloadAndOpenComic localeCompare loadAsync downloadFile comic lib = (Some c, lib') ->
  totalPages c = Z.of_nat (length (pages c)) /\
  currentPage c =
    match getComicProgress (comic_id comic) (store lib) with
    | JsObject.Own progress => Some (progress_currentPage progress)
    | _ => Some 0
    end /\
  (match getComicProgress (comic_id comic) (store lib) with
   | JsObject.Own progress =>
       0 <= progress_currentPage progress < Z.of_nat (length (pages c))
   | _ => pages c <> []
   end <-> comic_invariant c).
Proof.
  intros Hid Hopen.
  destruct (downloadAndOpenComic_opened _ _ _ _ _ _ _ Hopen) as (st' & h' & Htry).
  destruct (open_try_comic _ _ _ _ _ _ _ _ _ Htry) as [Htotal Hcur].
  pose proof (getComicProgress_plain (comic_id comic) (store lib) Hid) as Hplain.
  split; [exact Htotal|].
  unfold comic_invariant. rewrite Hcur, Htotal.
  destruct (getComicProgress (comic_id comic) (store lib)) as [progress | key |].
  - split; [reflexivity|]. split.
    + intros Hr. split; [reflexivity|]. eauto.
    + intros [_ (k & Hk & Hr)]. now injection Hk as <-.
  - exfalso. now apply (Hplain key).
  - split; [reflexivity|].
    destruct (pages c) as [|p ps]; simpl length.
    + split; [congruence|]. intros [_ (k & Hk & Hr)]. lia.
    + split; [|discriminate]. intros _. split; [reflexivity|].
      exists 0. split; [reflexivity | lia].
Qed.

Lemma downloadAndOpenComic_comic_witness :
  ~ In (comic_id listed_comic) JsObject.Object_prototype /\
  exists c lib',
    downloadAndOpenComic codeUnitCompare (loadAsync_as archive_mixed) downloadFile_empty
      listed_comic (mkLibrary ∅ None emptyStore emptyHost) = (Some c, lib') /\
    comic_invariant c.
Proof.
  assert (Hid : ~ In (comic_id listed_comic) JsObject.Object_prototype)
    by (simpl; intuition discriminate).
  split; [exact Hid|].
  destruct (downloadAndOpenComic codeUnitCompare (loadAsync_as archive_mixed)
              downloadFile_empty listed_comic (mkLibrary ∅ None emptyStore emptyHost))
    as [[c|] lib'] eqn:E; vm_compute in E; [|discriminate].
  exists c, lib'. split; [reflexivity|].
  apply (downloadAndOpenComic_comic codeUnitCompare (loadAsync_as archive_mixed)
           downloadFile_empty listed_comic (mkLibrary ∅ None emptyStore emptyHost) c lib' Hid).
  - vm_compute. exact E.
  - injection E as <- _. vm_compute. discriminate.
Defined.

(** A comic whose id names a property of [Object.prototype] and has no
    saved record is opened with a [currentPage] that is [undefined]: what
    [getComicProgress] returns counts as a saved record and has no
    fields. *)
Example downloadAndOpenComic_inherited_progress :
  exists c lib',
    downloadAndOpenComic codeUnitCompare (loadAsync_as archive_mixed) downloadFile_empty
      (mkComic "constructor" "Comic" "file" "series" [] (Some 0) 0 None)
      (mkLibrary ∅ None emptyStore emptyHost) = (Some c, lib') /\
    totalPages c = 3 /\ currentPage c = None /\ lastRead c = None.
Proof.
  destruct (downloadAndOpenComic codeUnitCompare (loadAsync_as archive_mixed)
              downloadFile_empty _ (mkLibrary ∅ None emptyStore emptyHost))
    as [[c|] lib'] eqn:E; vm_compute in E; [|discriminate].
  exists c, lib'. split; [reflexivity|].
  injection E as <- _. repeat split.
Qed.

(** ** ComicReader: zoom and pan *)

Section ZoomFacts.

Variable s : ReadingSettings.

Lemma Qle_bool_false x y : Qle_bool x y = false -> (y < x)%Q.
Proof.
  intros H. apply Qnot_le_lt. intros Hle. apply Qle_bool_iff in Hle. congruence.
Qed.

Lemma clamp_bounds x : zoom_in_range (Qmax (1 # 2) (Qmin 5 x)).
Proof.
  unfold zoom_in_range.
  destruct (Q.max_spec (1 # 2) (Qmin 5 x)) as [[H E] | [H E]];
    destruct (Q.min_spec 5 x) as [[H' E'] | [H' E']]; split; lra.
Qed.

Lemma zoomIn_range seen r :
  zoom_in_range seen -> zoom_in_range (zoom r) -> zoom_in_range (zoom (zoomIn s seen r)).
Proof.
  unfold zoom_in_range, zoomIn. intros [Hlo Hhi] Hr.
  destruct (isContinuousMode s); [exact Hr|]. cbn [zoom].
  destruct (Q.min_spec 5 (seen * (3 # 2))) as [[H E] | [H E]]; split; lra.
Qed.

Lemma zoomOut_range seen r :
  zoom_in_range seen -> zoom_in_range (zoom r) -> zoom_in_range (zoom (zoomOut s seen r)).
Proof.
  unfold zoom_in_range, zoomOut. intros [Hlo Hhi] Hr.
  destruct (isContinuousMode s); [exact Hr|].
  assert (Hz : ((1 # 2) <= Qmax (1 # 2) (seen / (3 # 2)) /\
                Qmax (1 # 2) (seen / (3 # 2)) <= 5)%Q).
  { destruct (Q.max_spec (1 # 2) (seen / (3 # 2))) as [[H E] | [H E]]; split; try lra.
    rewrite E. apply Qle_shift_div_r; lra. }
  destruct (Qle_bool _ 1); exact Hz.
Qed.

(** A zoom that is set together with the reset of the offset when it is at
    most 1. *)
Lemma clamped_centered i z p :
  centered_unless_magnified
    (if Qle_bool z 1 then mkReader i z (0%Q, 0%Q) else mkReader i z p).
Proof.
  unfold centered_unless_magnified. destruct (Qle_bool z 1) eqn:E; [reflexivity|].
  apply Qle_bool_false in E. cbn [zoom]. intros Hle. lra.
Qed.

Lemma zoomOut_centered seen r :
  centered_unless_magnified r -> centered_unless_magnified (zoomOut s seen r).
Proof.
  intros Hr. unfold zoomOut. destruct (isContinuousMode s); [exact Hr|].
  apply clamped_centered.
Qed.

Lemma onPinch_range scale r :
  zoom_in_range (zoom r) -> zoom_in_range (zoom (onPinch s scale r)).
Proof.
  intros Hr. unfold onPinch. destruct (isContinuousMode s); [exact Hr|].
  destruct (Qle_bool _ 1); apply clamp_bounds.
Qed.

Lemma onPinch_centered scale r :
  centered_unless_magnified r -> centered_unless_magnified (onPinch s scale r).
Proof.
  intros Hr. unfold onPinch. destruct (isContinuousMode s); [exact Hr|].
  apply clamped_centered.
Qed.

Lemma onWheel_range dy ctrlKey r :
  zoom_in_range (zoom r) -> zoom_in_range (zoom (onWheel s dy ctrlKey r)).
Proof.
  intros Hr. unfold onWheel. destruct (isContinuousMode s); [exact Hr|].
  destruct ctrlKey; [|exact Hr].
  destruct (Qle_bool _ 1); apply clamp_bounds.
Qed.

Lemma onWheel_centered dy ctrlKey r :
  centered_unless_magnified r -> centered_unless_magnified (onWheel s dy ctrlKey r).
Proof.
  intros Hr. unfold onWheel. destruct (isContinuousMode s); [exact Hr|].
  destruct ctrlKey; [|exact Hr]. apply clamped_centered.
Qed.

Lemma onDrag_zoom x y pinching r : zoom (onDrag s x y pinching r) = zoom r.
Proof. unfold onDrag. now destruct (_ || _). Qed.

Lemma onDrag_centered x y pinching r :
  centered_unless_magnified r -> centered_unless_magnified (onDrag s x y pinching r).
Proof.
  intros Hr. unfold onDrag.
  destruct pinching; [exact Hr|]. cbn [orb].
  destruct (Qle_bool (zoom r) 1) eqn:E; [exact Hr|]. cbn [orb].
  destruct (isContinuousMode s); [exact Hr|].
  apply Qle_bool_false in E. unfold centered_unless_magnified. cbn [zoom]. intros Hle. lra.
Qed.

(** The [zoomIn] of the current render does not bring the zoom down. *)
Lemma zoomIn_centered r :
  zoom_in_range (zoom r) ->
  centered_unless_magnified r -> centered_unless_magnified (zoomIn s (zoom r) r).
Proof.
  unfold zoom_in_range, centered_unless_magnified, zoomIn. intros [Hlo Hhi] Hr.
  destruct (isContinuousMode s); [exact Hr|]. cbn [zoom position].
  destruct (Q.min_spec 5 (zoom r * (3 # 2))) as [[H E] | [H E]]; intros Hle; apply Hr; lra.
Qed.

Lemma applyZoom_range op r :
  zoom_in_range (zoom r) -> zoom_in_range (zoom (applyZoom s op r)).
Proof.
  intros Hr. destruct op; simpl.
  - now apply zoomIn_range.
  - now apply zoomOut_range.
  - now apply onPinch_range.
  - now apply onWheel_range.
Qed.

Lemma applyZoom_centered op r :
  zoom_in_range (zoom r) ->
  centered_unless_magnified r -> centered_unless_magnified (applyZoom s op r).
Proof.
  intros Hz Hr. destruct op; simpl.
  - now apply zoomIn_centered.
  - now apply zoomOut_centered.
  - now apply onPinch_centered.
  - now apply onWheel_centered.
Qed.

Lemma navigation_view comic r r' :
  r' = nextPage comic s r \/ r' = previousPage comic s r ->
  r' = r \/ (zoom r' = 1%Q /\ position r' = (0%Q, 0%Q)).
Proof.
  intros [-> | ->]; unfold nextPage, previousPage;
    destruct (isContinuousMode s); try (now left);
    destruct (readingDirection s);
    match goal with |- context [if ?b then _ else _] => destruct b end;
    try (now left); right; split; reflexivity.
Qed.

Lemma handleScroll_view imageRefs scrollTop containerHeight r :
  zoom (handleScroll s imageRefs scrollTop containerHeight r) = zoom r /\
  position (handleScroll s imageRefs scrollTop containerHeight r) = position r.
Proof.
  unfold handleScroll. destruct (isContinuousMode s); [|now split].
  destruct (centeredImage _ _ _ _); [|now split].
  destruct (_ =? _); now split.
Qed.

End ZoomFacts.

Lemma one_in_range : zoom_in_range 1.
Proof. unfold zoom_in_range. split; lra. Qed.

(** What the handler of an event keeps: the zoom in its bounds, given that
    the zoom that the keydown listener has seen is in them too; and, for
    every event but the key that zooms in, no offset without
    magnification. *)
Lemma react_range comic e x :
  zoom_in_range (zoom (reader x)) -> zoom_in_range (keydownZoom x) ->
  zoom_in_range (zoom (reader (react comic e x))) /\
  keydownZoom (react comic e x) = keydownZoom x.
Proof.
  intros Hz Hk. destruct e; cbn [react with_reader reader keydownZoom toggleFullscreen];
    try (split; [|reflexivity]).
  - now apply applyZoom_range.
  - now apply onWheel_range.
  - now rewrite onDrag_zoom.
  - destruct (navigation_view (settings x) comic (reader x) _ (or_introl eq_refl))
      as [-> | [-> _]]; [exact Hz | exact one_in_range].
  - destruct (navigation_view (settings x) comic (reader x) _ (or_intror eq_refl))
      as [-> | [-> _]]; [exact Hz | exact one_in_range].
  - exact one_in_range.
  - now rewrite (proj1 (handleScroll_view _ _ _ _ _)).
  - now apply zoomIn_range.
  - now apply zoomOut_range.
  - unfold toggleFullscreen.
    destruct (negb (fullscreenElement x)); cbn [reader keydownZoom]; now split.
  - exact Hz.
  - exact Hz.
Qed.

Lemma react_centered comic e x :
  is_key_zoomIn e = false ->
  zoom_in_range (zoom (reader x)) ->
  centered_unless_magnified (reader x) ->
  centered_unless_magnified (reader (react comic e x)).
Proof.
  intros He Hz Hc. destruct e; try discriminate;
    cbn [react with_reader reader toggleFullscreen].
  - now apply applyZoom_centered.
  - now apply onWheel_centered.
  - now apply onDrag_centered.
  - destruct (navigation_view (settings x) comic (reader x) _ (or_introl eq_refl))
      as [-> | [_ E]]; [exact Hc | intros _; exact E].
  - destruct (navigation_view (settings x) comic (reader x) _ (or_intror eq_refl))
      as [-> | [_ E]]; [exact Hc | intros _; exact E].
  - intros _. reflexivity.
  - unfold centered_unless_magnified.
    destruct (handleScroll_view (settings x) imageRefs scrollTop containerHeight (reader x))
      as [-> ->]. exact Hc.
  - now apply zoomOut_centered.
  - unfold toggleFullscreen. destruct (negb (fullscreenElement x)); exact Hc.
  - exact Hc.
  - exact Hc.
Qed.

Lemma step_reader comic e x : reader (step comic e x) = reader (react comic e x).
Proof. unfold step. now destruct (keydown_effect_runs _ _ _). Qed.

Lemma step_range comic e x :
  zoom_in_range (zoom (reader x)) -> zoom_in_range (keydownZoom x) ->
  zoom_in_range (zoom (reader (step comic e x))) /\
  zoom_in_range (keydownZoom (step comic e x)).
Proof.
  intros Hz Hk. destruct (react_range comic e x Hz Hk) as [Hz' Hk'].
  rewrite step_reader. split; [exact Hz'|].
  unfold step. destruct (keydown_effect_runs _ _ _); cbn [keydownZoom]; [exact Hz'|].
  now rewrite Hk'.
Qed.

Lemma run_states comic events : forall x,
  zoom_in_range (zoom (reader x)) -> zoom_in_range (keydownZoom x) ->
  zoom_in_range (zoom (reader (run comic events x))) /\
  zoom_in_range (keydownZoom (run comic events x)) /\
  (existsb is_key_zoomIn events = false ->
   centered_unless_magnified (reader x) ->
   centered_unless_magnified (reader (run comic events x))).
Proof.
  induction events as [|e events IH]; intros x Hz Hk; cbn [run existsb].
  - auto.
  - destruct (step_range comic e x Hz Hk) as [Hz' Hk'].
    destruct (IH (step comic e x) Hz' Hk') as (H1 & H2 & H3).
    split; [exact H1|]. split; [exact H2|].
    intros He Hc. apply orb_false_iff in He as [He Hes].
    apply H3; [exact Hes|]. rewrite step_reader. now apply react_centered.
Qed.

Lemma initSession_states comic s x0 :
  initSession comic s = Some x0 ->
  zoom (reader x0) = 1%Q /\ keydownZoom x0 = 1%Q /\ position (reader x0) = (0%Q, 0%Q).
Proof.
  unfold initSession, initReader. destruct (currentPage comic); [|discriminate].
  intros [= <-]. auto.
Qed.

(** C6: the key + runs the [zoomIn] of the render that registered the
    keydown listener, which has no reset of the offset. After two clicks on
    the zoom-out button the zoom is 0.5; the key f toggles the fullscreen
    flag, so that the keydown effect runs and its listener sees the zoom
    0.5; two clicks on the zoom-in button bring the zoom to 1.125, where a
    drag sets the offset (10, 4); the key + then sets the zoom
    0.5 * 1.5 = 0.75 and leaves the offset (10, 4): the resulting zoom is at
    most 1 and the offset is not reset. *)
Theorem keydown_zoomIn_keeps_offset :
  exists x0,
    initSession ten_page_comic (settings_with single ltr) = Some x0 /\
    let x := run ten_page_comic
               [EvZoom OpZoomOut; EvZoom OpZoomOut; EvToggleFullscreen;
                EvZoom OpZoomIn; EvZoom OpZoomIn; EvDrag 10 4 false; EvKeyZoomIn] x0 in
    (zoom (reader x) == 3 # 4)%Q /\ position (reader x) = (10%Q, 4%Q) /\
    ~ centered_unless_magnified (reader x).
Proof.
  eexists. split; [reflexivity|]. cbv zeta.
  split; [vm_compute; reflexivity|]. split; [vm_compute; reflexivity|].
  unfold centered_unless_magnified. intros H.
  assert (E : position (reader (run ten_page_comic
               [EvZoom OpZoomOut; EvZoom OpZoomOut; EvToggleFullscreen;
                EvZoom OpZoomIn; EvZoom OpZoomIn; EvDrag 10 4 false; EvKeyZoomIn]
               (mkSession (mkReader 0 1 (0%Q, 0%Q)) (settings_with single ltr) false false 1)))
             = (0%Q, 0%Q)).
  { apply H. vm_compute. discriminate. }
  vm_compute in E. discriminate.
Qed.

(* ================================================================= *)
(** * Further properties *)

(** ** The runs of a name, again *)

Lemma match_runs_concat s : concat_runs (match_runs s) = s.
Proof.
  induction s as [|c s IH]; [reflexivity|].
  cbn [match_runs]. pose proof (match_runs_parts s) as Hruns.
  destruct (match_runs s) as [|[|d p] ps].
  - simpl in IH. now subst.
  - exfalso. inversion Hruns as [|? ? [H | [H _]] _]; [discriminate | congruence].
  - destruct (Bool.eqb (isDigit c) (isDigit d)).
    + cbn [concat_runs] in *. rewrite append_cons. now rewrite IH.
    + cbn [concat_runs] in *. rewrite append_cons, append_nil. now rewrite IH.
Qed.

Lemma test_digits_grow c d p :
  isDigit c = isDigit d ->
  test_digits (String c (String d p)) = test_digits (String d p).
Proof.
  intros E. simpl. rewrite E. now destruct (isDigit d).
Qed.

Lemma test_digits_head d p : is_run (String d p) -> test_digits (String d p) = isDigit d.
Proof.
  intros [H | [_ H]].
  - rewrite H. simpl in H. apply andb_true_iff in H as [H _]. now rewrite H.
  - unfold nondigit_run in H. simpl in H. apply andb_true_iff in H as [H _].
    apply negb_true_iff in H. simpl. now rewrite H.
Qed.

Lemma match_runs_alternating s : alternating (match_runs s).
Proof.
  induction s as [|c s IH]; [exact I|].
  cbn [match_runs]. pose proof (match_runs_parts s) as Hruns.
  destruct (match_runs s) as [|[|d p] ps]; [exact I | exact I |].
  inversion Hruns as [|? ? Hd _]; subst.
  destruct (Bool.eqb (isDigit c) (isDigit d)) eqn:E.
  - apply Bool.eqb_prop in E.
    destruct ps as [|q ps]; [exact I|].
    destruct IH as [Hne IH]. split; [|exact IH].
    now rewrite test_digits_grow.
  - split; [|exact IH].
    rewrite (test_digits_head d p Hd). simpl. rewrite andb_true_r.
    intros E'. rewrite E', Bool.eqb_reflx in E. discriminate.
Qed.

(** X1: the runs [naturalSort] splits a name into lose nothing: put end to
    end they give the name back; none is empty, each is all digits or all
    non-digits, and two runs in a row are of different kinds, so every run
    is maximal. *)
Theorem match_runs_decomposition s :
  concat_runs (match_runs s) = s /\
  Forall is_run (match_runs s) /\
  alternating (match_runs s).
Proof.
  split; [apply match_runs_concat|].
  split; [apply match_runs_parts | apply match_runs_alternating].
Qed.

(** ** isImageFile, again *)

Lemma lowerChar_idem c : lowerChar (lowerChar c) = lowerChar c.
Proof. destruct c as [[] [] [] [] [] [] [] []]; vm_compute; reflexivity. Qed.

Lemma toLowerCase_idem s : toLowerCase (toLowerCase s) = toLowerCase s.
Proof.
  induction s as [|c s IH]; simpl; [reflexivity|]. now rewrite lowerChar_idem, IH.
Qed.

(** X2: among the names made of Latin-1 code units (the strings of the
    embedding, on which lower-casing keeps the length of a name),
    [isImageFile] accepts exactly those that end in .jpg, .jpeg, .png, .gif,
    .bmp or .webp written in any case; the case of the whole name does not
    matter; a name without a dot is never an image. *)
Theorem isImageFile_extension fileName :
  (isImageFile fileName = true <-> has_image_extension fileName) /\
  isImageFile (toLowerCase fileName) = isImageFile fileName /\
  (lastIndexOf_dot fileName = -1 -> isImageFile fileName = false).
Proof.
  split; [apply isImageFile_spec|]. split.
  - unfold isImageFile. now rewrite lastIndexOf_dot_lower, toLowerCase_idem.
  - intros Hdot. unfold isImageFile, substring_from. rewrite Hdot. simpl drop.
    destruct (existsb _ imageExtensions) eqn:E; [exfalso | reflexivity].
    apply In_imageExtensions_existsb in E.
    assert (H0 : lastIndexOf_dot (toLowerCase fileName) = 0).
    { simpl in E. destruct E as [<- | [<- | [<- | [<- | [<- | [<- | []]]]]]]; reflexivity. }
    rewrite lastIndexOf_dot_lower in H0. lia.
Qed.

Lemma isImageFile_extension_witness :
  lastIndexOf_dot "README" = -1 /\ isImageFile "README" = false.
Proof.
  split; [reflexivity|].
  apply (isImageFile_extension "README"). reflexivity.
Defined.

(** ** Navigation, again *)

(** X3: [nextPage] and [previousPage] keep a cursor that points at a page
    pointing at a page, under every setting. *)
Theorem navigation_keeps_cursor comic s r :
  cursor_in_range comic r ->
  cursor_in_range comic (nextPage comic s r) /\
  cursor_in_range comic (previousPage comic s r).
Proof.
  unfold cursor_in_range, nextPage, previousPage. intros Hr.
  destruct (isContinuousMode s); [split; exact Hr|].
  destruct (readingDirection s);
    destruct (Z.ltb_spec 0 (currentPageIndex r));
    destruct (Z.ltb_spec (currentPageIndex r) (totalPages comic - 1));
    cbn [currentPageIndex resetView setCurrentPageIndex]; lia.
Qed.

Lemma navigation_keeps_cursor_witness :
  cursor_in_range ten_page_comic (mkReader 9 1%Q (0%Q, 0%Q)) /\
  cursor_in_range ten_page_comic
    (nextPage ten_page_comic (settings_with single ltr) (mkReader 9 1%Q (0%Q, 0%Q))).
Proof.
  assert (H : cursor_in_range ten_page_comic (mkReader 9 1%Q (0%Q, 0%Q)))
    by (unfold cursor_in_range; simpl; lia).
  split; [exact H|].
  apply (navigation_keeps_cursor ten_page_comic (settings_with single ltr) _ H).
Defined.

(** X4: a navigation step either leaves the reader as it is or moves the
    cursor by exactly one page and resets the view (zoom 1, no pan offset);
    in continuous mode it always leaves the reader as it is. *)
Theorem navigation_step comic s r :
  (forall r', r' = nextPage comic s r \/ r' = previousPage comic s r ->
     r' = r \/
     ((currentPageIndex r' = currentPageIndex r + 1 \/
       currentPageIndex r' = currentPageIndex r - 1) /\
      zoom r' = 1%Q /\ position r' = (0%Q, 0%Q))) /\
  (pageLayout s = continuous ->
   nextPage comic s r = r /\ previousPage comic s r = r).
Proof.
  split.
  - intros r' [-> | ->]; unfold nextPage, previousPage;
      destruct (isContinuousMode s); try (now left);
      destruct (readingDirection s);
      match goal with |- context [if ?b then _ else _] => destruct b end;
      try (now left); right; cbn; auto.
  - intros Hl. unfold nextPage, previousPage, isContinuousMode. now rewrite Hl.
Qed.

(** X5: the reading direction mirrors the two actions: [nextPage] under rtl
    is [previousPage] under ltr, and conversely; and when the cursor points
    at a page, a [nextPage] that moved it is undone by [previousPage], and a
    [previousPage] that moved it by [nextPage]. *)
Theorem navigation_mirror comic s r :
  nextPage comic (with_direction s rtl) r = previousPage comic (with_direction s ltr) r /\
  previousPage comic (with_direction s rtl) r = nextPage comic (with_direction s ltr) r /\
  (cursor_in_range comic r ->
   (currentPageIndex (nextPage comic s r) <> currentPageIndex r ->
    currentPageIndex (previousPage comic s (nextPage comic s r)) = currentPageIndex r) /\
   (currentPageIndex (previousPage comic s r) <> currentPageIndex r ->
    currentPageIndex (nextPage comic s (previousPage comic s r)) = currentPageIndex r)).
Proof.
  split; [reflexivity|]. split; [reflexivity|].
  unfold cursor_in_range. intros Hr.
  unfold nextPage, previousPage.
  destruct (isContinuousMode s); [split; intros H; congruence|].
  destruct (readingDirection s);
    destruct (Z.ltb_spec 0 (currentPageIndex r));
    destruct (Z.ltb_spec (currentPageIndex r) (totalPages comic - 1));
    cbn [currentPageIndex resetView setCurrentPageIndex];
    split; intros Hne; try congruence;
    repeat match goal with
      | |- context [?a <? ?b] => destruct (Z.ltb_spec a b)
      end;
    cbn [currentPageIndex resetView setCurrentPageIndex]; lia.
Qed.

Lemma navigation_mirror_witness :
  cursor_in_range ten_page_comic (mkReader 4 (2 # 1) (3%Q, 0%Q)) /\
  currentPageIndex
    (previousPage ten_page_comic (settings_with single rtl)
       (nextPage ten_page_comic (settings_with single rtl) (mkReader 4 (2 # 1) (3%Q, 0%Q))))
  = 4.
Proof.
  assert (H : cursor_in_range ten_page_comic (mkReader 4 (2 # 1) (3%Q, 0%Q)))
    by (unfold cursor_in_range; simpl; lia).
  split; [exact H|].
  destruct (navigation_mirror ten_page_comic (settings_with single rtl)
              (mkReader 4 (2 # 1) (3%Q, 0%Q))) as (_ & _ & Hundo).
  apply (Hundo H). simpl. lia.
Defined.

(** ** Display handles *)

Lemma ofNat_inj a b : ofNat a = ofNat b -> a = b.
Proof.
  unfold ofNat. intros H.
  apply (f_equal NilEmpty.uint_of_string) in H.
  rewrite !NilEmpty.usu in H. injection H as H.
  now apply Unsigned.to_uint_inj.
Qed.

Lemma handle_inj n : Injective (fun j => "blob:" +:+ ofNat (n + j)).
Proof.
  intros a b H. cbv beta in H.
  assert (E : ofNat (n + a) = ofNat (n + b)) by (now injection H).
  apply ofNat_inj in E. lia.
Qed.

Lemma extract_loop_handles files comicId rest : forall i acc h,
  exists new h',
    extract_loop files comicId rest i acc h = (acc ++ new, h') /\
    map page_url new =
      map (fun j => "blob:" +:+ ofNat (length (objectURLs h) + j)) (seq 0 (length new)) /\
    objectURLs h' = objectURLs h ++ map page_blob new.
Proof.
  induction rest as [|name rest IH]; intros i acc h.
  - exists [], h. simpl. now rewrite !app_nil_r.
  - cbn [extract_loop].
    destruct (files_get files name) as [[d [blob | reason]]|].
    + cbn [createObjectURL].
      match goal with
      | |- context [extract_loop _ _ _ _ (acc ++ [?p]) ?h1] =>
          destruct (IH (S i) (acc ++ [p]) h1) as (new & h' & Hrun & Hurl & Hreg);
          exists (p :: new), h'
      end.
      cbn [objectURLs] in Hurl, Hreg. rewrite length_app in Hurl. cbn [length] in Hurl.
      split; [rewrite Hrun, <- app_assoc; reflexivity|]. split.
      * cbn [length seq map page_url]. rewrite Nat.add_0_r. f_equal.
        rewrite Hurl, <- seq_shift, map_map.
        apply map_ext. intros j. do 2 f_equal. lia.
      * rewrite Hreg, <- app_assoc. reflexivity.
    + destruct (IH (S i) acc (log (warn_extract name reason) h))
        as (new & h' & Hrun & Hurl & Hreg).
      exists new, h'. auto.
    + destruct (IH (S i) acc (log (warn_extract name "TypeError") h))
        as (new & h' & Hrun & Hurl & Hreg).
      exists new, h'. auto.
Qed.

Lemma startsWith_append prefix s : startsWith (prefix +:+ s) prefix = true.
Proof.
  induction prefix as [|c prefix IH]; [now destruct s|].
  rewrite append_cons. simpl. now rewrite Ascii.eqb_refl, IH.
Qed.

(** X6: the pages of one extraction have pairwise different display
    handles; the registry of object URLs gains exactly one entry per page,
    the blob of that page, in page order (an entry that fails allocates
    nothing); and [cleanupPageUrls] revokes every one of these handles,
    once. *)
Theorem extraction_handles localeCompare loadAsync arrayBuffer comicId h files :
  loadAsync arrayBuffer = Fulfilled files ->
  exists pages h',
    extractPagesFromCBR localeCompare loadAsync arrayBuffer comicId h = (Fulfilled pages, h') /\
    NoDup (map page_url pages) /\
    objectURLs h' = objectURLs h ++ map page_blob pages /\
    cleanupPageUrls pages = map page_url pages.
Proof.
  intros Hload. unfold extractPagesFromCBR. rewrite Hload.
  destruct (extract_loop_handles files comicId (imageFiles localeCompare files) 0 [] h)
    as (pages & h' & Hrun & Hurl & Hreg).
  rewrite Hrun. exists pages, h'. split; [reflexivity|]. split; [|split; [exact Hreg|]].
  - rewrite Hurl. apply NoDup_ListNoDup.
    apply Injective_map_NoDup; [apply handle_inj | apply seq_NoDup].
  - unfold cleanupPageUrls.
    assert (Hall : Forall (fun u => startsWith u "blob:" = true) (map page_url pages)).
    { rewrite Hurl. apply Forall_forall. intros u Hu. apply list_elem_of_In in Hu.
      apply in_map_iff in Hu as (j & <- & _). apply startsWith_append. }
    clear Hurl Hrun Hreg. induction pages as [|p pages IH]; [reflexivity|].
    cbn [map flat_map] in *. apply Forall_cons in Hall as [Hp Hall].
    rewrite Hp. cbn [app]. f_equal. now apply IH.
Qed.

Lemma extraction_handles_witness :
  loadAsync_as archive_corrupt [] = Fulfilled archive_corrupt /\
  exists pages h',
    extractPagesFromCBR codeUnitCompare (loadAsync_as archive_corrupt) [] "comic" emptyHost
      = (Fulfilled pages, h') /\
    objectURLs h' = map page_blob pages.
Proof.
  split; [reflexivity|].
  destruct (extraction_handles codeUnitCompare (loadAsync_as archive_corrupt) []
              "comic" emptyHost archive_corrupt eq_refl)
    as (pages & h' & Hrun & _ & Hreg & _).
  exists pages, h'. split; [exact Hrun | exact Hreg].
Defined.

(** [cleanupPageUrls] revokes the URLs that start with "blob:" and no
    other. *)
Lemma cleanupPageUrls_only_blobs pages u :
  In u (cleanupPageUrls pages) <->
  (exists page, In page pages /\ page_url page = u) /\ startsWith u "blob:" = true.
Proof.
  unfold cleanupPageUrls. rewrite in_flat_map. split.
  - intros (page & Hin & Hu).
    destruct (startsWith (page_url page) "blob:") eqn:E; [|destruct Hu].
    destruct Hu as [<- | []]. eauto.
  - intros [(page & Hin & <-) Hs]. exists page. split; [exact Hin|].
    rewrite Hs. now left.
Qed.

(** ** Progress as a percentage *)

Lemma inject_Z_pos b : 0 < b -> (0 < inject_Z b)%Q.
Proof. intros H. change (inject_Z 0 < inject_Z b)%Q. now rewrite <- Zlt_Qlt. Qed.

Lemma inject_Z_nonneg a : 0 <= a -> (0 <= inject_Z a)%Q.
Proof. intros H. change (inject_Z 0 <= inject_Z a)%Q. now rewrite <- Zle_Qle. Qed.

Lemma ratio_bounds a b :
  0 <= a -> a < b ->
  (0 <= inject_Z a / inject_Z b /\ inject_Z a / inject_Z b < 1)%Q.
Proof.
  intros Ha Hab.
  assert (Hb : (0 < inject_Z b)%Q) by (apply inject_Z_pos; lia).
  split.
  - apply Qle_shift_div_l; [exact Hb|]. rewrite Qmult_0_l.
    now apply inject_Z_nonneg.
  - apply Qlt_shift_div_r; [exact Hb|]. rewrite Qmult_1_l.
    rewrite <- Zlt_Qlt. exact Hab.
Qed.

(** X7: the percentage [comicService.getComicProgress] reports is 0 for a
    comic without pages (no division by zero), and lies in [0, 100) when
    [currentPage] is a number with [0 <= currentPage < totalPages]; turning
    to a page with [updateComicProgress] changes neither the pages nor their
    count. *)
Theorem getComicProgress_percent comic :
  (totalPages comic = 0 -> ComicService.getComicProgress comic = Some 0%Q) /\
  (forall k, currentPage comic = Some k -> 0 <= k < totalPages comic ->
   exists q, ComicService.getComicProgress comic = Some q /\ (0 <= q /\ q < 100)%Q) /\
  (forall pageIndex now,
     0 <= pageIndex < totalPages comic ->
     let comic' := ComicService.updateComicProgress comic pageIndex now in
     pages comic' = pages comic /\ totalPages comic' = totalPages comic /\
     exists q, ComicService.getComicProgress comic' = Some q /\ (0 <= q /\ q < 100)%Q).
Proof.
  assert (Hb : forall c k, currentPage c = Some k -> 0 <= k < totalPages c ->
    exists q, ComicService.getComicProgress c = Some q /\ (0 <= q /\ q < 100)%Q).
  { intros c k Hk Hc. unfold ComicService.getComicProgress. rewrite Hk.
    destruct (Z.eqb_spec (totalPages c) 0); [lia|].
    destruct (ratio_bounds k (totalPages c)) as [H0 H1]; try lia.
    eexists. split; [reflexivity|]. split; lra. }
  split; [|split].
  - intros H0. unfold ComicService.getComicProgress. now rewrite H0.
  - apply Hb.
  - intros pageIndex now Hp comic'. split; [reflexivity|]. split; [reflexivity|].
    apply (Hb comic' pageIndex); [reflexivity | exact Hp].
Qed.

(** X8: while the cursor points at a page, the progress bar of the reader
    shows more than 0 and at most 100 percent, and 100 exactly on the last
    page. *)
Theorem readerProgress_bounds comic r :
  cursor_in_range comic r ->
  (0 < readerProgress comic r /\ readerProgress comic r <= 100)%Q /\
  ((readerProgress comic r == 100)%Q <-> currentPageIndex r = totalPages comic - 1).
Proof.
  unfold cursor_in_range, readerProgress. intros Hr.
  set (a := currentPageIndex r + 1). set (b := totalPages comic).
  assert (Hb : (0 < inject_Z b)%Q) by (apply inject_Z_pos; unfold b; lia).
  assert (Ha : (0 < inject_Z a)%Q) by (apply inject_Z_pos; unfold a; lia).
  assert (Hab : (inject_Z a <= inject_Z b)%Q) by (rewrite <- Zle_Qle; unfold a, b; lia).
  assert (H0 : (0 < inject_Z a / inject_Z b)%Q).
  { apply Qlt_shift_div_l; [exact Hb | lra]. }
  assert (H1 : (inject_Z a / inject_Z b <= 1)%Q).
  { apply Qle_shift_div_r; [exact Hb | lra]. }
  split; [split; lra|].
  split.
  - intros E.
    assert (E1 : (inject_Z a / inject_Z b == 1)%Q) by lra.
    assert (E2 : (inject_Z a == inject_Z b)%Q).
    { rewrite <- (Qmult_div_r (inject_Z a) (inject_Z b)) by lra. rewrite E1. lra. }
    pose proof (proj1 (inject_Z_injective a b) E2) as E3. unfold a, b in E3. lia.
  - intros E. replace a with b by (unfold a, b; lia).
    assert (E1 : (inject_Z b / inject_Z b == 1)%Q) by (field; lra).
    lra.
Qed.

Lemma readerProgress_bounds_witness :
  cursor_in_range ten_page_comic (mkReader 9 1%Q (0%Q, 0%Q)) /\
  (readerProgress ten_page_comic (mkReader 9 1%Q (0%Q, 0%Q)) == 100)%Q.
Proof.
  assert (H : cursor_in_range ten_page_comic (mkReader 9 1%Q (0%Q, 0%Q)))
    by (unfold cursor_in_range; simpl; lia).
  split; [exact H|].
  apply (readerProgress_bounds ten_page_comic _ H). reflexivity.
Defined.

(** ** Opening a comic, again *)

Section OpenFacts.

Variable localeCompare : string -> string -> Z.
Variable loadAsync : ArrayBuffer -> Settled ZipFiles.
Variable downloadFile : string -> Settled ArrayBuffer.

Local Abbreviation open := (downloadAndOpenComic localeCompare loadAsync downloadFile).

Lemma downloading_restored (x : string) (S : gset string) :
  x ∉ S -> (S ∪ {[x]}) ∖ {[x]} = S.
Proof.
  intros Hx. apply set_eq. intros y.
  rewrite elem_of_difference, elem_of_union, elem_of_singleton.
  split; [tauto|]. intros Hy. split; [tauto | congruence].
Qed.

Lemma saveComic_progress comic st : COMIC_PROGRESS (saveComic comic st) = COMIC_PROGRESS st.
Proof.
  unfold saveComic.
  destruct (findIndex _ (getSeries st)) as [i|]; [|reflexivity].
  destruct (getSeries st !! i); reflexivity.
Qed.

Lemma open_try_rejected comic st h e :
  (downloadFile (fileId comic) = Rejected e \/
   exists arrayBuffer, downloadFile (fileId comic) = Fulfilled arrayBuffer /\
                       loadAsync arrayBuffer = Rejected e) ->
  exists e' h',
    open_try localeCompare loadAsync downloadFile comic st h = (Rejected e', st, h') /\
    objectURLs h' = objectURLs h.
Proof.
  unfold open_try. intros [Hd | (arrayBuffer & Hd & Hl)]; rewrite Hd.
  - eauto.
  - unfold extractPagesFromCBR. rewrite Hl. eauto.
Qed.

Lemma open_try_fulfilled comic st h arrayBuffer files :
  downloadFile (fileId comic) = Fulfilled arrayBuffer ->
  loadAsync arrayBuffer = Fulfilled files ->
  exists c h',
    open_try localeCompare loadAsync downloadFile comic st h
    = (Fulfilled c, saveComic c st, h') /\
    comic_id c = comic_id comic /\ comic_name c = comic_name comic /\
    fileId c = fileId comic /\ seriesId c = seriesId comic /\
    length (pages c) =
      length (List.filter (materializes files) (imageFiles localeCompare files)).
Proof.
  intros Hd Hl. unfold open_try. rewrite Hd.
  destruct (extract_run localeCompare loadAsync arrayBuffer (comic_id comic) h files Hl)
    as (extracted & h' & Hrun & Hidx & _).
  rewrite Hrun. cbv zeta.
  assert (Hlen : length extracted =
    length (List.filter (materializes files) (imageFiles localeCompare files))).
  { apply (f_equal (@length Z)) in Hidx.
    now rewrite !length_map, filter_indices_length in Hidx. }
  destruct (getComicProgress (comic_id comic) st) as [progress | key |];
    eexists _, h'; (split; [reflexivity|]); repeat split; exact Hlen.
Qed.

End OpenFacts.

(** X9: when the download fails, or the bytes are not an archive,
    [downloadAndOpenComic] opens no comic, reports
    "Failed to open <name>. Please try again.", and leaves the store and the
    registry of object URLs as they were. *)
Theorem downloadAndOpenComic_failure localeCompare loadAsync downloadFile comic lib e :
  comic_id comic ∉ downloadingComics lib ->
  (downloadFile (fileId comic) = Rejected e \/
   exists arrayBuffer, downloadFile (fileId comic) = Fulfilled arrayBuffer /\
                       loadAsync arrayBuffer = Rejected e) ->
  exists lib',
    downloadAndOpenComic localeCompare loadAsync downloadFile comic lib = (None, lib') /\
    store lib' = store lib /\
    error lib' = Some ("Failed to open " +:+ comic_name comic +:+ ". Please try again.") /\
    objectURLs (host lib') = objectURLs (host lib).
Proof.
  intros Hfree Hfail. unfold downloadAndOpenComic.
  destruct (decide (comic_id comic ∈ downloadingComics lib)); [contradiction|].
  destruct (open_try_rejected localeCompare loadAsync downloadFile comic
              (store lib) (host lib) e Hfail) as (e' & h' & Htry & Hreg).
  rewrite Htry. eexists. split; [reflexivity|]. repeat split. exact Hreg.
Qed.

Lemma downloadAndOpenComic_failure_witness :
  ("comic" ∉ (∅ : gset string)) /\
  exists lib',
    downloadAndOpenComic codeUnitCompare (fun _ => Rejected "not a zip file")
      downloadFile_empty listed_comic library_with_progress = (None, lib') /\
    store lib' = store library_with_progress.
Proof.
  split; [set_solver|].
  destruct (downloadAndOpenComic_failure codeUnitCompare (fun _ => Rejected "not a zip file")
              downloadFile_empty listed_comic library_with_progress "not a zip file")
    as (lib' & Hrun & Hstore & _).
  - simpl. set_solver.
  - right. exists []. split; reflexivity.
  - exists lib'. split; [exact Hrun | exact Hstore].
Defined.

(** X10: when the download succeeds and the bytes are an archive,
    [downloadAndOpenComic] opens the comic, whatever the entries are: the
    comic keeps its id, name, file and series, and has as many pages as
    there are image entries that can be read, possibly none; the error
    message and the saved progress are left as they were. *)
Theorem downloadAndOpenComic_opens localeCompare loadAsync downloadFile comic lib
    arrayBuffer files :
  comic_id comic ∉ downloadingComics lib ->
  downloadFile (fileId comic) = Fulfilled arrayBuffer ->
  loadAsync arrayBuffer = Fulfilled files ->
  exists c lib',
    downloadAndOpenComic localeCompare loadAsync downloadFile comic lib = (Some c, lib') /\
    comic_id c = comic_id comic /\ comic_name c = comic_name comic /\
    fileId c = fileId comic /\ seriesId c = seriesId comic /\
    totalPages c =
      Z.of_nat (length (List.filter (materializes files) (imageFiles localeCompare files))) /\
    error lib' = error lib /\
    (forall comicId, getComicProgress comicId (store lib') = getComicProgress comicId (store lib)).
Proof.
  intros Hfree Hd Hl. unfold downloadAndOpenComic.
  destruct (decide (comic_id comic ∈ downloadingComics lib)); [contradiction|].
  destruct (open_try_fulfilled localeCompare loadAsync downloadFile comic
              (store lib) (host lib) arrayBuffer files Hd Hl)
    as (c & h' & Htry & Hid & Hname & Hfile & Hseries & Hlen).
  destruct (open_try_comic _ _ _ _ _ _ _ _ _ Htry) as [Htotal _].
  rewrite Htry. exists c. eexists. split; [reflexivity|].
  repeat split; try assumption.
  - now rewrite Htotal, Hlen.
  - intros comicId. cbn [store]. unfold getComicProgress.
    now rewrite saveComic_progress.
Qed.

Lemma downloadAndOpenComic_opens_witness :
  ("comic" ∉ (∅ : gset string)) /\
  exists c lib',
    downloadAndOpenComic codeUnitCompare (loadAsync_as archive_corrupt) downloadFile_empty
      listed_comic library_with_progress = (Some c, lib') /\
    totalPages c = 2.
Proof.
  split; [set_solver|].
  destruct (downloadAndOpenComic_opens codeUnitCompare (loadAsync_as archive_corrupt)
              downloadFile_empty listed_comic library_with_progress [] archive_corrupt)
    as (c & lib' & Hrun & _ & _ & _ & _ & Htotal & _).
  - simpl. set_solver.
  - reflexivity.
  - reflexivity.
  - exists c, lib'. split; [exact Hrun | exact Htotal].
Defined.

(** X11: a comic that is already being downloaded is not opened a second
    time and nothing changes; and whatever happens, the set of comics being
    downloaded is the same after [downloadAndOpenComic] as before. *)
Theorem downloadAndOpenComic_downloading localeCompare loadAsync downloadFile comic lib :
  (comic_id comic ∈ downloadingComics lib ->
   downloadAndOpenComic localeCompare loadAsync downloadFile comic lib = (None, lib)) /\
  downloadingComics (snd (downloadAndOpenComic localeCompare loadAsync downloadFile comic lib))
  = downloadingComics lib.
Proof.
  unfold downloadAndOpenComic.
  destruct (decide (comic_id comic ∈ downloadingComics lib)) as [Hin | Hfree].
  - split; reflexivity.
  - split; [contradiction|].
    destruct (open_try _ _ _ _ _ _) as [[[c | e] st] h]; cbn [snd downloadingComics];
      now apply downloading_restored.
Qed.

Lemma open_try_result localeCompare loadAsync downloadFile comic st h c st' h' :
  open_try localeCompare loadAsync downloadFile comic st h = (Fulfilled c, st', h') ->
  st' = saveComic c st /\
  lastRead c =
    match getComicProgress (comic_id comic) st with
    | JsObject.Own progress => Some (progress_lastRead progress)
    | JsObject.Inherited _ => None
    | JsObject.Null => lastRead comic
    end.
Proof.
  unfold open_try.
  destruct (downloadFile (fileId comic)) as [arrayBuffer | e]; [|discriminate].
  destruct (extractPagesFromCBR _ _ _ _ _) as [[extracted | e] h1]; [|discriminate].
  cbv zeta. simpl.
  destruct (getComicProgress (comic_id comic) st) as [progress | key |].
  all: intros H; injection H as H1 H2 H3.
  all: subst c st'; split; reflexivity.
Qed.

Lemma downloadAndOpenComic_opened_store localeCompare loadAsync downloadFile comic lib c lib' :
  downloadAndOpenComic localeCompare loadAsync downloadFile comic lib = (Some c, lib') ->
  exists h',
    open_try localeCompare loadAsync downloadFile comic (store lib) (host lib)
    = (Fulfilled c, store lib', h').
Proof.
  unfold downloadAndOpenComic.
  destruct (decide (comic_id comic ∈ downloadingComics lib)); [discriminate|].
  destruct (open_try _ _ _ _ _ _) as [[[c' | e] st'] h']; [|discriminate].
  intros H. injection H as H1 H2. subst c' lib'. eauto.
Qed.



(** ** storageService: the progress map, again *)

(** X24: for every comic id but "__proto__", a progress record saved with
    [saveComicProgress] is what [getComicProgress] reads back for that id,
    with the same [currentPage] and the same [lastRead], whatever the store
    held before; this holds in particular for the ids that name a property
    of [Object.prototype], which the assignment shadows. *)
Theorem progress_round_trip comicId progress st :
  comicId <> "__proto__" ->
  getComicProgress comicId (saveComicProgress comicId progress st) = JsObject.Own progress /\
  (forall p,
     getComicProgress comicId (saveComicProgress comicId progress st) = JsObject.Own p ->
     progress_currentPage p = progress_currentPage progress /\
     progress_lastRead p = progress_lastRead progress).
Proof.
  intros Hid. split; [now apply getComicProgress_saved|].
  intros p Hp. rewrite getComicProgress_saved in Hp by exact Hid.
  injection Hp as <-. split; reflexivity.
Qed.

Lemma progress_round_trip_witness :
  "constructor" <> "__proto__" /\
  getComicProgress "constructor"
    (saveComicProgress "constructor" (mkProgress 5 1000) emptyStore)
  = JsObject.Own (mkProgress 5 1000).
Proof.
  split; [discriminate|].
  apply (progress_round_trip "constructor" (mkProgress 5 1000) emptyStore). discriminate.
Defined.

(** ** storageService: comics in the stored series *)

Section FindIndexFacts.

Context {A : Type} (p : A -> bool).

Lemma findIndex_lookup l : forall k,
  findIndex p l = Some k -> exists x, l !! k = Some x /\ p x = true.
Proof.
  induction l as [|a l IH]; intros k; simpl; [discriminate|].
  destruct (p a) eqn:Ea.
  - intros [= <-]. eauto.
  - destruct (findIndex p l) as [k'|]; simpl; [|discriminate].
    intros [= <-]. apply (IH k' eq_refl).
Qed.

Lemma findIndex_before l : forall k j y,
  findIndex p l = Some k -> (j < k)%nat -> l !! j = Some y -> p y = false.
Proof.
  induction l as [|a l IH]; intros k j y; simpl; [discriminate|].
  destruct (p a) eqn:Ea.
  - intros [= <-] Hj. lia.
  - destruct (findIndex p l) as [k'|] eqn:E; simpl; [|discriminate].
    intros [= <-] Hj. destruct j as [|j]; simpl.
    + now intros [= <-].
    + apply (IH k' j y eq_refl). lia.
Qed.

Lemma findIndex_None l :
  findIndex p l = None <-> (forall x, In x l -> p x = false).
Proof.
  induction l as [|a l IH]; simpl.
  - split; [intros _ x [] | reflexivity].
  - destruct (p a) eqn:Ea.
    + split; [discriminate|]. intros H. rewrite (H a) in Ea by now left. discriminate.
    + destruct (findIndex p l) as [k|]; simpl.
      * split; [discriminate|]. intros H. exfalso.
        assert (Hk : Some k = None); [|discriminate].
        apply IH. intros x Hx. apply H. now right.
      * split; [|reflexivity]. intros _ x [<- | Hx]; [exact Ea|].
        now apply (proj1 IH).
Qed.

Lemma findIndex_replace l : forall k c,
  findIndex p l = Some k -> p c = true ->
  List.find p (<[k := c]> l) = Some c /\ findIndex p (<[k := c]> l) = Some k.
Proof.
  induction l as [|a l IH]; intros k c; simpl; [discriminate|].
  destruct (p a) eqn:Ea.
  - intros [= <-] Hc. simpl. now rewrite Hc.
  - destruct (findIndex p l) as [k'|] eqn:E; simpl; [|discriminate].
    intros [= <-] Hc. simpl. rewrite Ea.
    destruct (IH k' c eq_refl Hc) as [H1 H2]. now rewrite H1, H2.
Qed.

Lemma findIndex_push l c :
  findIndex p l = None -> p c = true ->
  List.find p (l ++ [c]) = Some c /\
  findIndex p (l ++ [c]) = Some (length l) /\
  <[length l := c]> (l ++ [c]) = l ++ [c].
Proof.
  induction l as [|a l IH]; simpl; intros Hn Hc.
  - now rewrite Hc.
  - destruct (p a) eqn:Ea; [discriminate|].
    destruct (findIndex p l) as [k|] eqn:E; simpl in Hn; [discriminate|].
    destruct (IH eq_refl Hc) as (H1 & H2 & H3). now rewrite H1, H2, H3.
Qed.

End FindIndexFacts.

Section SaveComicFacts.

Local Abbreviation has_id cid := (fun c : Comic => String.eqb (comic_id c) cid).
Local Abbreviation in_series sid := (fun s : ComicSeries => String.eqb (series_id s) sid).

Lemma upsert_find comic l :
  List.find (has_id (comic_id comic)) (upsert comic l) = Some comic.
Proof.
  unfold upsert. destruct (findIndex _ l) as [k|] eqn:E.
  - apply (findIndex_replace _ l k comic E). apply String.eqb_refl.
  - apply (findIndex_push _ l comic E). apply String.eqb_refl.
Qed.

Lemma upsert_twice comic l : upsert comic (upsert comic l) = upsert comic l.
Proof.
  unfold upsert at 2 3. destruct (findIndex _ l) as [k|] eqn:E.
  - destruct (findIndex_replace _ l k comic E (String.eqb_refl _)) as [_ H].
    unfold upsert. rewrite H. apply list_insert_insert_eq.
  - destruct (findIndex_push _ l comic E (String.eqb_refl _)) as (_ & H & Hi).
    unfold upsert. rewrite H. exact Hi.
Qed.

Lemma getSeries_saveSeries series st : getSeries (saveSeries series st) = series.
Proof. reflexivity. Qed.

Lemma saveComic_found comic st i :
  findIndex (in_series (seriesId comic)) (getSeries st) = Some i ->
  exists s,
    getSeries st !! i = Some s /\ series_id s = seriesId comic /\
    saveComic comic st =
      saveSeries
        (<[i := mkSeries (series_id s) (series_name s) (folderId s)
                  (upsert comic (comics s)) (coverImage s)]> (getSeries st))
        st.
Proof.
  intros Hi. destruct (findIndex_lookup _ _ _ Hi) as (s & Hs & Hid).
  exists s. split; [exact Hs|]. split; [now apply String.eqb_eq|].
  unfold saveComic. rewrite Hi, Hs. reflexivity.
Qed.

Lemma getComic_in_insert cid c s' : forall series i,
  (forall j sj, (j < i)%nat -> series !! j = Some sj ->
     List.find (has_id cid) (comics sj) = None) ->
  (i < length series)%nat ->
  List.find (has_id cid) (comics s') = Some c ->
  getComic_in (<[i := s']> series) cid = Some c.
Proof.
  induction series as [|s series IH]; intros i Hbefore Hi Hfind; simpl in Hi; [lia|].
  destruct i as [|i]; simpl.
  - now rewrite Hfind.
  - rewrite (Hbefore O s) by (simpl; auto; lia).
    apply IH; [|lia|exact Hfind].
    intros j sj Hj Hsj. apply (Hbefore (S j) sj); [lia | exact Hsj].
Qed.

Lemma find_none_iff cid (l : list Comic) :
  List.find (has_id cid) l = None <-> forall x, In x l -> comic_id x <> cid.
Proof.
  split.
  - intros H x Hx E. apply (find_none _ _ H) in Hx. simpl in Hx.
    apply String.eqb_neq in Hx. contradiction.
  - intros H. destruct (List.find _ l) as [x|] eqn:E; [|reflexivity].
    apply find_some in E as [Hx E]. apply String.eqb_eq in E. now apply H in Hx.
Qed.

End SaveComicFacts.

(** X13: [saveComic] stores a comic only inside a stored series: when no
    stored series has the [seriesId] of the comic, in particular when no
    series is stored at all, the store is left as it was. *)
Theorem saveComic_unknown_series comic st :
  (forall s, In s (getSeries st) -> series_id s <> seriesId comic) ->
  saveComic comic st = st.
Proof.
  intros H. unfold saveComic.
  replace (findIndex _ (getSeries st)) with (@None nat); [reflexivity|].
  symmetry. apply findIndex_None. intros s Hs. apply String.eqb_neq. now apply H.
Qed.

Lemma saveComic_unknown_series_witness :
  (forall s, In s (getSeries emptyStore) -> series_id s <> seriesId listed_comic) /\
  saveComic listed_comic emptyStore = emptyStore.
Proof.
  assert (H : forall s, In s (getSeries emptyStore) -> series_id s <> seriesId listed_comic)
    by (intros s []).
  split; [exact H|]. exact (saveComic_unknown_series listed_comic emptyStore H).
Defined.

(** X14: a comic saved with [saveComic] is the one [getComic] returns for
    its id, provided that its series is stored and that the id is used in no
    other series. *)
Theorem saveComic_getComic comic st :
  (exists s, In s (getSeries st) /\ series_id s = seriesId comic) ->
  (forall s x, In s (getSeries st) -> In x (comics s) ->
     comic_id x = comic_id comic -> series_id s = seriesId comic) ->
  getComic (comic_id comic) (saveComic comic st) = Some comic.
Proof.
  intros (s0 & Hs0 & Hid0) Huniq.
  destruct (findIndex (fun s => String.eqb (series_id s) (seriesId comic)) (getSeries st))
    as [i|] eqn:Hi.
  2:{ apply (proj1 (findIndex_None _ _) Hi) in Hs0. apply String.eqb_neq in Hs0.
      contradiction. }
  destruct (saveComic_found comic st i Hi) as (s & Hs & Hid & ->).
  unfold getComic. cbn [getSeries saveSeries SERIES default].
  apply getComic_in_insert.
  - intros j sj Hj Hsj. apply find_none_iff. intros x Hx Ex.
    pose proof (findIndex_before _ _ _ _ _ Hi Hj Hsj) as Hne.
    apply String.eqb_neq in Hne. apply Hne.
    apply (Huniq sj x); [|exact Hx|exact Ex].
    apply list_elem_of_In. eapply list_elem_of_lookup_2; eauto.
  - eapply lookup_lt_Some; eauto.
  - apply upsert_find.
Qed.

(** X15: saving the same comic twice is the same as saving it once; and
    [saveComic] neither adds nor removes nor renames a series. *)
Theorem saveComic_idempotent comic st :
  saveComic comic (saveComic comic st) = saveComic comic st /\
  map series_id (getSeries (saveComic comic st)) = map series_id (getSeries st) /\
  map series_name (getSeries (saveComic comic st)) = map series_name (getSeries st).
Proof.
  destruct (findIndex (fun s => String.eqb (series_id s) (seriesId comic)) (getSeries st))
    as [i|] eqn:Hi.
  2:{ unfold saveComic. rewrite Hi. repeat split. unfold saveComic. now rewrite Hi. }
  destruct (saveComic_found comic st i Hi) as (s & Hs & Hid & Hsave).
  set (s' := mkSeries (series_id s) (series_name s) (folderId s)
               (upsert comic (comics s)) (coverImage s)) in *.
  assert (Hlt : (i < length (getSeries st))%nat) by (eapply lookup_lt_Some; eauto).
  assert (Hmaps : forall (B : Type) (f : ComicSeries -> B), f s' = f s ->
            map f (<[i := s']> (getSeries st)) = map f (getSeries st)).
  { intros B f Hf. change (f <$> <[i := s']> (getSeries st) = f <$> getSeries st).
    rewrite list_fmap_insert, Hf. apply list_insert_id.
    rewrite list_lookup_fmap, Hs. reflexivity. }
  rewrite Hsave, !getSeries_saveSeries.
  split; [|split; apply Hmaps; reflexivity].
  assert (Hi' : findIndex (fun s => String.eqb (series_id s) (seriesId comic))
                  (getSeries (saveSeries (<[i := s']> (getSeries st)) st)) = Some i).
  { rewrite getSeries_saveSeries.
    apply (findIndex_replace _ (getSeries st) i s' Hi).
    unfold s'. cbn [series_id]. rewrite Hid. apply String.eqb_refl. }
  destruct (saveComic_found comic _ i Hi') as (s2 & Hs2 & _ & Hsave2).
  rewrite Hsave2. rewrite getSeries_saveSeries in *.
  rewrite list_lookup_insert_eq in Hs2 by exact Hlt. injection Hs2 as <-.
  unfold saveSeries. cbn [SERIES READING_SETTINGS ACCESS_TOKEN SELECTED_FOLDER COMIC_PROGRESS].
  do 2 f_equal. rewrite list_insert_insert_eq. f_equal.
  unfold s'. cbn [series_id series_name folderId comics coverImage].
  f_equal. apply upsert_twice.
Qed.

Lemma saveComic_getComic_witness :
  (exists s, In s (getSeries library_store) /\ series_id s = seriesId ten_page_comic) /\
  getComic "comic" (saveComic ten_page_comic library_store) = Some ten_page_comic.
Proof.
  assert (H1 : exists s, In s (getSeries library_store) /\
                         series_id s = seriesId ten_page_comic).
  { eexists. split; [left; reflexivity | reflexivity]. }
  split; [exact H1|].
  apply (saveComic_getComic ten_page_comic library_store H1).
  intros s x [<- | []] _ _. reflexivity.
Defined.

(** ** removeOldComics *)

Lemma filter_idem {A : Type} (f : A -> bool) l :
  List.filter f (List.filter f l) = List.filter f l.
Proof.
  induction l as [|x l IH]; [reflexivity|]. simpl.
  destruct (f x) eqn:E; [|exact IH]. simpl. now rewrite E, IH.
Qed.

(** X16: [removeOldComics] keeps, in every stored series, exactly the comics
    that were never read or were read after the cutoff date, in their
    order; it removes no series, even one it empties; run again at the same
    time it changes nothing more; and the saved reading progress, also that
    of the comics it removes, stays in the store. *)
Theorem removeOldComics_keeps daysBefore daysOld now st :
  let cutoffDate := daysBefore now (default 30 daysOld) in
  let st' := removeOldComics daysBefore daysOld now st in
  map series_id (getSeries st') = map series_id (getSeries st) /\
  (forall i s, getSeries st !! i = Some s ->
     exists s', getSeries st' !! i = Some s' /\
       forall c, In c (comics s') <-> In c (comics s) /\ recently_read cutoffDate c) /\
  removeOldComics daysBefore daysOld now st' = st' /\
  COMIC_PROGRESS st' = COMIC_PROGRESS st.
Proof.
  intros cutoffDate st'.
  set (keep := fun comic : Comic =>
                 match lastRead comic with
                 | None => true
                 | Some t => cutoffDate <? t
                 end).
  set (f := fun s : ComicSeries =>
              mkSeries (series_id s) (series_name s) (folderId s)
                (List.filter keep (comics s)) (coverImage s)).
  assert (Hser : getSeries st' = map f (getSeries st)) by reflexivity.
  assert (Hkeep : forall c, keep c = true <-> recently_read cutoffDate c).
  { intros c. unfold keep, recently_read. destruct (lastRead c) as [t|]; [|tauto].
    apply Z.ltb_lt. }
  split; [|split; [|split]].
  - rewrite Hser, map_map. reflexivity.
  - intros i s Hs. exists (f s). split.
    + rewrite Hser. change (map f (getSeries st)) with (f <$> getSeries st).
      now rewrite list_lookup_fmap, Hs.
    + intros c. cbn [f comics]. rewrite List.filter_In, Hkeep. reflexivity.
  - unfold removeOldComics at 1. fold cutoffDate. fold keep. fold f.
    rewrite Hser, map_map.
    assert (Hff : forall s, f (f s) = f s).
    { intros s. unfold f. cbn [series_id series_name folderId comics coverImage].
      now rewrite filter_idem. }
    rewrite (map_ext _ f Hff). reflexivity.
  - reflexivity.
Qed.

(** ** The search filter of the library *)

Lemma startsWith_spec s prefix :
  startsWith s prefix = true <-> exists post, s = prefix +:+ post.
Proof.
  revert s. induction prefix as [|c prefix IH]; intros s.
  - destruct s; simpl; split; eauto.
  - destruct s as [|d s]; simpl.
    + split; [discriminate | intros (post & H); discriminate].
    + rewrite andb_true_iff, IH, Ascii.eqb_eq. split.
      * intros [-> (post & ->)]. now exists post.
      * intros (post & H). rewrite append_cons in H. injection H as -> ->. eauto.
Qed.

Lemma includes_spec s sub :
  includes s sub = true <-> exists pre post, s = pre +:+ sub +:+ post.
Proof.
  induction s as [|d s IH].
  - cbn [includes]. rewrite orb_false_r, startsWith_spec. split.
    + intros (post & H). exists EmptyString, post. exact H.
    + intros ([|c pre] & post & H); [now exists post | discriminate].
  - cbn [includes]. rewrite orb_true_iff, startsWith_spec, IH. split.
    + intros [(post & H) | (pre & post & H)].
      * exists EmptyString, post. exact H.
      * exists (String d pre), post. rewrite append_cons. now rewrite H.
    + intros ([|c pre] & post & H).
      * left. now exists post.
      * right. rewrite append_cons in H. injection H as _ ->. eauto.
Qed.

Lemma filter_sublist {A : Type} (f : A -> bool) (l : list A) : sublist (List.filter f l) l.
Proof.
  induction l as [|x l IH]; simpl; [constructor|].
  destruct (f x); now constructor.
Qed.

(** X17: the library shows a series exactly when its name, or the name of
    one of its comics, contains the search text, the case of letters not
    counting; the series shown keep their order; an empty search shows every
    series. *)
Theorem filteredSeries_search series searchQuery :
  (forall s, In s (filteredSeries series searchQuery) <->
     In s series /\
     (contains_ci (series_name s) searchQuery \/
      exists c, In c (comics s) /\ contains_ci (comic_name c) searchQuery)) /\
  sublist (filteredSeries series searchQuery) series /\
  filteredSeries series EmptyString = series.
Proof.
  split; [|split].
  - intros s. unfold filteredSeries, contains_ci.
    rewrite List.filter_In, orb_true_iff, includes_spec, existsb_exists.
    split; intros [Hin [H | (c & Hc & H)]]; (split; [exact Hin|]); auto; right;
      exists c; (split; [exact Hc|]); now apply includes_spec.
  - apply filter_sublist.
  - unfold filteredSeries. apply filter_all_true. intros s _.
    assert (H : includes (toLowerCase (series_name s)) (toLowerCase EmptyString) = true).
    { apply includes_spec. exists EmptyString, (toLowerCase (series_name s)). reflexivity. }
    now rewrite H.
Qed.

(** ** preloadPages, whatever the arguments *)

(** X18: whatever the start index and the count are, negative ones
    included, [preloadPages] fulfils, writes nothing to the console, and
    starts loads only for a block of consecutive pages of the list, each at
    most once and in page order. *)
Theorem preloadPages_total decodes pages (startIndex count : option Z) h :
  exists h' before shown after,
    preloadPages decodes pages startIndex count h = (Fulfilled tt, h') /\
    pages = before ++ shown ++ after /\
    imageLoads h' = imageLoads h ++ map page_url shown /\
    console h' = console h.
Proof.
  unfold preloadPages, JsArray.slice.
  set (k := Z.to_nat (JsArray.relativeIndex _ (default 0 startIndex))).
  set (n := Z.to_nat (Z.max _ 0)).
  destruct (preload_map decodes (firstn n (skipn k pages)) h) as [promises h'] eqn:E.
  exists h', (firstn k pages), (firstn n (skipn k pages)), (skipn n (skipn k pages)).
  split; [reflexivity|]. split; [now rewrite !firstn_skipn|].
  pose proof (preload_map_loads decodes (firstn n (skipn k pages)) h) as H.
  rewrite E in H. destruct H as (Hl & Hc & _). auto.
Qed.

(** ** The scroll observer *)

Lemma centeredImage_spec imageRefs scrollTop centerY : forall i0 i,
  centeredImage imageRefs scrollTop centerY i0 = Some i ->
  (i0 <= i < i0 + length imageRefs)%nat /\
  (exists top height,
     imageRefs !! (i - i0)%nat = Some (Some (top, height)) /\
     (top + scrollTop <= centerY /\ centerY <= top + scrollTop + height)%Q) /\
  (forall j top height,
     (j < i - i0)%nat -> imageRefs !! j = Some (Some (top, height)) ->
     ~ (top + scrollTop <= centerY /\ centerY <= top + scrollTop + height)%Q).
Proof.
  induction imageRefs as [|img rest IH]; intros i0 i; simpl; [discriminate|].
  assert (Hrec : centeredImage rest scrollTop centerY (S i0) = Some i ->
    (forall top height, img = Some (top, height) ->
       ~ (top + scrollTop <= centerY /\ centerY <= top + scrollTop + height)%Q) ->
    (i0 <= i < i0 + S (length rest))%nat /\
    (exists top height,
       (img :: rest) !! (i - i0)%nat = Some (Some (top, height)) /\
       (top + scrollTop <= centerY /\ centerY <= top + scrollTop + height)%Q) /\
    (forall j top height,
       (j < i - i0)%nat -> (img :: rest) !! j = Some (Some (top, height)) ->
       ~ (top + scrollTop <= centerY /\ centerY <= top + scrollTop + height)%Q)).
  { intros H Himg. destruct (IH (S i0) i H) as (Hi & (top & height & Hl & Hin) & Hfirst).
    split; [lia|]. split.
    - exists top, height. replace (i - i0)%nat with (S (i - S i0)) by lia. auto.
    - intros j t hgt Hj Hl'. destruct j as [|j]; simpl in Hl'.
      + injection Hl' as Hl'. now apply Himg.
      + apply (Hfirst j t hgt); [lia | exact Hl']. }
  destruct img as [[top height]|].
  - destruct (Qle_bool (top + scrollTop) centerY &&
              Qle_bool centerY (top + scrollTop + height)) eqn:B.
    + intros [= <-]. apply andb_true_iff in B as [B1 B2].
      apply Qle_bool_iff in B1, B2.
      split; [lia|]. split.
      * exists top, height. rewrite Nat.sub_diag. auto.
      * intros j t hgt Hj. lia.
    + intros H. apply Hrec; [exact H|].
      intros t hgt [= <- <-] [H1 H2].
      apply Qle_bool_iff in H1, H2. rewrite H1, H2 in B. discriminate.
  - intros H. apply Hrec; [exact H | discriminate].
Qed.

(** X19: a scroll event of continuous mode leaves zoom and pan offset alone
    and either keeps the cursor or moves it to the first mounted image whose
    box contains the centre of the viewport; so with at most one image per
    page, a cursor that points at a page still does after the event. *)
Theorem handleScroll_cursor comic s imageRefs scrollTop containerHeight r :
  Z.of_nat (length imageRefs) <= totalPages comic ->
  cursor_in_range comic r ->
  let r' := handleScroll s imageRefs scrollTop containerHeight r in
  cursor_in_range comic r' /\
  zoom r' = zoom r /\ position r' = position r /\
  (currentPageIndex r' <> currentPageIndex r ->
   exists i top height,
     currentPageIndex r' = Z.of_nat i /\
     imageRefs !! i = Some (Some (top, height)) /\
     (top + scrollTop <= scrollTop + containerHeight / 2 /\
      scrollTop + containerHeight / 2 <= top + scrollTop + height)%Q).
Proof.
  intros Hlen Hr r'. unfold r', handleScroll, cursor_in_range in *.
  destruct (isContinuousMode s); [|repeat split; try apply Hr; congruence].
  destruct (centeredImage imageRefs scrollTop _ 0) as [i|] eqn:E;
    [|repeat split; try apply Hr; congruence].
  destruct (centeredImage_spec _ _ _ _ _ E) as (Hi & (top & height & Hl & Hin) & _).
  rewrite Nat.sub_0_r in Hl.
  destruct (Z.eqb_spec (Z.of_nat i) (currentPageIndex r));
    [repeat split; try apply Hr; congruence|].
  cbn [setCurrentPageIndex currentPageIndex zoom position].
  repeat split; try lia.
  intros _. exists i, top, height. auto.
Qed.

Lemma handleScroll_cursor_witness :
  Z.of_nat (length [Some (0%Q, 100%Q); Some (100%Q, 100%Q)]) <= totalPages ten_page_comic /\
  cursor_in_range ten_page_comic (mkReader 0 1%Q (0%Q, 0%Q)) /\
  cursor_in_range ten_page_comic
    (handleScroll (settings_with continuous ltr)
       [Some (0%Q, 100%Q); Some (100%Q, 100%Q)] 0%Q (300 # 1) (mkReader 0 1%Q (0%Q, 0%Q))) /\
  currentPageIndex
    (handleScroll (settings_with continuous ltr)
       [Some (0%Q, 100%Q); Some (100%Q, 100%Q)] 0%Q (300 # 1) (mkReader 0 1%Q (0%Q, 0%Q)))
  = 1.
Proof.
  assert (H1 : Z.of_nat (length [Some (0%Q, 100%Q); Some (100%Q, 100%Q)])
               <= totalPages ten_page_comic) by (simpl; lia).
  assert (H2 : cursor_in_range ten_page_comic (mkReader 0 1%Q (0%Q, 0%Q)))
    by (unfold cursor_in_range; simpl; lia).
  split; [exact H1|]. split; [exact H2|]. split; [|reflexivity].
  apply (handleScroll_cursor ten_page_comic (settings_with continuous ltr)
           [Some (0%Q, 100%Q); Some (100%Q, 100%Q)] 0%Q (300 # 1)
           (mkReader 0 1%Q (0%Q, 0%Q)) H1 H2).
Defined.

(** ** Loading the library *)

Lemma String_length_take_drop n : forall s, String.length (drop n s) = (String.length s - n)%nat.
Proof.
  induction n as [|n IH]; intros [|c s]; simpl; try reflexivity; try lia. apply IH.
Qed.

Lemma endsWith_lower name suffix :
  String.length suffix = 4%nat ->
  endsWith (toLowerCase name) suffix = true ->
  (4 <= String.length name)%nat /\
  toLowerCase (drop (String.length name - 4) name) = suffix.
Proof.
  intros Hlen. unfold endsWith. rewrite toLowerCase_length, Hlen.
  intros H. apply andb_true_iff in H as [H1 H2].
  apply Nat.leb_le in H1. apply String.eqb_eq in H2.
  split; [exact H1|]. now rewrite toLowerCase_drop.
Qed.

Lemma isComicFile_strip file :
  isComicFile file = true ->
  exists ext,
    file_name file = stripComicExtension (file_name file) +:+ ext /\
    In (toLowerCase ext) [".cbr"; ".cbz"].
Proof.
  unfold isComicFile. intros H. apply orb_true_iff in H.
  assert (Hext : (4 <= String.length (file_name file))%nat /\
                 In (toLowerCase (drop (String.length (file_name file) - 4) (file_name file)))
                    [".cbr"; ".cbz"]).
  { destruct H as [H | H]; apply endsWith_lower in H; try reflexivity;
      destruct H as [H1 H2]; (split; [exact H1|]); rewrite H2; simpl; auto. }
  destruct Hext as [Hlen Hin].
  exists (drop (String.length (file_name file) - 4) (file_name file)).
  split; [|exact Hin].
  unfold stripComicExtension.
  assert (Hb : (4 <=? String.length (file_name file))%nat &&
               (String.eqb (toLowerCase (drop (String.length (file_name file) - 4)
                                           (file_name file))) ".cbr" ||
                String.eqb (toLowerCase (drop (String.length (file_name file) - 4)
                                           (file_name file))) ".cbz") = true).
  { apply andb_true_iff. split; [now apply Nat.leb_le|].
    apply orb_true_iff. simpl in Hin.
    destruct Hin as [<- | [<- | []]]; [left | right]; apply String.eqb_refl. }
  rewrite Hb. apply take_drop.
Qed.

Lemma filter_partition {A : Type} (f : A -> bool) (l : list A) :
  Permutation (List.filter f l ++ List.filter (fun x => negb (f x)) l) l.
Proof.
  induction l as [|x l IH]; simpl; [reflexivity|].
  destruct (f x); simpl.
  - now constructor.
  - rewrite <- Permutation_middle. now constructor.
Qed.

Section LoadLibraryFacts.

Variable getAllFilesInFolder : string -> Settled (list GoogleDriveFile).
Variable localeCompare : string -> string -> Z.
Variable localeCompareNumeric : string -> string -> Z.

Local Abbreviation structure := (getFolderStructure getAllFilesInFolder).

Lemma getFolderStructure_fulfilled folderId allFiles :
  getAllFilesInFolder folderId = Fulfilled allFiles ->
  structure folderId =
    Fulfilled (List.filter isFolder allFiles,
               List.filter (fun file => negb (isFolder file)) allFiles).
Proof. intros H. unfold getFolderStructure. now rewrite H. Qed.

Lemma getFolderStructure_rejected folderId err :
  getAllFilesInFolder folderId = Rejected err -> structure folderId = Rejected err.
Proof. intros H. unfold getFolderStructure. now rewrite H. Qed.

Lemma listedComic_from folder files file :
  In file files -> isFolder file = false -> isComicFile file = true ->
  listed_from folder files (listedComic folder file).
Proof.
  intros Hin Hfile Hcbr. unfold listed_from, listedComic. cbn.
  repeat split.
  destruct (isComicFile_strip file Hcbr) as (ext & Hname & Hext).
  exists file, ext. auto.
Qed.

Lemma loadLibrary_loop_series root seriesFolders : forall newSeries h,
  (forall folder, In folder seriesFolders -> In folder root /\ isFolder folder = true) ->
  Forall (series_from getAllFilesInFolder root) newSeries ->
  Forall (series_from getAllFilesInFolder root)
    (fst (loadLibrary_loop getAllFilesInFolder localeCompareNumeric seriesFolders newSeries h)).
Proof.
  induction seriesFolders as [|folder rest IH]; intros newSeries h Hfolders Hacc;
    [exact Hacc|].
  assert (Hrest : forall f, In f rest -> In f root /\ isFolder f = true)
    by (intros f Hf; apply Hfolders; now right).
  destruct (Hfolders folder (or_introl eq_refl)) as [Hroot Hfolder].
  cbn [loadLibrary_loop].
  destruct (getAllFilesInFolder (file_id folder)) as [files | err] eqn:E.
  - rewrite (getFolderStructure_fulfilled _ _ E).
    set (cbrFiles := List.filter isComicFile
                       (List.filter (fun file => negb (isFolder file)) files)).
    destruct (Nat.ltb_spec 0 (length cbrFiles)) as [Hpos | Hzero];
      [|now apply IH].
    apply IH; [exact Hrest|].
    apply Forall_app. split; [exact Hacc|]. constructor; [|constructor].
    set (sorted := JsArray.sort _ (map (listedComic folder) cbrFiles)).
    assert (Hperm : Permutation sorted (map (listedComic folder) cbrFiles))
      by apply sort_perm.
    split.
    + cbn [comics]. intros Hnil. apply Permutation_length in Hperm.
      rewrite Hnil, length_map in Hperm. simpl in Hperm. lia.
    + exists folder, files. cbn [series_id series_name folderId comics].
      repeat split; try assumption.
      apply Forall_forall. intros c Hc. apply list_elem_of_In in Hc.
      apply (Permutation_in _ Hperm) in Hc.
      apply in_map_iff in Hc as (file & <- & Hfile).
      unfold cbrFiles in Hfile. apply List.filter_In in Hfile as [Hfile Hcbr].
      apply List.filter_In in Hfile as [Hfile Hnot]. apply negb_true_iff in Hnot.
      now apply listedComic_from.
  - rewrite (getFolderStructure_rejected _ _ E). now apply IH.
Qed.

End LoadLibraryFacts.

(** X20: the two lists [getFolderStructure] returns split the listing of
    the folder: the folders are the entries with the folder MIME type, the
    files are the others, each list in the order of the listing, and every
    entry is in exactly one of them; a listing that fails makes it fail with
    the same error. *)
Theorem getFolderStructure_partition getAllFilesInFolder folderId :
  (forall allFiles, getAllFilesInFolder folderId = Fulfilled allFiles ->
     exists folders files,
       getFolderStructure getAllFilesInFolder folderId = Fulfilled (folders, files) /\
       Permutation (folders ++ files) allFiles /\
       sublist folders allFiles /\ sublist files allFiles /\
       (forall f, In f folders <-> In f allFiles /\ mimeType f = folderMimeType) /\
       (forall f, In f files <-> In f allFiles /\ mimeType f <> folderMimeType)) /\
  (forall err, getAllFilesInFolder folderId = Rejected err ->
     getFolderStructure getAllFilesInFolder folderId = Rejected err).
Proof.
  split; [|apply getFolderStructure_rejected].
  intros allFiles H. eexists _, _.
  split; [exact (getFolderStructure_fulfilled _ _ _ H)|].
  split; [apply filter_partition|]. split; [apply filter_sublist|].
  split; [apply filter_sublist|]. split; intros f; rewrite List.filter_In; unfold isFolder.
  - now rewrite String.eqb_eq.
  - now rewrite negb_true_iff, String.eqb_neq.
Qed.

(** X21: when the listing of the selected folder succeeds, [loadLibrary]
    shows and stores the same list of series, with no error and the loading
    flag off; every series comes from a folder of that listing whose own
    listing succeeded, bears its id and name and has at least one comic; and
    every comic is made for a CBR/CBZ file of that folder (extension in any
    case, removed from the name), with the id of the file, and has no pages
    yet. The saved reading progress is left as it was. *)
Theorem loadLibrary_lists getAllFilesInFolder localeCompare localeCompareNumeric
    selectedFolder v root :
  getAllFilesInFolder selectedFolder = Fulfilled root ->
  let v' := loadLibrary getAllFilesInFolder localeCompare localeCompareNumeric
              selectedFolder v in
  loading v' = false /\
  error (library v') = None /\
  getSeries (store (library v')) = lib_series v' /\
  Forall (series_from getAllFilesInFolder root) (lib_series v') /\
  COMIC_PROGRESS (store (library v')) = COMIC_PROGRESS (store (library v)).
Proof.
  intros Hroot v'. unfold v', loadLibrary.
  rewrite (getFolderStructure_fulfilled _ _ _ Hroot).
  pose proof (loadLibrary_loop_series getAllFilesInFolder localeCompareNumeric root
                (List.filter isFolder root) [] (host (library v))) as Hloop.
  destruct (loadLibrary_loop _ _ _ _ _) as [newSeries h].
  cbn [loading library error store lib_series fst] in *.
  repeat split.
  assert (Hall : Forall (series_from getAllFilesInFolder root) newSeries).
  { apply Hloop; [|constructor].
    intros folder Hf. apply List.filter_In in Hf. exact Hf. }
  rewrite Forall_forall in *. intros s Hs. apply Hall.
  apply list_elem_of_In. apply list_elem_of_In in Hs.
  exact (Permutation_in _ (sort_perm _ newSeries) Hs).
Qed.

Lemma loadLibrary_lists_witness :
  sample_drive "root" = Fulfilled [mkFile "f1" "Saga" folderMimeType;
                                   mkFile "x" "notes.txt" "text/plain"] /\
  Forall (series_from sample_drive
            [mkFile "f1" "Saga" folderMimeType; mkFile "x" "notes.txt" "text/plain"])
    (lib_series
       (loadLibrary sample_drive codeUnitCompare (sortOrder codeUnitCompare) "root"
          (mkView [] true (mkLibrary ∅ None emptyStore emptyHost)))) /\
  map (fun s => (series_name s, map comic_name (comics s)))
    (lib_series
       (loadLibrary sample_drive codeUnitCompare (sortOrder codeUnitCompare) "root"
          (mkView [] true (mkLibrary ∅ None emptyStore emptyHost))))
  = [("Saga", ["Saga 2"; "Saga 10"])].
Proof.
  split; [reflexivity|]. split; [|vm_compute; reflexivity].
  apply (loadLibrary_lists sample_drive codeUnitCompare (sortOrder codeUnitCompare)
           "root" (mkView [] true (mkLibrary ∅ None emptyStore emptyHost)) _ eq_refl).
Defined.

(** When the listing of the selected folder fails, [loadLibrary]
    reports "Failed to load library. Please check your permissions and try
    again.", turns the loading flag off, leaves the store as it was, and
    shows the stored series if there are any, otherwise the series shown
    before. *)
Lemma loadLibrary_failure getAllFilesInFolder localeCompare localeCompareNumeric
    selectedFolder v err :
  getAllFilesInFolder selectedFolder = Rejected err ->
  let v' := loadLibrary getAllFilesInFolder localeCompare localeCompareNumeric
              selectedFolder v in
  loading v' = false /\
  error (library v') = Some loadLibrary_error /\
  store (library v') = store (library v) /\
  (getSeries (store (library v)) <> [] -> lib_series v' = getSeries (store (library v))) /\
  (getSeries (store (library v)) = [] -> lib_series v' = lib_series v).
Proof.
  intros Hroot v'. unfold v', loadLibrary.
  rewrite (getFolderStructure_rejected _ _ _ Hroot).
  cbn [loading library error store lib_series].
  repeat split.
  - intros Hne. destruct (getSeries (store (library v))); [congruence | reflexivity].
  - intros Hnil. now rewrite Hnil.
Qed.

Lemma loadLibrary_failure_witness :
  sample_drive "gone" = Rejected "Not Found" /\
  lib_series
    (loadLibrary sample_drive codeUnitCompare (sortOrder codeUnitCompare) "gone"
       (mkView [] true (mkLibrary ∅ None library_store emptyHost)))
  = getSeries library_store.
Proof.
  split; [reflexivity|].
  apply (loadLibrary_failure sample_drive codeUnitCompare (sortOrder codeUnitCompare)
           "gone" (mkView [] true (mkLibrary ∅ None library_store emptyHost))
           "Not Found" eq_refl).
  discriminate.
Defined.

(** ** The reading session as a whole *)

(** X22: in every state of a session, whatever the events were (buttons,
    gestures, keys, scrolling, fullscreen, new settings), the zoom is within
    [0.5, 5], and so is the zoom that the keydown listener has seen; and
    as long as the key that zooms in (+ or =) has not been pressed there is
    no pan offset unless the zoom is above 1. *)
Theorem session_states comic s events x0 :
  initSession comic s = Some x0 ->
  zoom_in_range (zoom (reader (run comic events x0))) /\
  zoom_in_range (keydownZoom (run comic events x0)) /\
  (existsb is_key_zoomIn events = false ->
   centered_unless_magnified (reader (run comic events x0))).
Proof.
  intros Hinit. destruct (initSession_states comic s x0 Hinit) as (Hz & Hk & Hp).
  destruct (run_states comic events x0) as (H1 & H2 & H3).
  - rewrite Hz. exact one_in_range.
  - rewrite Hk. exact one_in_range.
  - split; [exact H1|]. split; [exact H2|].
    intros He. apply H3; [exact He|]. intros _. exact Hp.
Qed.

Lemma session_states_witness :
  initSession ten_page_comic (settings_with single ltr)
  = Some (mkSession (mkReader 0 1 (0%Q, 0%Q)) (settings_with single ltr) false false 1) /\
  centered_unless_magnified
    (reader (run ten_page_comic
               [EvZoom OpZoomIn; EvDrag 3 4 false; EvKeyZoomOut; EvNextPage;
                EvZoom (OpPinch 7); EvToggleFullscreen; EvZoom (OpCtrlWheel 9000)]
               (mkSession (mkReader 0 1 (0%Q, 0%Q)) (settings_with single ltr) false false 1))).
Proof.
  split; [reflexivity|].
  apply (session_states ten_page_comic (settings_with single ltr)
           [EvZoom OpZoomIn; EvDrag 3 4 false; EvKeyZoomOut; EvNextPage;
            EvZoom (OpPinch 7); EvToggleFullscreen; EvZoom (OpCtrlWheel 9000)]
           _ eq_refl).
  reflexivity.
Defined.

(** X25: the zoom operations that the handlers of the current render run
    (the zoom buttons, a pinch, a ctrl+wheel): each leaves a zoom within
    [0.5, 5] when the zoom was within it; zoomOut, a pinch and a ctrl+wheel
    leave no pan offset when the zoom they set is at most 1, and zoomIn
    never changes the offset; a pinch to a given scale gives the same state
    when it is repeated; and in continuous mode every one of them changes
    nothing. *)
Theorem zoom_steps s op r :
  (zoom_in_range (zoom r) -> zoom_in_range (zoom (applyZoom s op r))) /\
  (op <> OpZoomIn -> pageLayout s <> continuous ->
   centered_unless_magnified (applyZoom s op r)) /\
  position (applyZoom s OpZoomIn r) = position r /\
  (forall scale, onPinch s scale (onPinch s scale r) = onPinch s scale r) /\
  (pageLayout s = continuous -> applyZoom s op r = r).
Proof.
  split; [apply applyZoom_range|]. split; [|split; [|split]].
  - intros Hop Hlayout.
    assert (Hmode : isContinuousMode s = false)
      by (unfold isContinuousMode; destruct (pageLayout s); congruence).
    destruct op; [congruence | | |]; simpl; unfold zoomOut, onPinch, onWheel;
      rewrite Hmode; apply clamped_centered.
  - simpl. unfold zoomIn. now destruct (isContinuousMode s).
  - intros scale. unfold onPinch. destruct (isContinuousMode s); [reflexivity|].
    destruct (Qle_bool (Qmax (1 # 2) (Qmin 5 scale)) 1); reflexivity.
  - intros Hlayout.
    destruct op; simpl; unfold zoomIn, zoomOut, onPinch, onWheel, isContinuousMode;
      now rewrite Hlayout.
Qed.

Lemma zoom_steps_witness :
  OpZoomOut <> OpZoomIn /\ pageLayout (settings_with single ltr) <> continuous /\
  centered_unless_magnified
    (applyZoom (settings_with single ltr) OpZoomOut (mkReader 0 (9 # 8) (10%Q, 4%Q))).
Proof.
  split; [discriminate|]. split; [discriminate|].
  destruct (zoom_steps (settings_with single ltr) OpZoomOut (mkReader 0 (9 # 8) (10%Q, 4%Q)))
    as (_ & Hcentered & _).
  apply Hcentered; discriminate.
Defined.

(** zoomIn is a relative step: from the initial zoom 1 it gives 1.5, then
    2.25; it repeats itself only once the bound 5 is reached. *)
Example zoomIn_steps :
  let s := settings_with single ltr in
  let r := mkReader 0 1 (0%Q, 0%Q) in
  (zoom (applyZoom s OpZoomIn r) == 3 # 2)%Q /\
  (zoom (applyZoom s OpZoomIn (applyZoom s OpZoomIn r)) == 9 # 4)%Q /\
  (zoom (applyZoom s OpZoomIn (mkReader 0 5 (0%Q, 0%Q))) == 5)%Q.
Proof. repeat split. Qed.

(** ** The screens of the app *)

Lemma app_step_reader e a :
  (currentState a = st_reader -> currentComic a <> None) ->
  currentState (app_step e a) = st_reader -> currentComic (app_step e a) <> None.
Proof.
  intros Ha. destruct e; cbn [app_step]; try (cbn; intros; try discriminate; now auto).
  - unfold loadSavedData.
    destruct (truthy savedToken); [destruct (truthy savedFolder)|]; cbn;
      try discriminate. exact Ha.
  - unfold handleBackFromSettings. cbn.
    destruct (currentComic a); [discriminate | discriminate].
Qed.

(** X23: the reader screen is never current without a comic: in every
    state that the app reaches, whatever the order in which the parts of
    its asynchronous handlers run, [currentState] is "reader" only when
    [currentComic] is set. *)
Theorem app_states events :
  currentState (app_run events initApp) = st_reader ->
  currentComic (app_run events initApp) <> None.
Proof.
  assert (H : forall a, (currentState a = st_reader -> currentComic a <> None) ->
    currentState (app_run events a) = st_reader -> currentComic (app_run events a) <> None).
  { induction events as [|e events IH]; intros a Ha; [exact Ha|].
    cbn [app_run]. apply IH. now apply app_step_reader. }
  apply H. discriminate.
Qed.

Lemma app_states_witness :
  currentState
    (app_run [AppLoginSuccess_start "token"; AppLoginSuccess_end;
              AppFolderSelected_start "root" "Comics"; AppFolderSelected_end;
              AppOpenComic ten_page_comic; AppLoginSuccess_end; AppOpenSettings;
              AppBackFromSettings] initApp) = st_reader /\
  currentComic
    (app_run [AppLoginSuccess_start "token"; AppLoginSuccess_end;
              AppFolderSelected_start "root" "Comics"; AppFolderSelected_end;
              AppOpenComic ten_page_comic; AppLoginSuccess_end; AppOpenSettings;
              AppBackFromSettings] initApp) <> None.
Proof.
  split; [reflexivity|].
  apply (app_states [AppLoginSuccess_start "token"; AppLoginSuccess_end;
                     AppFolderSelected_start "root" "Comics"; AppFolderSelected_end;
                     AppOpenComic ten_page_comic; AppLoginSuccess_end; AppOpenSettings;
                     AppBackFromSettings]).
  reflexivity.
Defined.
